(** * Population Viewer: acquisition, conversion, hit-testing, classification

    A shallow embedding of the algorithmic core of the Population Viewer
    (src/data/api_data_manager.py, src/data/data_manager.py,
    src/gui/main_application.py, src/gui/chloropleth_generator.py,
    geometry_query_params/us_states_abbreviations.py) together with the
    properties its design document states about it and further
    properties read off the code.

    Numbers.  Python floats are idealised: the projector, which needs
    [atan], [exp] and [pi], works over the real numbers [R]; the hit test
    and the classifier, which only add, multiply, divide and compare, work
    over the rationals [Q] and therefore evaluate.  Python integers are [Z].
    Where rounding changes the answer, the function is modelled a second
    time over binary64 floats ([ProjectorDoubles], [SpatialDoubles]), and
    the properties say which of the two models they are about.

    Effects.  [requests.get] is an oracle [nat -> Response] giving the
    answer to the k-th request of the run; [time.sleep] and the printed
    batch summary are recorded in a trace; dictionaries held by the manager
    live in a store and are referred to by location, so that aliasing of
    the cached collection is visible.  Progress callbacks are optional in
    the source and are left out. *)

From Stdlib Require Import ZArith QArith Qround Qminmax Qabs Reals Lqa Lra Lia List Bool Sorted.
From Stdlib Require Floats.
From stdpp Require Import gmap strings list pretty.
Import ListNotations.

(** ** Part I: the embedding *)

(** *** Python built-ins used by the source *)

Module Py.

(** [range(start, stop, step)] for a positive step: the values
    [start + k * step] below [stop]. *)
Definition py_range (start stop step : Z) : list Z :=
  map (fun k => (start + step * Z.of_nat k)%Z)
      (seq 0 (Z.to_nat ((stop - start + step - 1) / step))).

(** The exceptions the modelled functions can raise. *)
Inductive PyError := ValueError | ZeroDivisionError | IndexError | UnboundLocalError.

(** A Python call either returns or raises. *)
Inductive Result (A : Type) :=
| Return (a : A)
| Raise (e : PyError).
Arguments Return {A} a.
Arguments Raise {A} e.

Definition bind {A B : Type} (r : Result A) (k : A -> Result B) : Result B :=
  match r with
  | Return a => k a
  | Raise e => Raise e
  end.

Definition returns {A : Type} (r : Result A) : bool :=
  match r with Return _ => true | Raise _ => false end.

(** Runs [f] on the elements from left to right, stopping at the first raise. *)
Fixpoint for_each {A B : Type} (f : A -> Result B) (l : list A) : Result (list B) :=
  match l with
  | [] => Return []
  | a :: l' => bind (f a) (fun b => bind (for_each f l') (fun bs => Return (b :: bs)))
  end.

End Py.

(** *** GeometryProjector: [APIDataManager._web_mercator_to_latlon] *)

Module Projector.

Definition earth_radius : R := 6378137%R.

(** Returns the pair (longitude, latitude), the list [[lon, lat]] of the source. *)
Definition web_mercator_to_latlon (x y : R) : R * R :=
  let lon := ((x / earth_radius) * (180 / PI))%R in
  let lat := ((2 * atan (exp (y / earth_radius)) - PI / 2) * (180 / PI))%R in
  (lon, lat).


End Projector.

(** The same function on binary64 floats, as it runs.  The arithmetic is
    IEEE 754; [math.exp] and [math.atan] are whatever the platform's
    library computes and are parameters here.  [math.exp] raises
    OverflowError on a large argument: [None]. *)
Module ProjectorDoubles.
Import PrimFloat.
Local Open Scope float_scope.

Definition earth_radius : float := 6378137.

(** [math.pi] *)
Definition math_pi : float := 0x1.921fb54442d18p+1.

Definition web_mercator_to_latlon (math_exp : float -> option float)
    (math_atan : float -> float) (x y : float) : option (float * float) :=
  let lon := (x / earth_radius) * (180 / math_pi) in
  match math_exp (y / earth_radius) with
  | None => None
  | Some e =>
      let lat := (2 * math_atan e - math_pi / 2) * (180 / math_pi) in
      Some (lon, lat)
  end.





Definition one : float := 1.

End ProjectorDoubles.

(** *** FeatureConverter: [_convert_arcgis_geometry_to_geojson], [_convert_to_geojson] *)

Module Converter.
Import Projector.

Definition Ring := list (R * R).

(** GeoJSON geometry: the ['type'] tag with its ['coordinates']. *)
Inductive Geometry :=
| Polygon (coordinates : list Ring)
| MultiPolygon (coordinates : list (list Ring)).

Definition is_MultiPolygon (g : Geometry) : bool :=
  match g with MultiPolygon _ => true | Polygon _ => false end.

(** JSON attribute values as the service sends them. *)
Inductive Value :=
| VStr (s : string)
| VNum (n : Z)
| VNull.

Definition value_eqb (a b : Value) : bool :=
  match a, b with
  | VStr s, VStr t => String.eqb s t
  | VNum n, VNum m => (n =? m)%Z
  | VNull, VNull => true
  | _, _ => false
  end.

(** Python truthiness of a value ([if fips_code], [not state_abbr]). *)
Definition truthy (v : Value) : bool :=
  match v with
  | VStr s => negb (String.eqb s "")
  | VNum n => negb (n =? 0)%Z
  | VNull => false
  end.

(** [str(v)] as an f-string formats it. *)
Definition py_str (v : Value) : string :=
  match v with
  | VStr s => s
  | VNum n => pretty n
  | VNull => "None"
  end.

(** One element of the response's ['features']: its ['attributes'] (absent
    reads as the empty dict) and the ['rings'] of its ['geometry']; [None]
    when the geometry is absent, empty or has no ['rings'] key. *)
Record ArcFeature := mkArcFeature {
  attributes : gmap string Value;
  arc_rings : option (list Ring)
}.

Record Feature := mkFeature {
  properties : gmap string Value;
  geometry : Geometry
}.

(** The ['features'] list of a GeoJSON FeatureCollection. *)
Definition FeatureCollection := list Feature.

(** [[self._web_mercator_to_latlon(x, y) for x, y in ring]] *)
Definition convert_ring (ring : Ring) : Ring :=
  map (fun p => web_mercator_to_latlon (fst p) (snd p)) ring.

(** Body of [for ring in rings: ... converted_rings.append(converted_ring)]. *)
Definition append_converted (converted_rings : list Ring) (ring : Ring) : list Ring :=
  converted_rings ++ [convert_ring ring].

(** Body of [for ring in converted_rings: if len(ring) >= 4: polygons.append([ring])]. *)
Definition append_valid (polygons : list (list Ring)) (ring : Ring) : list (list Ring) :=
  if (4 <=? length ring)%nat then polygons ++ [[ring]] else polygons.

Definition convert_arcgis_geometry_to_geojson (arcgis_rings : option (list Ring)) : Geometry :=
  match arcgis_rings with
  | None => Polygon []
  | Some rings =>
      let converted_rings := fold_left append_converted rings [] in
      if (length converted_rings =? 1)%nat then Polygon converted_rings
      else
        let polygons := fold_left append_valid converted_rings [] in
        match polygons with
        | [polygon] => Polygon polygon
        | _ => MultiPolygon polygons
        end
  end.

(** [geometry_query_params.us_states_abbreviations.US_STATES_ABBREVIATIONS] *)
Definition US_STATES_ABBREVIATIONS : gmap string string :=
  list_to_map
    [("Alabama", "AL"); ("Alaska", "AK"); ("Arizona", "AZ"); ("Arkansas", "AR");
     ("California", "CA"); ("Colorado", "CO"); ("Connecticut", "CT");
     ("Delaware", "DE"); ("Florida", "FL"); ("Georgia", "GA"); ("Hawaii", "HI");
     ("Idaho", "ID"); ("Illinois", "IL"); ("Indiana", "IN"); ("Iowa", "IA");
     ("Kansas", "KS"); ("Kentucky", "KY"); ("Louisiana", "LA"); ("Maine", "ME");
     ("Maryland", "MD"); ("Massachusetts", "MA"); ("Michigan", "MI");
     ("Minnesota", "MN"); ("Mississippi", "MS"); ("Missouri", "MO");
     ("Montana", "MT"); ("Nebraska", "NE"); ("Nevada", "NV");
     ("New Hampshire", "NH"); ("New Jersey", "NJ"); ("New Mexico", "NM");
     ("New York", "NY"); ("North Carolina", "NC"); ("North Dakota", "ND");
     ("Ohio", "OH"); ("Oklahoma", "OK"); ("Oregon", "OR"); ("Pennsylvania", "PA");
     ("Rhode Island", "RI"); ("South Carolina", "SC"); ("South Dakota", "SD");
     ("Tennessee", "TN"); ("Texas", "TX"); ("Utah", "UT"); ("Vermont", "VT");
     ("Virginia", "VA"); ("Washington", "WA"); ("West Virginia", "WV");
     ("Wisconsin", "WI"); ("Wyoming", "WY"); ("District of Columbia", "DC");
     ("Puerto Rico", "PR"); ("U.S. Virgin Islands", "VI"); ("Guam", "GU");
     ("American Samoa", "AS"); ("Northern Mariana Islands", "MP")].

(** [get_state_abbreviation]: the table entry, or the empty string. *)
Definition get_state_abbreviation (state_name : Value) : Value :=
  match state_name with
  | VStr s => VStr (default ""%string (US_STATES_ABBREVIATIONS !! s))
  | _ => VStr ""
  end.

(** [attributes.get(key, dflt)] *)
Definition attr_get (attrs : gmap string Value) (key : string) (dflt : Value) : Value :=
  default dflt (attrs !! key).

Definition state_properties (attrs : gmap string Value) : gmap string Value :=
  let state_name := attr_get attrs "NAME" (VStr "") in
  let state_abbr := attr_get attrs "STATE_ABBR" (attr_get attrs "STUSPS" (VStr "")) in
  let state_abbr := if truthy state_abbr then state_abbr
                    else get_state_abbreviation state_name in
  <["NAME" := state_name]>
    (<["STATE_ABBR" := state_abbr]>
      (<["STUSPS" := state_abbr]>
        (<["STATE" := attr_get attrs "STATE" (VStr "")]> ∅))).

Definition county_properties (attrs : gmap string Value) : gmap string Value :=
  <["NAME" := attr_get attrs "NAME" (VStr "")]>
    (<["STATE" := attr_get attrs "STATE" (VStr "")]>
      (<["POP100" := attr_get attrs "POP100" (VNum 0)]> ∅)).

(** Body of the loop of [_convert_to_geojson]: one feature converted and appended. *)
Definition append_feature (data_type : string) (features : list Feature)
    (feature : ArcFeature) : list Feature :=
  let geometry := convert_arcgis_geometry_to_geojson (arc_rings feature) in
  let properties :=
    if String.eqb data_type "states" then state_properties (attributes feature)
    else if String.eqb data_type "counties" then county_properties (attributes feature)
    else ∅ in
  features ++ [mkFeature properties geometry].

Definition convert_to_geojson (api_features : list ArcFeature) (data_type : string)
    : FeatureCollection :=
  fold_left (append_feature data_type) api_features [].

(** Two rings for the examples: a closed square (five points, the first
    repeated) and a degenerate ring of three points. *)
Definition closed_square : Ring :=
  [(0, 0); (0, 10); (10, 10); (10, 0); (0, 0)]%R.

Definition sliver : Ring := [(0, 0); (1, 1); (0, 0)]%R.

End Converter.

(** *** AcquisitionClient and RegionCache: [APIDataManager.load_counties_data],
    [APIDataManager.load_counties_for_region] *)

Module Acquisition.
Import Py Converter.

(** The decoded JSON body: whether it has an ['error'] key, its ['count']
    and its ['features']. *)
Record JsonBody := mkBody {
  has_error : bool;
  count : option Z;
  features : option (list ArcFeature)
}.

(** What [requests.get(...)], [raise_for_status()] and [json()] come to:
    a decoded body, or one of the exceptions the loops distinguish. *)
Inductive Response :=
| Timeout
| RequestException
| OtherException
| Ok (body : JsonBody).

(** The answer to the k-th request of the run, counting from 0. *)
Definition Network := nat -> Response.

Inductive Event :=
| Request (url where_clause : string)
| Sleep (seconds : nat)
| Summary (successful_count failed_count : nat).

(** Observable effects, newest first. *)
Definition Trace := list Event.

Definition is_request (e : Event) : bool :=
  match e with Request _ _ => true | _ => false end.

Definition is_sleep (e : Event) : bool :=
  match e with Sleep _ => true | _ => false end.

Definition requests_sent (tr : Trace) : nat := length (List.filter is_request tr).

Definition sleeps (tr : Trace) : nat := length (List.filter is_sleep tr).

Definition requests_get (net : Network) (url where_clause : string) (tr : Trace)
    : Response * Trace :=
  (net (requests_sent tr), Request url where_clause :: tr).

Definition counties_url : string :=
  "https://tigerweb.geo.census.gov/arcgis/rest/services/TIGERweb/State_County/MapServer/55/query".

(** The loop variables [all_features], [successful_*], [failed_*]. *)
Record Acc := mkAcc {
  all_features : list ArcFeature;
  successful : nat;
  failed : nat
}.

Definition empty_acc : Acc := mkAcc [] 0 0.

(** [all_features.extend(batch_features); successful += 1] *)
Definition add_success (batch_features : list ArcFeature) (acc : Acc) : Acc :=
  mkAcc (all_features acc ++ batch_features) (successful acc + 1) (failed acc).

(** [failed += 1] *)
Definition add_failed (acc : Acc) : Acc :=
  mkAcc (all_features acc) (successful acc) (failed acc + 1).

Definition batch_size : Z := 150.
Definition max_retries : nat := 3.

(** The pairs [(batch_start, batch_end)] the batch loop runs through. *)
Definition batch_ranges (max_records : Z) : list (Z * Z) :=
  map (fun batch_start => (batch_start, Z.min (batch_start + batch_size - 1) max_records))
      (py_range 1 (max_records + 1) batch_size).

Definition objectid_where (batch_start batch_end : Z) : string :=
  "OBJECTID >= " +:+ pretty batch_start +:+ " AND OBJECTID <= " +:+ pretty batch_end.

(** [while retry_count < max_retries and not batch_success: ...].  A
    successful attempt sets [batch_success] and a [break] leaves the loop:
    both return at once.  [fuel] bounds the number of times the guard is
    evaluated. *)
Fixpoint retry_loop (net : Network) (fuel : nat) (where_clause : string)
    (retry_count : nat) (acc : Acc) (tr : Trace) : Acc * Trace :=
  match fuel with
  | O => (acc, tr)
  | S fuel' =>
      if (retry_count <? max_retries)%nat then
        let '(batch_response, tr) := requests_get net counties_url where_clause tr in
        match batch_response with
        | Ok batch_data =>
            if has_error batch_data then
              if (retry_count <? max_retries - 1)%nat then
                retry_loop net fuel' where_clause (retry_count + 1) acc (Sleep 1 :: tr)
              else (add_failed acc, tr)
            else
              match features batch_data with
              | Some (f :: fs) => (add_success (f :: fs) acc, tr)
              | _ => (add_failed acc, tr)
              end
        | _ =>
            let retry_count := (retry_count + 1)%nat in
            if (retry_count <? max_retries)%nat then
              retry_loop net fuel' where_clause retry_count acc (Sleep 2 :: tr)
            else
              retry_loop net fuel' where_clause retry_count (add_failed acc) tr
        end
      else (acc, tr)
  end.

(** Body of [for batch_start in range(1, max_records + 1, batch_size)]. *)
Definition batch_step (net : Network) (st : Acc * Trace) (batch : Z * Z) : Acc * Trace :=
  retry_loop net (S max_retries) (objectid_where (fst batch) (snd batch)) 0 (fst st) (snd st).

Definition loc := nat.

(** The fields of [APIDataManager] the loaders touch.  [counties_data] and
    the values of [counties_by_region] are references into [store]. *)
Record Manager := mkManager {
  states_data : option FeatureCollection;
  counties_data : option loc;
  counties_by_region : gmap string loc;
  current_region : option string;
  store : list FeatureCollection
}.

(** A manager after [__init__] and a successful [load_states_data]. *)
Definition manager_with_states (states : FeatureCollection) : Manager :=
  mkManager (Some states) None ∅ None [].

(** The collection [counties_data] refers to. *)
Definition counties_of (m : Manager) : option FeatureCollection :=
  l ← counties_data m; store m !! l.

(** The collection cached for a region. *)
Definition cached (m : Manager) (region : string) : option FeatureCollection :=
  l ← counties_by_region m !! region; store m !! l.

(** [self.counties_data = self._convert_to_geojson(...)]: a new dictionary. *)
Definition assign_counties_data (c : FeatureCollection) (m : Manager) : Manager :=
  mkManager (states_data m) (Some (length (store m))) (counties_by_region m)
            (current_region m) (store m ++ [c]).

Definition load_counties_data (net : Network) (m : Manager) (tr : Trace)
    : bool * Manager * Trace :=
  let '(count_response, tr) := requests_get net counties_url "1=1" tr in
  match count_response with
  | Ok count_data =>
      if has_error count_data then (false, m, tr)
      else
        let total_records := default 0%Z (count count_data) in
        if (total_records =? 0)%Z then (false, m, tr)
        else
          let '(acc, tr) :=
            fold_left (batch_step net) (batch_ranges total_records) (empty_acc, tr) in
          let tr := Summary (successful acc) (failed acc) :: tr in
          match all_features acc with
          | [] => (false, m, tr)
          | _ :: _ =>
              (true, assign_counties_data (convert_to_geojson (all_features acc) "counties") m, tr)
          end
  | _ => (false, m, tr)
  end.

(** [data.data_manager.REGIONS] *)
Definition REGIONS : gmap string (gset string) :=
  list_to_map
    [("West", list_to_set
        ["Washington"; "Montana"; "Idaho"; "Oregon"; "Wyoming"; "California";
         "Nevada"; "Utah"; "Colorado"; "Alaska"; "Hawaii"]);
     ("Midwest", list_to_set
        ["North Dakota"; "South Dakota"; "Nebraska"; "Kansas"; "Minnesota";
         "Iowa"; "Missouri"; "Wisconsin"; "Illinois"; "Indiana"; "Michigan"; "Ohio"]);
     ("Northeast", list_to_set
        ["Pennsylvania"; "Maryland"; "Delaware"; "New Jersey"; "Connecticut";
         "Rhode Island"; "Massachusetts"; "New York"; "Vermont"; "New Hampshire";
         "Maine"]);
     ("Southeast", list_to_set
        ["District of Columbia"; "Virginia"; "West Virginia"; "Kentucky";
         "Arkansas"; "Louisiana"; "Mississippi"; "Alabama"; "Georgia"; "Florida";
         "South Carolina"; "North Carolina"; "Tennessee"]);
     ("Southwest", list_to_set ["Oklahoma"; "Texas"; "New Mexico"; "Arizona"])].

(** [get_states_in_region]: [REGIONS.get(region, set())] *)
Definition get_states_in_region (region : string) : gset string :=
  default ∅ (REGIONS !! region).

(** [state_name in states_in_region] *)
Definition name_in (state_name : Value) (names : gset string) : bool :=
  match state_name with
  | VStr s => bool_decide (s ∈ names)
  | _ => false
  end.

(** [fips_code not in ['72', '78']] *)
Definition excluded_fips (fips_code : Value) : bool :=
  existsb (value_eqb fips_code) [VStr "72"; VStr "78"].

(** Body of [for feature in self.states_data['features']]; [None] once
    [feature['properties']['NAME']] has raised KeyError. *)
Definition fips_step (states_in_region : gset string) (codes : option (list Value))
    (feature : Feature) : option (list Value) :=
  match codes with
  | None => None
  | Some state_fips_codes =>
      match properties feature !! "NAME" with
      | None => None
      | Some state_name =>
          if name_in state_name states_in_region then
            let fips_code := default (VStr "") (properties feature !! "STATE") in
            if truthy fips_code && negb (excluded_fips fips_code)
            then Some (state_fips_codes ++ [fips_code])
            else Some state_fips_codes
          else Some state_fips_codes
      end
  end.

Definition state_where (fips_code : Value) : string :=
  "STATE = '" +:+ py_str fips_code +:+ "'".

(** Body of [for i, fips_code in enumerate(state_fips_codes)]: one request,
    every failure counted at once. *)
Definition state_step (net : Network) (st : Acc * Trace) (fips_code : Value) : Acc * Trace :=
  let '(state_response, tr) :=
    requests_get net counties_url (state_where fips_code) (snd st) in
  match state_response with
  | Ok state_data =>
      if has_error state_data then (add_failed (fst st), tr)
      else
        match features state_data with
        | Some (f :: fs) => (add_success (f :: fs) (fst st), tr)
        | _ => (add_failed (fst st), tr)
        end
  | _ => (add_failed (fst st), tr)
  end.

(** The cache-hit branch: [self.counties_data = self._counties_by_region[region]]. *)
Definition use_cached (region : string) (l : loc) (m : Manager) : Manager :=
  mkManager (states_data m) (Some l) (counties_by_region m) (Some region) (store m).

(** The end of the miss branch: the new collection is assigned to
    [counties_data] and the same object is stored under [region]. *)
Definition store_region (region : string) (c : FeatureCollection) (m : Manager) : Manager :=
  mkManager (states_data m) (Some (length (store m)))
            (<[region := length (store m)]> (counties_by_region m))
            (Some region) (store m ++ [c]).

(** The FIPS codes of the region's states, [None] when the source raises
    before the fetch loop (no states data, no NAME key). *)
Definition region_fips_codes (region : string) (m : Manager) : option (list Value) :=
  states ← states_data m;
  fold_left (fips_step (get_states_in_region region)) states (Some []).

Definition load_counties_for_region (net : Network) (region : string) (m : Manager)
    (tr : Trace) : bool * Manager * Trace :=
  match counties_by_region m !! region with
  | Some l => (true, use_cached region l m, tr)
  | None =>
      if bool_decide (get_states_in_region region = ∅) then (false, m, tr)
      else
        match region_fips_codes region m with
        | None | Some [] => (false, m, tr)
        | Some state_fips_codes =>
            let '(acc, tr) := fold_left (state_step net) state_fips_codes (empty_acc, tr) in
            let tr := Summary (successful acc) (failed acc) :: tr in
            match all_features acc with
            | [] => (false, m, tr)
            | _ :: _ =>
                (true, store_region region (convert_to_geojson (all_features acc) "counties") m, tr)
            end
        end
  end.

(** **** Vocabulary of the properties *)

(** The records a response delivers: a body without error whose feature
    list is present and not empty. *)
Definition records_of (r : Response) : option (list ArcFeature) :=
  match r with
  | Ok body =>
      if has_error body then None
      else match features body with
           | Some (f :: fs) => Some (f :: fs)
           | _ => None
           end
  | _ => None
  end.

(** Error response, timeout or transport failure: what the retry policy
    retries.  A body without error is final, with or without records. *)
Definition retriable (r : Response) : bool :=
  match r with
  | Ok body => has_error body
  | _ => true
  end.

(** The retry policy of the design document for a batch whose first
    request is the k-th of the run: up to three attempts, the first one
    that is not retriable decides; the outcome and the attempts used. *)
Definition three_attempts (net : Network) (k : nat) : option (list ArcFeature) * nat :=
  if retriable (net k) then
    if retriable (net (S k)) then (records_of (net (S (S k))), 3%nat)
    else (records_of (net (S k)), 2%nat)
  else (records_of (net k), 1%nat).

(** The back-off the source sleeps after a retriable answer: one second
    after an error body, two after an exception. *)
Definition backoff (r : Response) : nat :=
  match r with
  | Ok _ => 1%nat
  | _ => 2%nat
  end.

(** The events of a batch under that policy, newest first: the attempts
    with a back-off between consecutive ones. *)
Definition batch_events (net : Network) (k : nat) (where_clause : string) : list Event :=
  if retriable (net k) then
    if retriable (net (S k)) then
      [Request counties_url where_clause; Sleep (backoff (net (S k)));
       Request counties_url where_clause; Sleep (backoff (net k));
       Request counties_url where_clause]
    else
      [Request counties_url where_clause; Sleep (backoff (net k));
       Request counties_url where_clause]
  else [Request counties_url where_clause].

(** A partition's outcome entered in the counters. *)
Definition apply_outcome (o : option (list ArcFeature)) (acc : Acc) : Acc :=
  match o with
  | Some batch_features => add_success batch_features acc
  | None => add_failed acc
  end.

(** The outcomes of [n] consecutive batches under that policy. *)
Fixpoint batch_outcomes (net : Network) (n k : nat) : list (option (list ArcFeature)) :=
  match n with
  | O => []
  | S n' => fst (three_attempts net k)
            :: batch_outcomes net n' (snd (three_attempts net k) + k)
  end.

(** The outcomes of [n] consecutive partitions fetched once each. *)
Definition single_outcomes (net : Network) (n k : nat) : list (option (list ArcFeature)) :=
  map (fun i => records_of (net (k + i))) (seq 0 n).

(** The union of the records of the successful partitions, in order. *)
Definition union_of (outcomes : list (option (list ArcFeature))) : list ArcFeature :=
  concat (map (default []) outcomes).

Definition count_failed (outcomes : list (option (list ArcFeature))) : nat :=
  length (List.filter (fun o => negb (bool_decide (is_Some o))) outcomes).

Definition count_succeeded (outcomes : list (option (list ArcFeature))) : nat :=
  length (List.filter (fun o => bool_decide (is_Some o)) outcomes).

(** The outcomes entered in the counters one after the other. *)
Definition tally (outcomes : list (option (list ArcFeature))) (acc : Acc) : Acc :=
  fold_left (fun a o => apply_outcome o a) outcomes acc.

(** The partitions of a numeric-ID load started after trace [tr]: none
    unless the count request (the next request) answers a non-zero count. *)
Definition numeric_partitions (net : Network) (tr : Trace) : list (Z * Z) :=
  match net (requests_sent tr) with
  | Ok count_data =>
      if has_error count_data then []
      else batch_ranges (default 0%Z (count count_data))
  | _ => []
  end.

(** The partitions of a regional load: the FIPS codes of the region's
    states, none when they cannot be determined. *)
Definition region_partitions (region : string) (m : Manager) : list Value :=
  default [] (region_fips_codes region m).

(** The three components of a loader's result. *)
Definition succeeded (r : bool * Manager * Trace) : bool := fst (fst r).
Definition manager_after (r : bool * Manager * Trace) : Manager := snd (fst r).
Definition trace_after (r : bool * Manager * Trace) : Trace := snd r.

(** **** Sample data *)

Definition arc_state (name fips : string) : ArcFeature :=
  mkArcFeature (<["NAME" := VStr name]> (<["STATE" := VStr fips]> ∅)) None.

Definition arc_county (name fips : string) (population : Z) : ArcFeature :=
  mkArcFeature
    (<["NAME" := VStr name]> (<["STATE" := VStr fips]> (<["POP100" := VNum population]> ∅)))
    None.

Definition salt_lake : ArcFeature := arc_county "Salt Lake" "49" 1185238.
Definition washoe : ArcFeature := arc_county "Washoe" "32" 486492.
Definition ada : ArcFeature := arc_county "Ada" "16" 494967.
Definition lane : ArcFeature := arc_county "Lane" "41" 382971.

(** Managers holding one, two and four states of the West region. *)
Definition utah_only : Manager :=
  manager_with_states (convert_to_geojson [arc_state "Utah" "49"] "states").

Definition utah_nevada : Manager :=
  manager_with_states
    (convert_to_geojson [arc_state "Utah" "49"; arc_state "Nevada" "32"] "states").

Definition four_states : Manager :=
  manager_with_states
    (convert_to_geojson
       [arc_state "Utah" "49"; arc_state "Nevada" "32"; arc_state "Idaho" "16";
        arc_state "Oregon" "41"] "states").

Definition answer (records : list ArcFeature) : Response :=
  Ok (mkBody false None (Some records)).

(** The second of four requests times out. *)
Definition second_times_out : Network :=
  fun k => match k with
           | 0%nat => answer [salt_lake]
           | 1%nat => Timeout
           | 2%nat => answer [ada]
           | _ => answer [lane]
           end.

(** The first request times out, every later one is answered. *)
Definition first_times_out : Network :=
  fun k => match k with
           | 0%nat => Timeout
           | _ => answer [salt_lake]
           end.

(** The first request is answered, every later one times out. *)
Definition only_first_answered : Network :=
  fun k => match k with
           | 0%nat => answer [salt_lake]
           | _ => Timeout
           end.

Definition always_times_out : Network := fun _ => Timeout.

(** The count request answers 320, the second batch fails three times. *)
Definition second_batch_fails : Network :=
  fun k => match k with
           | 0%nat => Ok (mkBody false (Some 320%Z) None)
           | 1%nat => answer [salt_lake]
           | 2%nat => Timeout
           | 3%nat => Ok (mkBody true None None)
           | 4%nat => RequestException
           | _ => answer [ada]
           end.

End Acquisition.

(** *** SpatialIndex: [RegionalPopulationViewer._point_in_polygon] *)

Module SpatialIndex.
Import Py.
Local Open Scope Q_scope.

Definition Point := (Q * Q)%type.

Definition Qlt_bool (a b : Q) : bool := negb (Qle_bool b a).

(** [polygon_coords[:, k].min()] and [.max()] of a non-empty array. *)
Definition column_min (f : Point -> Q) (first : Point) (rest : list Point) : Q :=
  fold_left (fun m p => Qmin m (f p)) rest (f first).

Definition column_max (f : Point -> Q) (first : Point) (rest : list Point) : Q :=
  fold_left (fun m p => Qmax m (f p)) rest (f first).

(** [x < min_x or x > max_x or y < min_y or y > max_y] *)
Definition outside_box (x y : Q) (first : Point) (rest : list Point) : bool :=
  Qlt_bool x (column_min fst first rest) || Qlt_bool (column_max fst first rest) x
  || Qlt_bool y (column_min snd first rest) || Qlt_bool (column_max snd first rest) y.

(** The variables of the edge loop; [xinters] is unbound until first assigned. *)
Record RayState := mkRay {
  p1 : Point;
  inside : bool;
  xinters : option Q
}.

Definition x_intersection (y : Q) (a b : Point) : Q :=
  (y - snd a) * (fst b - fst a) / (snd b - snd a) + fst a.

(** The tests of the loop body on the edge from [p1] to [p2], and [p1x, p1y = p2x, p2y]. *)
Definition ray_edge (x y : Q) (st : RayState) (p2 : Point) : Result RayState :=
  let '(p1x, p1y) := p1 st in
  let '(p2x, p2y) := p2 in
  if Qlt_bool (Qmin p1y p2y) y then
    if Qle_bool y (Qmax p1y p2y) then
      if Qle_bool x (Qmax p1x p2x) then
        let xi := if negb (Qeq_bool p1y p2y)
                  then Some (x_intersection y (p1 st) p2) else xinters st in
        if Qeq_bool p1x p2x then Return (mkRay p2 (negb (inside st)) xi)
        else
          match xi with
          | None => Raise UnboundLocalError
          | Some v =>
              if Qle_bool x v then Return (mkRay p2 (negb (inside st)) xi)
              else Return (mkRay p2 (inside st) xi)
          end
      else Return (mkRay p2 (inside st) (xinters st))
    else Return (mkRay p2 (inside st) (xinters st))
  else Return (mkRay p2 (inside st) (xinters st)).

(** Body of [for i in range(1, n + 1)]: [p2x, p2y = polygon_coords[i % n]],
    then the tests. *)
Definition ray_step (x y : Q) (polygon_coords : list Point) (n : nat)
    (st : Result RayState) (i : nat) : Result RayState :=
  bind st (fun st =>
  match polygon_coords !! (i mod n)%nat with
  | None => Raise IndexError
  | Some p2 => ray_edge x y st p2
  end).

Definition point_in_polygon (x y : Q) (polygon_coords : list Point) : Result bool :=
  if (length polygon_coords <? 3)%nat then Return false
  else
    match polygon_coords with
    | [] => Return false
    | first :: rest =>
        if outside_box x y first rest then Return false
        else
          let n := length polygon_coords in
          bind (fold_left (ray_step x y polygon_coords n) (seq 1 n)
                          (Return (mkRay first false None)))
               (fun st => Return (inside st))
    end.

(** **** Vocabulary of the properties *)

(** The edges of a ring in order, the last one joining the last vertex to
    the first. *)
Definition edges (ring : list Point) : list (Point * Point) :=
  match ring with
  | [] => []
  | first :: rest => combine ring (rest ++ [first])
  end.

(** The edges met when walking from [a] through the points [pts]. *)
Fixpoint edges_from (a : Point) (pts : list Point) : list (Point * Point) :=
  match pts with
  | [] => []
  | b :: pts' => (a, b) :: edges_from b pts'
  end.

(** The edge rule of the source: the point's y is above the lower and at or
    below the upper end of the edge, its x is at or left of the edge's
    right end, and the edge is vertical or x is at or left of the
    intersection. *)
Definition toggles (x y : Q) (e : Point * Point) : bool :=
  let '(a, b) := e in
  Qlt_bool (Qmin (snd a) (snd b)) y && Qle_bool y (Qmax (snd a) (snd b))
  && Qle_bool x (Qmax (fst a) (fst b))
  && (Qeq_bool (fst a) (fst b) || Qle_bool x (x_intersection y a b)).

(** The edge rule as the design document words it: y strictly between the
    edge's y-extremes, and x at or left of the intersection, a vertical
    edge toggling whenever the y-test passes. *)
Definition documented_toggles (x y : Q) (e : Point * Point) : bool :=
  let '(a, b) := e in
  Qlt_bool (Qmin (snd a) (snd b)) y && Qlt_bool y (Qmax (snd a) (snd b))
  && (Qeq_bool (fst a) (fst b) || Qle_bool x (x_intersection y a b)).

(** The same with the vertical-edge remark read as a special case of the
    intersection test (for a vertical edge the intersection is its x). *)
Definition documented_toggles_by_intersection (x y : Q) (e : Point * Point) : bool :=
  let '(a, b) := e in
  Qlt_bool (Qmin (snd a) (snd b)) y && Qlt_bool y (Qmax (snd a) (snd b))
  && Qle_bool x (x_intersection y a b).

(** Parity rule over an edge rule, after the point-count and bounding-box tests. *)
Definition ray_cast (rule : Q -> Q -> Point * Point -> bool) (x y : Q)
    (ring : list Point) : bool :=
  match ring with
  | first :: rest =>
      (3 <=? length ring)%nat && negb (outside_box x y first rest)
      && Nat.odd (length (List.filter (rule x y) (edges ring)))
  | [] => false
  end.

Definition square : list Point := [(0, 0); (0, 10); (10, 10); (10, 0)].

End SpatialIndex.

(** [_point_in_polygon] on binary64 floats, as it runs: the same
    definitions with IEEE 754 arithmetic and comparisons.  The coordinates
    are numbers (no nan). *)
Module SpatialDoubles.
Import Py PrimFloat.
Local Open Scope float_scope.

Definition Point := (float * float)%type.

(** [min(a, b)], [max(a, b)]: the first argument unless the second is
    strictly smaller (greater). *)
Definition py_min (a b : float) : float := if b <? a then b else a.

Definition py_max (a b : float) : float := if a <? b then b else a.

Definition column_min (f : Point -> float) (first : Point) (rest : list Point) : float :=
  fold_left (fun m p => py_min m (f p)) rest (f first).

Definition column_max (f : Point -> float) (first : Point) (rest : list Point) : float :=
  fold_left (fun m p => py_max m (f p)) rest (f first).

Definition outside_box (x y : float) (first : Point) (rest : list Point) : bool :=
  (x <? column_min fst first rest) || (column_max fst first rest <? x)
  || (y <? column_min snd first rest) || (column_max snd first rest <? y).

Record RayState := mkRay {
  p1 : Point;
  inside : bool;
  xinters : option float
}.

Definition x_intersection (y : float) (a b : Point) : float :=
  (y - snd a) * (fst b - fst a) / (snd b - snd a) + fst a.

Definition ray_edge (x y : float) (st : RayState) (p2 : Point) : Result RayState :=
  let '(p1x, p1y) := p1 st in
  let '(p2x, p2y) := p2 in
  if py_min p1y p2y <? y then
    if y <=? py_max p1y p2y then
      if x <=? py_max p1x p2x then
        let xi := if negb (p1y =? p2y)
                  then Some (x_intersection y (p1 st) p2) else xinters st in
        if p1x =? p2x then Return (mkRay p2 (negb (inside st)) xi)
        else
          match xi with
          | None => Raise UnboundLocalError
          | Some v =>
              if x <=? v then Return (mkRay p2 (negb (inside st)) xi)
              else Return (mkRay p2 (inside st) xi)
          end
      else Return (mkRay p2 (inside st) (xinters st))
    else Return (mkRay p2 (inside st) (xinters st))
  else Return (mkRay p2 (inside st) (xinters st)).

Definition ray_step (x y : float) (polygon_coords : list Point) (n : nat)
    (st : Result RayState) (i : nat) : Result RayState :=
  bind st (fun st =>
  match polygon_coords !! (i mod n)%nat with
  | None => Raise IndexError
  | Some p2 => ray_edge x y st p2
  end).

Definition point_in_polygon (x y : float) (polygon_coords : list Point) : Result bool :=
  if (length polygon_coords <? 3)%nat then Return false
  else
    match polygon_coords with
    | [] => Return false
    | first :: rest =>
        if outside_box x y first rest then Return false
        else
          let n := length polygon_coords in
          bind (fold_left (ray_step x y polygon_coords n) (seq 1 n)
                          (Return (mkRay first false None)))
               (fun st => Return (inside st))
    end.

(** The triangle (0,0), (5,3), (-5,3) and the point (1.6666666666666667, 1.0),
    whose x is the float nearest to 5/3. *)
Definition wide_triangle : list Point := [(0, 0); (5, 3); (-5, 3)].

Definition five_thirds : float := 0x1.aaaaaaaaaaaabp+0.

Definition one : float := 1.

End SpatialDoubles.

(** *** Classifier: [ChloroplethGenerator._classify_data], [_jenks_breaks] *)

Module Classifier.
Import Py.
Local Open Scope Q_scope.

Definition Qlt_bool (a b : Q) : bool := negb (Qle_bool b a).

Fixpoint insert_sorted (x : Q) (l : list Q) : list Q :=
  match l with
  | [] => [x]
  | h :: t => if Qle_bool x h then x :: l else h :: insert_sorted x t
  end.

(** [sorted(data)] *)
Definition sorted (data : list Q) : list Q := fold_right insert_sorted [] data.

(** [max(l)], [min(l)]: ValueError on an empty sequence. *)
Definition py_max (l : list Q) : Result Q :=
  match l with
  | [] => Raise ValueError
  | h :: t => Return (fold_left Qmax t h)
  end.

Definition py_min (l : list Q) : Result Q :=
  match l with
  | [] => Raise ValueError
  | h :: t => Return (fold_left Qmin t h)
  end.

(** [int(q)]: truncation towards zero. *)
Definition py_int (q : Q) : Z :=
  if Qle_bool 0 q then Qfloor q else Qceiling q.

(** [numpy.percentile(a, q)] with the default linear interpolation: the
    value at the virtual index [(n - 1) * q / 100] of the sorted array,
    interpolated between its two neighbours.  [q] outside 0..100 raises
    ValueError; an empty array raises IndexError (older releases return
    nan instead, and the [max] that follows in the caller raises). *)
Definition np_percentile (a : list Q) (q : Q) : Result Q :=
  if negb (Qle_bool 0 q && Qle_bool q 100) then Raise ValueError
  else
    let arr := sorted a in
    match arr with
    | [] => Raise IndexError
    | _ :: _ =>
        let n := Z.of_nat (length arr) in
        let virtual_index := inject_Z (n - 1) * (q / 100) in
        let previous := Qfloor virtual_index in
        let next := Z.min (previous + 1) (n - 1) in
        let gamma := virtual_index - inject_Z previous in
        let lo := nth (Z.to_nat previous) arr 0 in
        let hi := nth (Z.to_nat next) arr 0 in
        Return (lo + (hi - lo) * gamma)
    end.

(** The ["Quantile"] branch. *)
Definition quantile_breaks (sorted_data : list Q) (num_classes : Z) : Result (list Q) :=
  bind (for_each
          (fun i => np_percentile sorted_data (inject_Z i / inject_Z num_classes * 100))
          (py_range 1 num_classes 1))
       (fun breaks =>
  bind (py_max sorted_data) (fun m => Return (breaks ++ [m]))).

(** The ["Equal Interval"] branch. *)
Definition equal_interval_breaks (sorted_data : list Q) (num_classes : Z) : Result (list Q) :=
  bind (py_min sorted_data) (fun min_val =>
  bind (py_max sorted_data) (fun max_val =>
  bind (if (num_classes =? 0)%Z then Raise ZeroDivisionError
        else Return ((max_val - min_val) / inject_Z num_classes)) (fun interval =>
  Return (map (fun i => min_val + interval * inject_Z (i + 1)) (py_range 0 num_classes 1))))).

(** Body of the loop of [_jenks_breaks]. *)
Definition jenks_step (sorted_data : list Q) (num_classes : Z) (breaks : list Q) (i : Z)
    : list Q :=
  let n := Z.of_nat (length sorted_data) in
  let idx := py_int (inject_Z i / inject_Z num_classes * inject_Z n) in
  if (idx <? n)%Z then breaks ++ [nth (Z.to_nat idx) sorted_data 0] else breaks.

Definition jenks_breaks (data : list Q) (num_classes : Z) : Result (list Q) :=
  let sorted_data := sorted data in
  let breaks := fold_left (jenks_step sorted_data num_classes) (py_range 1 num_classes 1) [] in
  bind (py_max sorted_data) (fun m => Return (breaks ++ [m])).

(** [_classify_data].  The final [else] calls the function again with
    ["Quantile"], which sorts the data again and takes the first branch. *)
Definition classify_data (data : list Q) (method : string) (num_classes : Z)
    : Result (list Q) :=
  let sorted_data := sorted data in
  if String.eqb method "Quantile" then quantile_breaks sorted_data num_classes
  else if String.eqb method "Equal Interval" then equal_interval_breaks sorted_data num_classes
  else if String.eqb method "Natural Breaks (Jenks)" then jenks_breaks sorted_data num_classes
  else quantile_breaks (sorted data) num_classes.

(** The caller, [_apply_chloropleth], up to the classification:
    [valid_populations = [p for p in populations if p > 0]], an early
    return with a warning ([None]) when none is left, five classes otherwise. *)
Definition valid_populations (populations : list Q) : list Q :=
  List.filter (fun p => Qlt_bool 0 p) populations.

Definition apply_chloropleth_breaks (populations : list Q) (method : string)
    : option (Result (list Q)) :=
  match valid_populations populations with
  | [] => None
  | _ :: _ => Some (classify_data (valid_populations populations) method 5)
  end.

(** The result is a break sequence whose values are the expected numbers. *)
Definition same_breaks (r : Result (list Q)) (expected : list Q) : Prop :=
  exists breaks, r = Return breaks /\ Forall2 Qeq breaks expected.

(** The methods of the design document and the names the source gives them. *)
Inductive Method := Quantile | EqualInterval | NaturalBreaksApprox.

Definition method_name (m : Method) : string :=
  match m with
  | Quantile => "Quantile"
  | EqualInterval => "Equal Interval"
  | NaturalBreaksApprox => "Natural Breaks (Jenks)"
  end.

End Classifier.

(** *** The rest of [APIDataManager]: [__init__], [load_states_data],
    [load_data_async], the accessors *)

Module Loading.
Import Py Converter Acquisition.

Definition states_url : string :=
  "https://tigerweb.geo.census.gov/arcgis/rest/services/TIGERweb/State_County/MapServer/54/query".

(** [self.states_data = self._convert_to_geojson(api_data, 'states')] *)
Definition assign_states_data (c : FeatureCollection) (m : Manager) : Manager :=
  mkManager (Some c) (counties_data m) (counties_by_region m) (current_region m) (store m).

(** [load_states_data]: one request; an exception or an error body gives
    [False]; a body without ['features'] converts as the empty list. *)
Definition load_states_data (net : Network) (m : Manager) (tr : Trace)
    : bool * Manager * Trace :=
  let '(response, tr) := requests_get net states_url "1=1" tr in
  match response with
  | Ok api_data =>
      if has_error api_data then (false, m, tr)
      else
        (true,
         assign_states_data (convert_to_geojson (default [] (features api_data)) "states") m,
         tr)
  | _ => (false, m, tr)
  end.

(** [load_data_async]: the states first, the counties only when asked for
    and only when the states were loaded.  The lock is held throughout and
    has no effect on a single caller. *)
Definition load_data_async (net : Network) (load_counties : bool) (m : Manager)
    (tr : Trace) : bool * Manager * Trace :=
  let '(states_ok, m, tr) := load_states_data net m tr in
  if negb states_ok then (false, m, tr)
  else if load_counties then
    let '(counties_ok, m, tr) := load_counties_data net m tr in
    if negb counties_ok then (false, m, tr) else (true, m, tr)
  else (true, m, tr).

(** The manager [__init__] leaves: nothing loaded, an empty cache. *)
Definition new_manager : Manager := mkManager None None ∅ None [].

(** [is_data_loaded], [are_counties_loaded] *)
Definition is_data_loaded (m : Manager) : bool :=
  match states_data m with Some _ => true | None => false end.

Definition are_counties_loaded (m : Manager) : bool :=
  match counties_data m with Some _ => true | None => false end.

(** Body of the loop of [get_counties_in_region]: the state code is read
    and every feature is appended. *)
Definition append_regional (regional_counties : list Feature) (feature : Feature)
    : list Feature :=
  regional_counties ++ [feature].

(** [APIDataManager.get_counties_in_region]: the empty list when no
    counties are loaded, otherwise the loop over all of them. *)
Definition get_counties_in_region (region : string) (m : Manager) : list Feature :=
  match counties_of m with
  | None => []
  | Some county_features => fold_left append_regional county_features []
  end.

(** The loop of [__init__]: [self._state_to_region[state] = region] for
    every state of every region.  The sets of [REGIONS] are disjoint, so
    the order in which they are visited does not show in the result. *)
Definition state_to_region : gmap string string :=
  map_fold
    (fun (region : string) (states : gset string) (acc : gmap string string) =>
       set_fold (fun (state : string) (acc : gmap string string) => <[state := region]> acc)
                acc states)
    ∅ REGIONS.

(** [get_state_region]: [self._state_to_region.get(state_name)] *)
Definition get_state_region (state_name : Value) : option string :=
  match state_name with
  | VStr s => state_to_region !! s
  | _ => None
  end.

(** [data.data_manager.REGION_COLORS] and [get_region_color]. *)
Definition REGION_COLORS : gmap string string :=
  list_to_map
    [("West", "#FF6B6B"); ("Midwest", "#4ECDC4"); ("Northeast", "#45B7D1");
     ("Southeast", "#96CEB4"); ("Southwest", "#FECA57")].

Definition get_region_color (region : string) : string :=
  default "#CCCCCC"%string (REGION_COLORS !! region).

(** **** Vocabulary of the properties *)

(** The FIPS code a record of the states service contributes to a region:
    its STATE attribute when its NAME is one of the region's states and the
    code is non-empty and neither Puerto Rico's nor the Virgin Islands'. *)
Definition eligible_fips (region : string) (record : ArcFeature) : list Value :=
  let state_name := attr_get (attributes record) "NAME" (VStr "") in
  let fips_code := attr_get (attributes record) "STATE" (VStr "") in
  if name_in state_name (get_states_in_region region)
     && truthy fips_code && negb (excluded_fips fips_code)
  then [fips_code] else [].

(** The records of the states response, when the next request is answered
    by a body without error. *)
Definition states_records (net : Network) (tr : Trace) : list ArcFeature :=
  match net (requests_sent tr) with
  | Ok api_data => if has_error api_data then [] else default [] (features api_data)
  | _ => []
  end.

(** A collection stays what it was: every location of the first store
    still holds the same collection in the second. *)
Definition store_extends (before after : list FeatureCollection) : Prop :=
  forall (l : loc) (c : FeatureCollection), before !! l = Some c -> after !! l = Some c.

(** Nothing that was stored or cached has changed from one manager to the other. *)
Definition preserved (before after : Manager) : Prop :=
  store_extends (store before) (store after)
  /\ forall (region : string) (c : FeatureCollection),
       cached before region = Some c -> cached after region = Some c.

End Loading.

(** *** Region hit test: [RegionalPopulationViewer._point_in_state],
    [_find_clicked_region] *)

Module HitTest.
Import Py Converter Loading SpatialIndex.
Local Open Scope Q_scope.

(** A GeoJSON geometry as the hit test reads it, with rational coordinates. *)
Inductive Shape :=
| PolygonShape (coordinates : list (list Point))
| MultiPolygonShape (coordinates : list (list (list Point))).


(** The loop over the polygons of a MultiPolygon: [polygon_coords[0]] is
    the exterior ring; rings of fewer than 100 points are skipped; the
    first ring containing the point ends the loop. *)
Fixpoint point_in_major_polygon (x y : Q) (polygons : list (list (list Point)))
    : Result bool :=
  match polygons with
  | [] => Return false
  | polygon_coords :: rest =>
      match polygon_coords with
      | [] => Raise IndexError
      | coords :: _ =>
          if (100 <=? length coords)%nat then
            bind (point_in_polygon x y coords)
                 (fun found => if found then Return true
                               else point_in_major_polygon x y rest)
          else point_in_major_polygon x y rest
      end
  end.

(** [_point_in_state]; [geometry['coordinates'][0]] raises IndexError on a
    Polygon without rings. *)
Definition point_in_state (x y : Q) (geometry : Shape) : Result bool :=
  match geometry with
  | PolygonShape coordinates =>
      match coordinates with
      | [] => Raise IndexError
      | exterior :: _ => point_in_polygon x y exterior
      end
  | MultiPolygonShape coordinates => point_in_major_polygon x y coordinates
  end.


(** [state_name in ['Alaska', 'Hawaii']] *)
Definition non_contiguous (state_name : Value) : bool :=
  existsb (value_eqb state_name) [VStr "Alaska"; VStr "Hawaii"].


(** **** Vocabulary of the properties *)

(** A polygon of a MultiPolygon counts for the hit test when its exterior
    ring has at least 100 points and the parity rule puts the point inside. *)
Definition major_hit (x y : Q) (polygon_coords : list (list Point)) : bool :=
  match polygon_coords with
  | [] => false
  | coords :: _ => (100 <=? length coords)%nat && ray_cast toggles x y coords
  end.

(** The edges along a sequence of points, from each point to the next. *)
Definition segments (points : list Point) : list (Point * Point) :=
  match points with
  | [] => []
  | a :: l => edges_from a l
  end.

End HitTest.

(** *** Class lookup and legend: [ChloroplethGenerator._get_class_index],
    [_add_legend], the colouring loop of [_apply_chloropleth] *)

Module Choropleth.
Import Py Classifier.
Local Open Scope Q_scope.

(** The loop of [_get_class_index] from index [i] on: the index of the
    first break the value does not exceed. *)
Fixpoint first_class (i : Z) (value : Q) (breaks : list Q) : option Z :=
  match breaks with
  | [] => None
  | break_val :: rest =>
      if Qle_bool value break_val then Some i else first_class (i + 1) value rest
  end.

(** [_get_class_index]: [len(breaks) - 1] when the loop finds nothing. *)
Definition get_class_index (value : Q) (breaks : list Q) : Z :=
  default (Z.of_nat (length breaks) - 1)%Z (first_class 0 value breaks).

(** The colouring loop of [_apply_chloropleth] for one patch: no class
    (the grey of "No Data") for a population that is not positive. *)
Definition patch_class (population : Q) (breaks : list Q) : option Z :=
  if Qle_bool population 0 then None else Some (get_class_index population breaks).

(** [l[i]] with Python's negative indices. *)
Definition py_index (l : list Q) (i : Z) : Result Q :=
  let n := Z.of_nat (length l) in
  if ((0 <=? i) && (i <? n))%Z then Return (nth (Z.to_nat i) l 0)
  else if ((- n <=? i) && (i <? 0))%Z then Return (nth (Z.to_nat (n + i)) l 0)
  else Raise IndexError.

(** Body of the loop of [_add_legend]: the bounds [int(lower)], [int(upper)]
    of the label of class [i]; the state is [prev_break] and the labels so far. *)
Definition legend_step (breaks : list Q) (st : Result (Q * list (Z * Z))) (i : Z)
    : Result (Q * list (Z * Z)) :=
  bind st (fun st =>
  bind (if (i =? 0)%Z then Return (fst st) else py_index breaks (i - 1)) (fun lower =>
  bind (py_index breaks i) (fun upper =>
  bind (py_index breaks i) (fun prev_break =>
  Return (prev_break, snd st ++ [(py_int lower, py_int upper)]))))).

Definition legend_labels (breaks : list Q) (num_classes : Z) : Result (list (Z * Z)) :=
  bind (fold_left (legend_step breaks) (py_range 0 num_classes 1) (Return (0, [])))
       (fun st => Return (snd st)).

(** **** Vocabulary of the properties *)

(** A sequence of breaks is non-decreasing. *)
Definition non_decreasing (breaks : list Q) : Prop :=
  forall (i j : nat) (a b : Q),
    (i <= j)%nat -> breaks !! i = Some a -> breaks !! j = Some b -> a <= b.

(** [b] is the greatest of the values. *)
Definition is_maximum (b : Q) (values : list Q) : Prop :=
  (forall v, In v values -> v <= b) /\ exists v, In v values /\ v == b.

(** The value of a sorted array at the virtual index [h], interpolated
    linearly between its two neighbours. *)
Definition interpolate (arr : list Q) (h : Q) : Q :=
  let previous := Qfloor h in
  let next := Z.min (previous + 1) (Z.of_nat (length arr) - 1) in
  let lo := nth (Z.to_nat previous) arr 0 in
  let hi := nth (Z.to_nat next) arr 0 in
  lo + (hi - lo) * (h - inject_Z previous).

(** The bounds of the legend label of class [i]. *)
Definition class_label (breaks : list Q) (i : nat) : Z * Z :=
  (py_int (match i with O => 0 | S i' => nth i' breaks 0 end), py_int (nth i breaks 0)).

End Choropleth.

(** *** County drawing: [ChloroplethGenerator._draw_initial_counties] *)
Module Drawing.
Import Converter.

(** An entry of [self.counties_data]. *)
Record CountyRecord := mkCountyRecord {
  county_name : Value;
  population : Value;
  county_geometry : Geometry;
  state_fips : Value
}.

(** A polygon patch with the [county_data] attached to it.  The axes it is
    added to are left out.  A patch is built from a ring with at least one
    point: matplotlib's [Polygon] does not take an empty array. *)
Record Patch := mkPatch {
  outline : Ring;
  patch_name : Value;
  patch_population : Value
}.

(** Body of [for polygon_coords in geometry.get('coordinates', [])]: an
    empty polygon is skipped, otherwise its exterior ring is drawn. *)
Definition append_patch (name population : Value) (patches : list Patch)
    (polygon_coords : list Ring) : list Patch :=
  match polygon_coords with
  | [] => patches
  | coords :: _ => patches ++ [mkPatch coords name population]
  end.

(** Body of the loop of [_draw_initial_counties]: the county is recorded
    for the classification and its polygons are appended to the patches. *)
Definition draw_county (st : list CountyRecord * list Patch) (county : Feature)
    : list CountyRecord * list Patch :=
  let name := attr_get (properties county) "NAME" (VStr "Unknown") in
  let population := attr_get (properties county) "POP100" (VNum 0) in
  let state_fips := attr_get (properties county) "STATE" (VStr "") in
  let counties_data :=
    fst st ++ [mkCountyRecord name population (geometry county) state_fips] in
  let county_patches :=
    match geometry county with
    | Polygon coordinates =>
        match coordinates with
        | [] => snd st
        | coords :: _ => snd st ++ [mkPatch coords name population]
        end
    | MultiPolygon coordinates => fold_left (append_patch name population) coordinates (snd st)
    end in
  (counties_data, county_patches).

(** [_draw_initial_counties], the data it leaves in [self.counties_data]
    and [self.county_patches]. *)
Definition draw_initial_counties (counties : list Feature) : list CountyRecord * list Patch :=
  fold_left draw_county counties ([], []).

(** **** Vocabulary of the properties *)

(** The rings of a record that reach the map: the only ring of a record
    with one ring, otherwise the rings of at least four points; projected. *)
Definition drawn_rings (arcgis_rings : option (list Ring)) : list Ring :=
  match arcgis_rings with
  | None => []
  | Some rings =>
      if (length rings =? 1)%nat then map convert_ring rings
      else List.filter (fun ring => (4 <=? length ring)%nat) (map convert_ring rings)
  end.

(** The patches of a record: one per drawn ring, with the record's name
    and population. *)
Definition patches_of_record (record : ArcFeature) : list Patch :=
  map (fun ring => mkPatch ring (attr_get (attributes record) "NAME" (VStr ""))
                           (attr_get (attributes record) "POP100" (VNum 0)))
      (drawn_rings (arc_rings record)).

End Drawing.

(** *** Classification of the drawn counties:
    [ChloroplethGenerator._apply_chloropleth] up to the call of [_classify_data] *)
Module Symbology.
Import Py Converter Drawing.

(** [[p for p in populations if p > 0]] on the populations as the service
    sent them: a number is compared with 0; on a string or [None] the
    comparison raises TypeError ([None] here). *)
Fixpoint valid_populations (populations : list Value) : option (list Q) :=
  match populations with
  | [] => Some []
  | VNum p :: rest =>
      match valid_populations rest with
      | Some valid => Some (if (0 <? p)%Z then inject_Z p :: valid else valid)
      | None => None
      end
  | _ :: _ => None
  end.

(** What the call comes to: a warning box and an early return, the
    TypeError of the comparison, or the call of [_classify_data] with its
    outcome. *)
Inductive Applied :=
| NoDataWarning (message : string)
| PopulationTypeError
| Classified (breaks : Result (list Q)).

(** [_apply_chloropleth] up to [breaks = self._classify_data(valid_populations,
    method, num_classes)] with [num_classes = 5]. *)
Definition apply_chloropleth (counties_data : list CountyRecord)
    (county_patches : list Patch) (method : string) : Applied :=
  match counties_data, county_patches with
  | [], _ | _, [] => NoDataWarning "Please load county data first"
  | _ :: _, _ :: _ =>
      match valid_populations (map population counties_data) with
      | None => PopulationTypeError
      | Some [] => NoDataWarning "No valid population data found"
      | Some (p :: valid) => Classified (Classifier.classify_data (p :: valid) method 5)
      end
  end.

End Symbology.

(** *** Files: [data_manager.DataManager.get_counties_in_region] *)
Module FileData.
Import Converter Acquisition.

(** A feature of a loaded file: its ['attributes'] and its ['properties'],
    each possibly absent. *)
Record FileFeature := mkFileFeature {
  file_attributes : option (gmap string Value);
  file_properties : option (gmap string Value)
}.

(** Body of the loop: ['attributes'] is read before ['properties']; a
    feature with neither is skipped; [.get('STATE_NAME')] of an absent key
    is [None], which is in no set. *)
Definition append_if_in_region (region_states : gset string)
    (region_counties : list FileFeature) (feature : FileFeature) : list FileFeature :=
  match file_attributes feature with
  | Some attrs =>
      if name_in (attr_get attrs "STATE_NAME" VNull) region_states
      then region_counties ++ [feature] else region_counties
  | None =>
      match file_properties feature with
      | Some props =>
          if name_in (attr_get props "STATE_NAME" VNull) region_states
          then region_counties ++ [feature] else region_counties
      | None => region_counties
      end
  end.

(** [DataManager.get_counties_in_region]; [counties_data] is [None] or
    the loaded collection. *)
Definition get_counties_in_region (region : string)
    (counties_data : option (list FileFeature)) : list FileFeature :=
  match counties_data with
  | None => []
  | Some features =>
      fold_left (append_if_in_region (get_states_in_region region)) features []
  end.

(** **** Vocabulary of the properties *)

(** The state name the filter reads from a feature. *)
Definition state_name_read (feature : FileFeature) : option Value :=
  match file_attributes feature with
  | Some attrs => attrs !! "STATE_NAME"
  | None => file_properties feature ≫= (fun props => props !! "STATE_NAME")
  end.

End FileData.

(** *** Label placement: [RegionalPopulationViewer._calculate_polygon_centroid],
    [_get_state_centroid] *)
Module Centroid.
Import Py SpatialIndex HitTest.
Local Open Scope Q_scope.

(** The accumulators [area], [cx], [cy] of the shoelace loop. *)
Record Sums := mkSums {
  area : Q;
  cx : Q;
  cy : Q
}.

(** Body of [for i in range(len(x) - 1)]. *)
Definition shoelace_step (x y : list Q) (s : Sums) (i : nat) : Sums :=
  let cross := nth i x 0 * nth (S i) y 0 - nth (S i) x 0 * nth i y 0 in
  mkSums (area s + cross)
         (cx s + (nth i x 0 + nth (S i) x 0) * cross)
         (cy s + (nth i y 0 + nth (S i) y 0) * cross).

(** [numpy.mean] of a non-empty array. *)
Definition np_mean (l : list Q) : Q :=
  fold_left Qplus l 0 / inject_Z (Z.of_nat (length l)).

(** [_calculate_polygon_centroid].  With exact arithmetic nothing in the
    [try] block raises, so the [except] branches are never entered. *)
Definition calculate_polygon_centroid (coords : list Point) : option Point :=
  if (length coords <? 3)%nat then None
  else
    let x := map fst coords in
    let y := map snd coords in
    let closed := Qeq_bool (nth 0 x 0) (List.last x 0) && Qeq_bool (nth 0 y 0) (List.last y 0) in
    let x' := if closed then x else x ++ [nth 0 x 0] in
    let y' := if closed then y else y ++ [nth 0 y 0] in
    let s := fold_left (shoelace_step x' y') (seq 0 (length x' - 1)) (mkSums 0 0 0) in
    let half := area s / 2 in
    if Qlt_bool (Qabs half) (1 # 10000000000) then
      Some (np_mean (map fst coords), np_mean (map snd coords))
    else Some (cx s / (6 * half), cy s / (6 * half)).

(** [a[i]] for an index from [-len(a)] to [len(a) - 1]. *)
Definition item (a : list Q) (i : Z) : Q :=
  if (i <? 0)%Z then nth (Z.to_nat (Z.of_nat (length a) + i)) a 0 else nth (Z.to_nat i) a 0.

(** [0.5 * abs(sum(x[i] * y[i + 1] - x[i + 1] * y[i] for i in range(-1, len(x) - 1)))] *)
Definition approximate_area (coords : list Point) : Q :=
  let x := map fst coords in
  let y := map snd coords in
  (1 # 2) * Qabs (fold_left Qplus
                    (map (fun i => item x i * item y (i + 1) - item x (i + 1) * item y i)
                         (py_range (-1) (Z.of_nat (length x) - 1) 1))
                    0).

(** Body of the loop over the polygons of a MultiPolygon; the state is
    [largest_polygon] and [max_area]. *)
Definition largest_step (st : Result (option (list Point) * Q))
    (polygon_coords : list (list Point)) : Result (option (list Point) * Q) :=
  bind st (fun st =>
  match polygon_coords with
  | [] => Raise IndexError
  | coords :: _ =>
      if (length coords <? 3)%nat then Return st
      else if Qlt_bool (snd st) (approximate_area coords)
           then Return (Some coords, approximate_area coords)
           else Return st
  end).

(** [_get_state_centroid] *)
Definition get_state_centroid (geometry : Shape) : Result (option Point) :=
  match geometry with
  | PolygonShape coordinates =>
      match coordinates with
      | [] => Raise IndexError
      | exterior :: _ => Return (calculate_polygon_centroid exterior)
      end
  | MultiPolygonShape coordinates =>
      bind (fold_left largest_step coordinates (Return (None, 0))) (fun st =>
      match fst st with
      | Some largest_polygon => Return (calculate_polygon_centroid largest_polygon)
      | None => Return None
      end)
  end.

(** **** Vocabulary of the properties *)

Definition translate (t u : Q) (p : Point) : Point := (fst p + t, snd p + u).

(** The accumulators after the edge from [a] to [b]. *)
Definition add_edge (s : Sums) (e : Point * Point) : Sums :=
  let cross := fst (fst e) * snd (snd e) - fst (snd e) * snd (fst e) in
  mkSums (area s + cross)
         (cx s + (fst (fst e) + fst (snd e)) * cross)
         (cy s + (snd (fst e) + snd (snd e)) * cross).

(** The ring as the loop walks it: closed by its first point unless it
    already ends there. *)
Definition closed_ring (first : Point) (rest : list Point) : list Point :=
  if Qeq_bool (fst first) (fst (List.last rest first))
     && Qeq_bool (snd first) (snd (List.last rest first))
  then rest else rest ++ [first].

(** The exterior ring of a polygon, when it has at least three points. *)
Definition candidate (polygon_coords : list (list Point)) : option (list Point) :=
  match polygon_coords with
  | coords :: _ => if (length coords <? 3)%nat then None else Some coords
  | [] => None
  end.

End Centroid.

(** *** State names and abbreviations:
    [geometry_query_params.us_states_abbreviations] *)
Module Abbreviations.
Import Converter.

(** [US_ABBREVIATIONS_STATES = {v: k for k, v in US_STATES_ABBREVIATIONS.items()}].
    No abbreviation occurs twice in the table, so the order in which the
    items are visited does not show in the result. *)
Definition US_ABBREVIATIONS_STATES : gmap string string :=
  map_fold (fun (k v : string) (acc : gmap string string) => <[v := k]> acc)
           ∅ US_STATES_ABBREVIATIONS.

(** [str.upper()] on ASCII text. *)
Definition upper_char (c : Ascii.ascii) : Ascii.ascii :=
  let n := Ascii.nat_of_ascii c in
  if ((97 <=? n) && (n <=? 122))%nat then Ascii.ascii_of_nat (n - 32) else c.

Fixpoint upper (s : string) : string :=
  match s with
  | EmptyString => EmptyString
  | String c s' => String (upper_char c) (upper s')
  end.

(** [get_state_name]: [US_ABBREVIATIONS_STATES.get(abbreviation.upper(), '')] *)
Definition get_state_name (abbreviation : string) : string :=
  default ""%string (US_ABBREVIATIONS_STATES !! upper abbreviation).

(** [is_valid_state]: [state_name in US_STATES_ABBREVIATIONS] *)
Definition is_valid_state (state_name : string) : bool :=
  bool_decide (is_Some (US_STATES_ABBREVIATIONS !! state_name)).

(** [is_valid_abbreviation]: [abbreviation.upper() in US_ABBREVIATIONS_STATES] *)
Definition is_valid_abbreviation (abbreviation : string) : bool :=
  bool_decide (is_Some (US_ABBREVIATIONS_STATES !! upper abbreviation)).

End Abbreviations.

(** ** Part II: the properties *)

(** *** GeometryProjector *)

Module ProjectorProps.
Import Projector.
Local Open Scope R_scope.
















End ProjectorProps.

(** *** FeatureConverter *)

Module ConverterProps.
Import Converter.

Lemma converted_rings_map (rings acc : list Ring) :
  fold_left append_converted rings acc = acc ++ map convert_ring rings.
Proof.
  revert acc. induction rings as [|r rings IH]; intros acc; simpl.
  - now rewrite app_nil_r.
  - rewrite IH. unfold append_converted. now rewrite <- app_assoc.
Qed.

Lemma valid_polygons_filter (converted : list Ring) (polygons : list (list Ring)) :
  fold_left append_valid converted polygons =
  polygons ++ map (fun ring => [ring]) (List.filter (fun ring => (4 <=? length ring)%nat) converted).
Proof.
  revert polygons. induction converted as [|r converted IH]; intros polygons.
  - cbn. now rewrite app_nil_r.
  - cbn [fold_left List.filter]. rewrite IH. unfold append_valid.
    destruct (4 <=? length r)%nat; cbn [map]; [now rewrite <- app_assoc | reflexivity].
Qed.

(** C8 (amended).  Missing geometry becomes an empty Polygon.  A record
    with exactly one ring becomes a Polygon with that ring, whatever its
    length.  Otherwise the rings with fewer than four points are dropped;
    if exactly one ring is left it is emitted as a Polygon with that ring,
    and in every other case a MultiPolygon holds each remaining ring as a
    single-ring polygon. *)
Theorem ring_to_geometry_policy (rings : list Ring) :
  convert_arcgis_geometry_to_geojson None = Polygon []
  /\ convert_arcgis_geometry_to_geojson (Some rings) =
       if (length rings =? 1)%nat then Polygon (map convert_ring rings)
       else
         match List.filter (fun ring => (4 <=? length ring)%nat) (map convert_ring rings) with
         | [ring] => Polygon [ring]
         | kept => MultiPolygon (map (fun ring => [ring]) kept)
         end.
Proof.
  split; [reflexivity|].
  unfold convert_arcgis_geometry_to_geojson.
  rewrite converted_rings_map. cbn [app]. rewrite length_map.
  destruct (length rings =? 1)%nat; [reflexivity|].
  rewrite (valid_polygons_filter _ []). cbn [app].
  match goal with
  | |- context [List.filter ?f ?l] => destruct (List.filter f l) as [|r1 [|r2 kept]]
  end; reflexivity.
Qed.

(** C8 as stated fails: a record with two rings, one of them degenerate,
    is emitted as a Polygon, not as a MultiPolygon. *)
Lemma two_rings_emitted_as_polygon :
  length [closed_square; sliver] = 2%nat
  /\ convert_arcgis_geometry_to_geojson (Some [closed_square; sliver])
     = Polygon [convert_ring closed_square]
  /\ is_MultiPolygon (convert_arcgis_geometry_to_geojson (Some [closed_square; sliver]))
     = false.
Proof. repeat split. Qed.

End ConverterProps.

(** *** AcquisitionClient: the batches of the numeric-ID strategy *)

Module BatchProps.
Import Py Acquisition.
Local Open Scope Z_scope.

Lemma py_range_lookup (start stop step : Z) (i : nat) (v : Z) :
  py_range start stop step !! i = Some v <->
  v = start + step * Z.of_nat i /\ (i < Z.to_nat ((stop - start + step - 1) / step))%nat.
Proof.
  unfold py_range.
  change (map ?f ?l) with (f <$> l).
  rewrite list_lookup_fmap.
  destruct (seq 0 (Z.to_nat ((stop - start + step - 1) / step)) !! i) as [k|] eqn:Hk; cbn.
  - apply lookup_seq in Hk as [-> Hlt]. cbn. split.
    + intros [= <-]. split; [reflexivity | assumption].
    + intros [-> _]. reflexivity.
  - split; [discriminate|]. intros [_ Hlt].
    rewrite lookup_seq_lt in Hk by assumption. discriminate.
Qed.

Lemma batch_count (total : Z) (i : nat) :
  (i < Z.to_nat ((total + 1 - 1 + batch_size - 1) / batch_size))%nat <->
  1 + 150 * Z.of_nat i <= total.
Proof.
  unfold batch_size.
  replace (total + 1 - 1 + 150 - 1) with (total + 149) by lia.
  pose proof (Z.div_mod (total + 149) 150 ltac:(lia)) as Hdm.
  pose proof (Z.mod_pos_bound (total + 149) 150 ltac:(lia)) as Hmod.
  split; intros H; lia.
Qed.

(** The i-th batch is [1 + 150 i, min (150 (i + 1)) total], and there is
    one for every i whose start does not exceed [total]. *)
Lemma batch_ranges_lookup (total : Z) (i : nat) (a b : Z) :
  batch_ranges total !! i = Some (a, b) <->
  1 + 150 * Z.of_nat i <= total /\ a = 1 + 150 * Z.of_nat i /\ b = Z.min (a + 149) total.
Proof.
  unfold batch_ranges.
  change (map ?f ?l) with (f <$> l).
  rewrite list_lookup_fmap.
  destruct (py_range 1 (total + 1) batch_size !! i) as [s|] eqn:Hs; cbn.
  - apply py_range_lookup in Hs as [-> Hlt]. apply batch_count in Hlt.
    unfold batch_size. split.
    + intros [= <- <-]. repeat split; [assumption | f_equal; lia].
    + intros (_ & -> & ->). do 2 f_equal. lia.
  - split; [discriminate|]. intros (Hle & _ & _).
    apply batch_count in Hle.
    assert (Hsome : py_range 1 (total + 1) batch_size !! i = Some (1 + batch_size * Z.of_nat i)).
    { apply py_range_lookup. split; [reflexivity | assumption]. }
    congruence.
Qed.

Lemma batch_ranges_length (total : Z) :
  length (batch_ranges total) = Z.to_nat ((total + 149) / 150).
Proof.
  unfold batch_ranges, py_range, batch_size.
  rewrite !length_map, length_seq. f_equal. f_equal. lia.
Qed.

(** C2.  For a count of at least one record the OBJECTID ranges are
    consecutive blocks of 150 starting at 1, the last one cut at the count:
    every range lies in [1, total], each range starts right after the
    previous one, which is full, the last range ends at total, and every
    ID of [1, total] lies in exactly one range.  For 320 records the
    ranges are [1,150], [151,300], [301,320]. *)
Theorem batch_ranges_partition (total : Z) (Htotal : 1 <= total) :
  batch_ranges 320 = [(1, 150); (151, 300); (301, 320)]
  /\ (forall (i : nat) (a b : Z), batch_ranges total !! i = Some (a, b) ->
        a = 1 + batch_size * Z.of_nat i /\ b = Z.min (a + batch_size - 1) total
        /\ 1 <= a <= b /\ b <= total)
  /\ (forall (i : nat) (a b a' b' : Z),
        batch_ranges total !! i = Some (a, b) ->
        batch_ranges total !! S i = Some (a', b') ->
        a' = b + 1 /\ b - a + 1 = batch_size)
  /\ (exists a : Z, last (batch_ranges total) = Some (a, total))
  /\ (forall id : Z, 1 <= id <= total ->
        exists (i : nat) (a b : Z),
          batch_ranges total !! i = Some (a, b) /\ a <= id <= b
          /\ forall (j : nat) (a' b' : Z),
               batch_ranges total !! j = Some (a', b') -> a' <= id <= b' -> j = i).
Proof.
  unfold batch_size.
  split; [reflexivity|]. split; [|split; [|split]].
  - intros i a b H. apply batch_ranges_lookup in H as (Hle & -> & ->). lia.
  - intros i a b a' b' H H'.
    apply batch_ranges_lookup in H as (Hle & -> & ->).
    apply batch_ranges_lookup in H' as (Hle' & -> & ->). lia.
  - rewrite last_lookup, batch_ranges_length.
    pose proof (Z.div_mod (total + 149) 150 ltac:(lia)) as Hdm.
    pose proof (Z.mod_pos_bound (total + 149) 150 ltac:(lia)) as Hmod.
    exists (1 + 150 * Z.of_nat (Nat.pred (Z.to_nat ((total + 149) / 150)))).
    apply batch_ranges_lookup. lia.
  - intros id Hid.
    pose proof (Z.div_mod (id - 1) 150 ltac:(lia)) as Hdm.
    pose proof (Z.mod_pos_bound (id - 1) 150 ltac:(lia)) as Hmod.
    exists (Z.to_nat ((id - 1) / 150)), (1 + 150 * Z.of_nat (Z.to_nat ((id - 1) / 150))),
      (Z.min (1 + 150 * Z.of_nat (Z.to_nat ((id - 1) / 150)) + 149) total).
    split; [apply batch_ranges_lookup; lia|]. split; [lia|].
    intros j a' b' Hj Hin. apply batch_ranges_lookup in Hj as (Hle & -> & ->). lia.
Qed.

Lemma batch_ranges_partition_witness :
  exists a : Z, last (batch_ranges 320) = Some (a, 320).
Proof.
  assert (H : 1 <= 320) by lia.
  exact (proj1 (proj2 (proj2 (proj2 (batch_ranges_partition 320 H))))).
Defined.

End BatchProps.

(** *** SpatialIndex *)

Module SpatialIndexProps.
Import Py SpatialIndex.
Local Open Scope Q_scope.

Lemma Qlt_bool_iff (a b : Q) : Qlt_bool a b = true <-> a < b.
Proof.
  unfold Qlt_bool. rewrite negb_true_iff.
  split.
  - intros H. apply Qnot_le_lt. intros Hle. apply Qle_bool_iff in Hle. congruence.
  - intros H. destruct (Qle_bool b a) eqn:E; [|reflexivity].
    apply Qle_bool_iff in E. exfalso. exact (Qlt_not_le _ _ H E).
Qed.

(** No y is above the lower and at or below the upper end of a horizontal
    edge: the intersection is always assigned before it is read. *)
Lemma horizontal_edge_skipped (a b y : Q) :
  Qeq_bool a b = true -> Qlt_bool (Qmin a b) y = true ->
  Qle_bool y (Qmax a b) = true -> False.
Proof.
  intros Heq Hlo Hhi.
  apply Qeq_bool_iff in Heq. apply Qlt_bool_iff in Hlo. apply Qle_bool_iff in Hhi.
  destruct (Q.min_spec a b) as [[? Hmin]|[? Hmin]];
    destruct (Q.max_spec a b) as [[? Hmax]|[? Hmax]];
    rewrite Hmin in Hlo; rewrite Hmax in Hhi; Lqa.lra.
Qed.

(** One pass of the loop body toggles exactly on the edge rule, and
    never reads an unbound intersection. *)
Lemma ray_edge_toggles (x y : Q) (st : RayState) (p2 : Point) :
  exists xi, ray_edge x y st p2 =
             Return (mkRay p2 (xorb (inside st) (toggles x y (p1 st, p2))) xi).
Proof.
  destruct st as [[p1x p1y] ins xi0], p2 as [p2x p2y].
  unfold ray_edge, toggles. cbn [p1 inside xinters fst snd].
  destruct (Qlt_bool (Qmin p1y p2y) y) eqn:Hlo; cbn [andb];
    [|eexists; rewrite xorb_false_r; reflexivity].
  destruct (Qle_bool y (Qmax p1y p2y)) eqn:Hhi; cbn [andb];
    [|eexists; rewrite xorb_false_r; reflexivity].
  destruct (Qle_bool x (Qmax p1x p2x)) eqn:Hx; cbn [andb];
    [|eexists; rewrite xorb_false_r; reflexivity].
  destruct (Qeq_bool p1y p2y) eqn:Hflat.
  { exfalso. exact (horizontal_edge_skipped _ _ _ Hflat Hlo Hhi). }
  cbn [negb].
  destruct (Qeq_bool p1x p2x) eqn:Hvert; cbn [orb].
  { eexists. rewrite xorb_true_r. reflexivity. }
  destruct (Qle_bool x (x_intersection y (p1x, p1y) (p2x, p2y))); eexists;
    [rewrite xorb_true_r | rewrite xorb_false_r]; reflexivity.
Qed.

Lemma edge_walk (x y : Q) (pts : list Point) (st : RayState) :
  exists st',
    fold_left (fun r p => bind r (fun s => ray_edge x y s p)) pts (Return st) = Return st'
    /\ inside st' =
       xorb (inside st) (Nat.odd (length (List.filter (toggles x y) (edges_from (p1 st) pts)))).
Proof.
  revert st. induction pts as [|p pts IH]; intros st.
  - exists st. split; [reflexivity|]. cbn. now rewrite xorb_false_r.
  - cbn [fold_left bind edges_from List.filter].
    destruct (ray_edge_toggles x y st p) as [xi ->].
    destruct (IH (mkRay p (xorb (inside st) (toggles x y (p1 st, p))) xi)) as (st' & -> & Hin).
    exists st'. split; [reflexivity|]. rewrite Hin. cbn [p1 inside].
    destruct (toggles x y (p1 st, p)); cbn [length].
    + rewrite Nat.odd_succ, <- Nat.negb_odd.
      destruct (inside st), (Nat.odd _); reflexivity.
    + now rewrite xorb_false_r.
Qed.

(** Reading [polygon_coords[i % n]] for i = 1..n visits the vertices after
    the first and then the first again. *)
Lemma wrapped_indices (first : Point) (rest : list Point) :
  Forall2 (fun (i : nat) p => (first :: rest) !! (i mod length (first :: rest))%nat = Some p)
          (seq 1 (length (first :: rest))) (rest ++ [first]).
Proof.
  apply Forall2_same_length_lookup_2.
  - rewrite length_seq, length_app. cbn. lia.
  - intros k i p Hi Hp. apply lookup_seq in Hi as [-> Hk]. cbn [length] in *.
    destruct (decide (k < length rest)%nat) as [Hlt|Hge].
    + rewrite Nat.mod_small by lia.
      rewrite lookup_app_l in Hp by assumption. exact Hp.
    + assert (k = length rest) as -> by lia.
      replace (1 + length rest)%nat with (S (length rest)) by lia.
      rewrite Nat.Div0.mod_same.
      rewrite lookup_app_r, Nat.sub_diag in Hp by lia. exact Hp.
Qed.

Lemma indexed_walk (x y : Q) (ring : list Point) (n : nat) (idxs : list nat)
    (pts : list Point) (r : Result RayState) :
  Forall2 (fun (i : nat) p => ring !! (i mod n)%nat = Some p) idxs pts ->
  fold_left (ray_step x y ring n) idxs r =
  fold_left (fun r p => bind r (fun s => ray_edge x y s p)) pts r.
Proof.
  intros H. revert r. induction H as [|i p idxs pts Hi _ IH]; intros r; [reflexivity|].
  cbn [fold_left]. rewrite <- IH. f_equal.
  unfold ray_step. destruct r; cbn [bind]; [now rewrite Hi | reflexivity].
Qed.

Lemma edges_walk (a z : Point) (rest : list Point) :
  combine (a :: rest) (rest ++ [z]) = edges_from a (rest ++ [z]).
Proof.
  revert a. induction rest as [|b rest IH]; intros a; [reflexivity|].
  cbn [app combine edges_from]. f_equal. apply IH.
Qed.

(** C3 (amended).  After the point-count and bounding-box tests the
    function toggles once for every edge, the closing edge from the last
    vertex to the first included, such that the point's y is above the
    lower and at or below the upper y of the edge, its x is at or left of
    the edge's greater x, and the edge is vertical or x is at or left of
    the intersection; the point is inside iff the number of toggles is
    odd, and the function never raises.  On the square ring, (5,5) is
    inside, (15,15) is outside and the boundary point (0,5) is outside. *)
Theorem point_in_polygon_parity (x y : Q) (ring : list Point) :
  point_in_polygon x y ring = Return (ray_cast toggles x y ring)
  /\ point_in_polygon 5 5 square = Return true
  /\ point_in_polygon 15 15 square = Return false
  /\ point_in_polygon 0 5 square = Return false.
Proof.
  split; [|repeat split; vm_compute; reflexivity].
  unfold point_in_polygon, ray_cast.
  destruct ring as [|first rest]; [reflexivity|].
  destruct (length (first :: rest) <? 3)%nat eqn:Hlen.
  - apply Nat.ltb_lt in Hlen.
    destruct (3 <=? length (first :: rest))%nat eqn:Hge; [|reflexivity].
    apply Nat.leb_le in Hge. lia.
  - apply Nat.ltb_ge in Hlen.
    assert (Hge : (3 <=? length (first :: rest))%nat = true) by (apply Nat.leb_le; exact Hlen).
    rewrite Hge. cbn [andb].
    destruct (outside_box x y first rest); [reflexivity|]. cbn [negb andb].
    rewrite (indexed_walk x y _ _ _ _ _ (wrapped_indices first rest)).
    destruct (edge_walk x y (rest ++ [first]) (mkRay first false None)) as (st' & -> & Hin).
    cbn [bind]. rewrite Hin. cbn [inside p1 xorb edges].
    now rewrite edges_walk.
Qed.

(** C3 as stated fails.  At the height of the upper vertices, (5,10), no
    edge has y strictly between its y-extremes, so the documented rule
    counts no toggle, yet the function answers inside; and with vertical
    edges toggling whenever the y-test passes, the documented rule counts
    two toggles at (5,5), which the function reports inside. *)
Lemma upper_end_of_edge_counts :
  point_in_polygon 5 10 square = Return true
  /\ ray_cast documented_toggles 5 10 square = false
  /\ ray_cast documented_toggles_by_intersection 5 10 square = false
  /\ point_in_polygon 5 5 square = Return true
  /\ ray_cast documented_toggles 5 5 square = false.
Proof. repeat split; vm_compute; reflexivity. Qed.

End SpatialIndexProps.

(** *** Classifier *)

Module ClassifierProps.
Import Py Classifier.
Local Open Scope Q_scope.

Lemma for_each_returns {A B : Type} (f : A -> Result B) (l : list A) :
  (forall a, In a l -> returns (f a) = true) ->
  exists bs, for_each f l = Return bs /\ Forall2 (fun a b => f a = Return b) l bs.
Proof.
  induction l as [|a l IH]; intros H.
  - exists []. split; [reflexivity | constructor].
  - destruct (f a) as [b|e] eqn:Hfa.
    + destruct IH as (bs & Hbs & Hall); [intros; apply H; now right|].
      exists (b :: bs). cbn [for_each]. rewrite Hfa, Hbs. cbn [bind].
      split; [reflexivity | constructor; assumption].
    + specialize (H a (or_introl eq_refl)). rewrite Hfa in H. discriminate.
Qed.

Lemma insert_sorted_In (v x : Q) (l : list Q) :
  In v (insert_sorted x l) <-> v = x \/ In v l.
Proof.
  induction l as [|h t IH]; cbn [insert_sorted].
  - cbn [In]. intuition congruence.
  - destruct (Qle_bool x h); cbn [In]; [|rewrite IH]; intuition congruence.
Qed.

Lemma sorted_In (v : Q) (data : list Q) : In v (sorted data) <-> In v data.
Proof.
  induction data as [|x data IH]; [reflexivity|].
  cbn [sorted fold_right In]. fold (sorted data).
  rewrite insert_sorted_In, IH. split; intros [H|H]; auto.
Qed.

Lemma insert_sorted_length (x : Q) (l : list Q) :
  length (insert_sorted x l) = S (length l).
Proof.
  induction l as [|h t IH]; cbn [insert_sorted]; [reflexivity|].
  destruct (Qle_bool x h); cbn [length]; [reflexivity | now rewrite IH].
Qed.

Lemma sorted_length (data : list Q) : length (sorted data) = length data.
Proof.
  induction data as [|x data IH]; [reflexivity|].
  cbn [sorted fold_right]. fold (sorted data).
  now rewrite insert_sorted_length, IH.
Qed.

Lemma sorted_nil_iff (data : list Q) : sorted data = [] <-> data = [].
Proof.
  split; intros H; [|now subst].
  apply (f_equal (@length Q)) in H. rewrite sorted_length in H.
  now destruct data.
Qed.

Lemma fold_max_bound (t : list Q) (h : Q) :
  h <= fold_left Qmax t h /\ forall v, In v t -> v <= fold_left Qmax t h.
Proof.
  revert h. induction t as [|a t IH]; intros h; cbn [fold_left].
  - split; [apply Qle_refl | intros v []].
  - destruct (IH (Qmax h a)) as [Hh Ht]. split.
    + eapply Qle_trans; [apply Q.le_max_l | exact Hh].
    + intros v [<-|Hv]; [|now apply Ht].
      eapply Qle_trans; [apply Q.le_max_r | exact Hh].
Qed.

Lemma fold_min_bound (t : list Q) (h : Q) :
  fold_left Qmin t h <= h /\ forall v, In v t -> fold_left Qmin t h <= v.
Proof.
  revert h. induction t as [|a t IH]; intros h; cbn [fold_left].
  - split; [apply Qle_refl | intros v []].
  - destruct (IH (Qmin h a)) as [Hh Ht]. split.
    + eapply Qle_trans; [exact Hh | apply Q.le_min_l].
    + intros v [<-|Hv]; [|now apply Ht].
      eapply Qle_trans; [exact Hh | apply Q.le_min_r].
Qed.

(** [max] and [min] of the sorted data bound every input value. *)
Lemma py_max_bound (data : list Q) (hi : Q) :
  py_max (sorted data) = Return hi -> forall v, In v data -> v <= hi.
Proof.
  intros H v Hv. apply sorted_In in Hv.
  destruct (sorted data) as [|h t]; [destruct Hv|].
  injection H as <-. destruct (fold_max_bound t h) as [Hh Ht].
  destruct Hv as [<-|Hv]; [exact Hh | now apply Ht].
Qed.

Lemma py_min_bound (data : list Q) (lo : Q) :
  py_min (sorted data) = Return lo -> forall v, In v data -> lo <= v.
Proof.
  intros H v Hv. apply sorted_In in Hv.
  destruct (sorted data) as [|h t]; [destruct Hv|].
  injection H as <-. destruct (fold_min_bound t h) as [Hh Ht].
  destruct Hv as [<-|Hv]; [exact Hh | now apply Ht].
Qed.

Lemma py_max_returns (l : list Q) : l <> [] -> exists hi, py_max l = Return hi.
Proof. destruct l; [congruence | eexists; reflexivity]. Qed.

Lemma py_min_returns (l : list Q) : l <> [] -> exists lo, py_min l = Return lo.
Proof. destruct l; [congruence | eexists; reflexivity]. Qed.

Lemma np_percentile_returns (a : list Q) (q : Q) :
  a <> [] -> 0 <= q <= 100 -> exists v, np_percentile a q = Return v.
Proof.
  intros Ha [Hlo Hhi]. unfold np_percentile.
  apply Qle_bool_iff in Hlo, Hhi. rewrite Hlo, Hhi. cbn [andb negb].
  destruct (sorted a) eqn:Hs; [apply (proj1 (sorted_nil_iff a)) in Hs; congruence|].
  eexists; reflexivity.
Qed.

(** The loop values [range(1, num_classes)]. *)
Lemma class_range_lookup (n : Z) (k : nat) (i : Z) :
  py_range 1 n 1 !! k = Some i <-> i = (Z.of_nat k + 1)%Z /\ (Z.of_nat k + 1 < n)%Z.
Proof.
  rewrite BatchProps.py_range_lookup.
  replace ((n - 1 + 1 - 1) / 1)%Z with (n - 1)%Z by (rewrite Z.div_1_r; lia).
  split; intros [-> H]; split; lia.
Qed.

Lemma class_range_length (first n : Z) :
  length (py_range first n 1) = Z.to_nat (n - first).
Proof.
  unfold py_range. rewrite length_map, length_seq.
  f_equal. rewrite Z.div_1_r. lia.
Qed.

Lemma percent_in_range (i n : Z) :
  (1 <= i < n)%Z -> 0 <= inject_Z i / inject_Z n * 100 <= 100.
Proof.
  intros [Hi Hn].
  assert (Hnpos : 0 < inject_Z n).
  { change 0 with (inject_Z 0). rewrite <- Zlt_Qlt. lia. }
  assert (Hlo : 0 <= inject_Z i / inject_Z n).
  { apply Qle_shift_div_l; [exact Hnpos|]. rewrite Qmult_0_l.
    change 0 with (inject_Z 0). rewrite <- Zle_Qle. lia. }
  assert (Hhi : inject_Z i / inject_Z n <= 1).
  { apply Qle_shift_div_r; [exact Hnpos|]. rewrite Qmult_1_l.
    rewrite <- Zle_Qle. lia. }
  split; Lqa.lra.
Qed.

Lemma quantile_breaks_returns (s : list Q) (n : Z) :
  s <> [] ->
  exists percentiles hi,
    quantile_breaks s n = Return (percentiles ++ [hi])
    /\ py_max s = Return hi
    /\ Forall2 (fun i v => np_percentile s (inject_Z i / inject_Z n * 100) = Return v)
               (py_range 1 n 1) percentiles.
Proof.
  intros Hs. unfold quantile_breaks.
  destruct (for_each_returns
              (fun i => np_percentile s (inject_Z i / inject_Z n * 100)) (py_range 1 n 1))
    as (bs & Hbs & Hall).
  { intros i Hi. apply list_elem_of_In, list_elem_of_lookup in Hi as [k Hk].
    apply class_range_lookup in Hk as [-> Hk].
    destruct (np_percentile_returns s (inject_Z (Z.of_nat k + 1) / inject_Z n * 100) Hs)
      as [v ->]; [apply percent_in_range; lia | reflexivity]. }
  destruct (py_max_returns s Hs) as [hi Hhi].
  exists bs, hi. rewrite Hbs, Hhi. cbn [bind]. auto.
Qed.

Lemma equal_interval_breaks_returns (s : list Q) (n : Z) :
  s <> [] -> n <> 0%Z ->
  exists lo hi,
    py_min s = Return lo /\ py_max s = Return hi
    /\ equal_interval_breaks s n =
       Return (map (fun i => lo + (hi - lo) / inject_Z n * inject_Z (i + 1)) (py_range 0 n 1)).
Proof.
  intros Hs Hn. unfold equal_interval_breaks.
  destruct (py_min_returns s Hs) as [lo Hlo], (py_max_returns s Hs) as [hi Hhi].
  exists lo, hi. rewrite Hlo, Hhi. cbn [bind].
  destruct (n =? 0)%Z eqn:E; [apply Z.eqb_eq in E; congruence|].
  cbn [bind]. auto.
Qed.

Lemma jenks_breaks_returns (data : list Q) (n : Z) :
  data <> [] -> returns (jenks_breaks data n) = true.
Proof.
  intros Hd. unfold jenks_breaks.
  destruct (py_max_returns (sorted data)) as [hi ->]; [|reflexivity].
  now rewrite sorted_nil_iff.
Qed.

Lemma method_cases (method : string) :
  method = "Quantile"%string \/ method = "Equal Interval"%string
  \/ method = "Natural Breaks (Jenks)"%string
  \/ (String.eqb method "Quantile" = false /\ String.eqb method "Equal Interval" = false
      /\ String.eqb method "Natural Breaks (Jenks)" = false).
Proof.
  destruct (String.eqb_spec method "Quantile"); [auto|].
  destruct (String.eqb_spec method "Equal Interval"); [auto|].
  destruct (String.eqb_spec method "Natural Breaks (Jenks)"); [auto|].
  do 3 right. auto.
Qed.

Lemma classify_quantile (data : list Q) (n : Z) :
  classify_data data "Quantile" n = quantile_breaks (sorted data) n.
Proof. reflexivity. Qed.

Lemma classify_equal_interval (data : list Q) (n : Z) :
  classify_data data "Equal Interval" n = equal_interval_breaks (sorted data) n.
Proof. reflexivity. Qed.

Lemma classify_jenks (data : list Q) (n : Z) :
  classify_data data "Natural Breaks (Jenks)" n = jenks_breaks (sorted data) n.
Proof. reflexivity. Qed.

Lemma classify_fallback (data : list Q) (method : string) (n : Z) :
  String.eqb method "Quantile" = false -> String.eqb method "Equal Interval" = false ->
  String.eqb method "Natural Breaks (Jenks)" = false ->
  classify_data data method n = quantile_breaks (sorted data) n.
Proof. intros H1 H2 H3. unfold classify_data. now rewrite H1, H2, H3. Qed.

Lemma quantile_breaks_empty (n : Z) : returns (quantile_breaks [] n) = false.
Proof.
  unfold quantile_breaks.
  destruct (py_range 1 n 1) as [|i l]; cbn [for_each bind py_max returns]; [reflexivity|].
  unfold np_percentile.
  destruct (negb _); cbn [sorted fold_right bind returns]; reflexivity.
Qed.

(** On an empty input every branch raises. *)
Lemma classify_data_empty (method : string) (n : Z) :
  returns (classify_data [] method n) = false.
Proof.
  destruct (method_cases method) as [->|[->|[->|(H1 & H2 & H3)]]].
  - rewrite classify_quantile. apply quantile_breaks_empty.
  - reflexivity.
  - reflexivity.
  - rewrite classify_fallback by assumption. apply quantile_breaks_empty.
Qed.

(** On a non-empty input only the division by a zero class count raises. *)
Lemma classify_data_returns (data : list Q) (method : string) (n : Z) :
  data <> [] -> n <> 0%Z -> returns (classify_data data method n) = true.
Proof.
  intros Hd Hn.
  assert (Hs : sorted data <> []) by now rewrite sorted_nil_iff.
  destruct (method_cases method) as [->|[->|[->|(H1 & H2 & H3)]]].
  - rewrite classify_quantile.
    destruct (quantile_breaks_returns (sorted data) n Hs) as (ps & hi & -> & _). reflexivity.
  - rewrite classify_equal_interval.
    destruct (equal_interval_breaks_returns (sorted data) n Hs Hn) as (lo & hi & _ & _ & ->).
    reflexivity.
  - rewrite classify_jenks. now apply jenks_breaks_returns.
  - rewrite classify_fallback by assumption.
    destruct (quantile_breaks_returns (sorted data) n Hs) as (ps & hi & -> & _). reflexivity.
Qed.

(** C4.  On [10,20,30,40,50] with five classes both Quantile and
    EqualInterval give the breaks 18, 26, 34, 42, 50.  In general, for a
    non-empty input and a positive class count, Quantile returns as many
    breaks as classes, the k-th being the linearly interpolated percentile
    k/n of the sorted input and the last being the maximum; EqualInterval
    returns the breaks min + interval*k for k = 1..n with
    interval = (max - min)/n. *)
Theorem classification_formulas (data : list Q) (n : Z)
    (Hdata : data <> []) (Hn : (1 <= n)%Z) :
  same_breaks (classify_data [10; 20; 30; 40; 50] (method_name Quantile) 5)
              [18; 26; 34; 42; 50]
  /\ same_breaks (classify_data [10; 20; 30; 40; 50] (method_name EqualInterval) 5)
                 [18; 26; 34; 42; 50]
  /\ (exists breaks hi,
        classify_data data (method_name Quantile) n = Return breaks
        /\ length breaks = Z.to_nat n
        /\ last breaks = Some hi
        /\ py_max (sorted data) = Return hi
        /\ (forall v, In v data -> v <= hi)
        /\ forall k : nat, (Z.of_nat k + 1 < n)%Z ->
             exists v,
               np_percentile (sorted data) (inject_Z (Z.of_nat k + 1) / inject_Z n * 100)
               = Return v
               /\ breaks !! k = Some v)
  /\ (exists breaks lo hi,
        classify_data data (method_name EqualInterval) n = Return breaks
        /\ py_min (sorted data) = Return lo
        /\ py_max (sorted data) = Return hi
        /\ (forall v, In v data -> lo <= v <= hi)
        /\ length breaks = Z.to_nat n
        /\ forall k : nat, (Z.of_nat k < n)%Z ->
             breaks !! k = Some (lo + (hi - lo) / inject_Z n * inject_Z (Z.of_nat k + 1))).
Proof.
  assert (Hs : sorted data <> []) by now rewrite sorted_nil_iff.
  split; [|split; [|split]].
  - eexists. split; [vm_compute; reflexivity|]. repeat constructor; reflexivity.
  - eexists. split; [vm_compute; reflexivity|]. repeat constructor; reflexivity.
  - cbn [method_name]. rewrite classify_quantile.
    destruct (quantile_breaks_returns (sorted data) n Hs) as (ps & hi & -> & Hhi & Hall).
    pose proof (Forall2_length _ _ _ Hall) as Hlen. rewrite class_range_length in Hlen.
    exists (ps ++ [hi]), hi. split; [reflexivity|].
    split; [rewrite length_app; cbn [length]; lia|].
    split; [apply last_snoc|]. split; [exact Hhi|].
    split; [exact (py_max_bound data hi Hhi)|].
    intros k Hk.
    assert (Hi : py_range 1 n 1 !! k = Some (Z.of_nat k + 1)%Z)
      by (apply class_range_lookup; lia).
    destruct (Forall2_lookup_l _ _ _ _ _ Hall Hi) as (v & Hv & Hp).
    exists v. split; [exact Hp|].
    rewrite lookup_app_l; [exact Hv | lia].
  - cbn [method_name]. rewrite classify_equal_interval.
    destruct (equal_interval_breaks_returns (sorted data) n Hs ltac:(lia))
      as (lo & hi & Hlo & Hhi & ->).
    eexists _, lo, hi. split; [reflexivity|].
    split; [exact Hlo|]. split; [exact Hhi|].
    split; [intros v Hv; split;
            [exact (py_min_bound data lo Hlo v Hv) | exact (py_max_bound data hi Hhi v Hv)]|].
    split; [rewrite length_map, class_range_length; f_equal; lia|].
    intros k Hk.
    change (map ?f ?l) with (f <$> l). rewrite list_lookup_fmap.
    assert (Hi : py_range 0 n 1 !! k = Some (Z.of_nat k)).
    { apply BatchProps.py_range_lookup. rewrite Z.div_1_r. split; lia. }
    rewrite Hi. reflexivity.
Qed.

Lemma classification_formulas_witness :
  same_breaks (classify_data [10; 20; 30; 40; 50] (method_name Quantile) 5)
              [18; 26; 34; 42; 50].
Proof.
  assert (Hdata : [10; 20; 30; 40; 50] <> ([] : list Q)) by discriminate.
  assert (Hn : (1 <= 5)%Z) by lia.
  exact (proj1 (classification_formulas [10; 20; 30; 40; 50] 5 Hdata Hn)).
Defined.

(** The caller's filter: a population that is not a number makes the
    comparison raise; on numbers it is the filter on the positive ones. *)
Lemma valid_populations_not_a_number (populations : list Converter.Value) :
  Exists (fun p => forall n, p <> Converter.VNum n) populations ->
  Symbology.valid_populations populations = None.
Proof.
  induction 1 as [p rest Hp|p rest _ IH]; cbn [Symbology.valid_populations].
  - destruct p as [s|n|]; [reflexivity | now destruct (Hp n) | reflexivity].
  - destruct p as [s|n|]; [reflexivity | now rewrite IH | reflexivity].
Qed.

Lemma valid_populations_numbers (numbers : list Z) :
  Symbology.valid_populations (map Converter.VNum numbers)
  = Some (valid_populations (map inject_Z numbers)).
Proof.
  unfold valid_populations.
  induction numbers as [|p rest IH];
    cbn [map Symbology.valid_populations List.filter]; [reflexivity|].
  rewrite IH. f_equal.
  replace (Qlt_bool 0 (inject_Z p)) with (0 <? p)%Z; [reflexivity|].
  unfold Qlt_bool, Qle_bool, inject_Z. cbn [Qnum Qden].
  rewrite Z.mul_1_r, Z.mul_0_l. apply Z.ltb_antisym.
Qed.

(** C9 (amended).  Applied to the empty sequence the function raises, for
    every method name and every class count.  On a non-empty input with a
    non-zero class count it returns for every method name, and a name
    other than the three known ones gives what Quantile gives.  The
    caller never applies it to the empty sequence: whenever it calls the
    function, it is with the non-empty sequence of the positive
    populations and five classes, and the call returns.  The caller
    itself raises TypeError when a population is not a number, and shows
    a warning and returns early when no county or no patch is loaded or
    when no population is positive. *)
Theorem classify_raises_only_on_empty (data : list Q) (numbers : list Z)
    (counties_data : list Drawing.CountyRecord) (county_patches : list Drawing.Patch)
    (method : string) (n : Z) :
  returns (classify_data [] method n) = false
  /\ (data <> [] -> n <> 0%Z -> returns (classify_data data method n) = true)
  /\ (~ In method (map method_name [Quantile; EqualInterval; NaturalBreaksApprox]) ->
      classify_data data method n = classify_data data (method_name Quantile) n)
  /\ (forall breaks,
        Symbology.apply_chloropleth counties_data county_patches method
        = Symbology.Classified breaks ->
        returns breaks = true
        /\ exists valid,
             valid <> []
             /\ Symbology.valid_populations (map Drawing.population counties_data)
                = Some valid
             /\ breaks = classify_data valid method 5)
  /\ (counties_data = [] \/ county_patches = [] ->
      Symbology.apply_chloropleth counties_data county_patches method
      = Symbology.NoDataWarning "Please load county data first")
  /\ (county_patches <> [] ->
      Exists (fun county => forall p, Drawing.population county <> Converter.VNum p) counties_data ->
      Symbology.apply_chloropleth counties_data county_patches method
      = Symbology.PopulationTypeError)
  /\ (counties_data <> [] -> county_patches <> [] ->
      Symbology.valid_populations (map Drawing.population counties_data) = Some [] ->
      Symbology.apply_chloropleth counties_data county_patches method
      = Symbology.NoDataWarning "No valid population data found")
  /\ (counties_data <> [] -> county_patches <> [] ->
      map Drawing.population counties_data = map Converter.VNum numbers ->
      Symbology.apply_chloropleth counties_data county_patches method
      = match apply_chloropleth_breaks (map inject_Z numbers) method with
        | None => Symbology.NoDataWarning "No valid population data found"
        | Some breaks => Symbology.Classified breaks
        end).
Proof.
  split; [apply classify_data_empty|].
  split; [apply classify_data_returns|].
  split; [|split; [|split; [|split; [|split]]]].
  - intros Hnot. cbn [map method_name In] in Hnot.
    rewrite classify_quantile. apply classify_fallback.
    + destruct (String.eqb_spec method "Quantile"); [subst; tauto | reflexivity].
    + destruct (String.eqb_spec method "Equal Interval"); [subst; tauto | reflexivity].
    + destruct (String.eqb_spec method "Natural Breaks (Jenks)"); [subst; tauto | reflexivity].
  - intros breaks. unfold Symbology.apply_chloropleth.
    destruct counties_data as [|county counties]; [discriminate|].
    destruct county_patches as [|patch patches]; [discriminate|].
    destruct (Symbology.valid_populations (map Drawing.population (county :: counties)))
      as [[|p valid]|]; try discriminate.
    intros [= <-]. split; [apply classify_data_returns; [discriminate | lia]|].
    exists (p :: valid). split; [discriminate|]. split; reflexivity.
  - unfold Symbology.apply_chloropleth.
    intros [-> | ->]; [reflexivity|]. now destruct counties_data.
  - intros Hpatches Hex. unfold Symbology.apply_chloropleth.
    destruct counties_data as [|county counties]; [inversion Hex|].
    destruct county_patches as [|patch patches]; [now destruct Hpatches|].
    rewrite valid_populations_not_a_number; [reflexivity|].
    apply List.Exists_map. exact Hex.
  - intros Hcounties Hpatches Hvalid. unfold Symbology.apply_chloropleth.
    destruct counties_data as [|county counties]; [now destruct Hcounties|].
    destruct county_patches as [|patch patches]; [now destruct Hpatches|].
    now rewrite Hvalid.
  - intros Hcounties Hpatches Hnum. unfold Symbology.apply_chloropleth.
    destruct counties_data as [|county counties]; [now destruct Hcounties|].
    destruct county_patches as [|patch patches]; [now destruct Hpatches|].
    rewrite Hnum, valid_populations_numbers. unfold apply_chloropleth_breaks.
    destruct (valid_populations (map inject_Z numbers)); reflexivity.
Qed.

Lemma classify_raises_only_on_empty_witness :
  returns (classify_data [3; 1; 2] "Quantile" 2) = true.
Proof.
  assert (Hdata : [3; 1; 2] <> ([] : list Q)) by discriminate.
  assert (Hn : 2%Z <> 0%Z) by lia.
  exact (proj1 (proj2 (classify_raises_only_on_empty [3; 1; 2] [] [] [] "Quantile" 2))
           Hdata Hn).
Defined.

(** C9 as stated fails: on the empty sequence the function raises under
    every method, the fallback included, instead of returning no breaks. *)
Lemma classify_empty_raises :
  returns (classify_data [] "Quantile" 5) = false
  /\ classify_data [] "Quantile" 1 = Raise ValueError
  /\ classify_data [] "Equal Interval" 5 = Raise ValueError
  /\ classify_data [] "Natural Breaks (Jenks)" 5 = Raise ValueError
  /\ returns (classify_data [] "Standard Deviation" 5) = false
  /\ classify_data [] "Quantile" 5 <> Return [].
Proof. repeat split; discriminate. Qed.

End ClassifierProps.

(** *** AcquisitionClient and RegionCache *)

Module AcquisitionProps.
Import Py Converter Acquisition.

(** **** The retry loop of a numeric-ID batch *)

(** Case analysis on an answer the way the loops look at it: the three
    exceptions, an error body, and a body with no, an empty or a non-empty
    feature list. *)
Ltac answer_cases r :=
  destruct r as [ | | | [[] ? [[|? ?]|]]];
  cbn [retriable has_error features records_of backoff fst snd app apply_outcome].

(** With the fuel the batch loop is given, and with any larger amount, the
    loop carries out the three-attempt policy. *)
Lemma retry_loop_policy (net : Network) (extra : nat) (w : string) (acc : Acc) (tr : Trace) :
  retry_loop net (S max_retries + extra) w 0 acc tr =
  (apply_outcome (fst (three_attempts net (requests_sent tr))) acc,
   batch_events net (requests_sent tr) w ++ tr).
Proof.
  unfold three_attempts, batch_events.
  cbn [retry_loop requests_get max_retries Nat.add Nat.sub Nat.ltb Nat.leb].
  unfold requests_sent. cbn [List.filter is_request length].
  set (k := length (List.filter is_request tr)).
  answer_cases (net k); try reflexivity.
  all: cbn [List.filter is_request length]; fold k.
  all: answer_cases (net (S k)); try reflexivity.
  all: cbn [List.filter is_request length]; fold k.
  all: answer_cases (net (S (S k))); try reflexivity.
  all: destruct extra; reflexivity.
Qed.

Lemma requests_sent_app (a b : Trace) :
  requests_sent (a ++ b) = (requests_sent a + requests_sent b)%nat.
Proof. unfold requests_sent. now rewrite List.filter_app, length_app. Qed.

Lemma batch_events_requests (net : Network) (k : nat) (w : string) :
  requests_sent (batch_events net k w) = snd (three_attempts net k).
Proof.
  unfold batch_events, three_attempts.
  destruct (retriable (net k)), (retriable (net (S k))); reflexivity.
Qed.

Lemma batch_events_sleeps (net : Network) (k : nat) (w : string) :
  S (sleeps (batch_events net k w)) = snd (three_attempts net k).
Proof.
  unfold batch_events, three_attempts.
  destruct (retriable (net k)), (retriable (net (S k))); reflexivity.
Qed.

Lemma batch_events_backoff (net : Network) (k : nat) (w : string) (n : nat) :
  In (Sleep n) (batch_events net k w) -> n = 1%nat \/ n = 2%nat.
Proof.
  unfold batch_events.
  assert (Hb : forall r, backoff r = 1%nat \/ backoff r = 2%nat) by (intros []; cbn; auto).
  destruct (retriable (net k)), (retriable (net (S k))); cbn [In]; intros H;
    repeat (destruct H as [H|H]; [try discriminate; injection H as <-; apply Hb|]);
    destruct H.
Qed.

Lemma attempts_bounded (net : Network) (k : nat) :
  (1 <= snd (three_attempts net k) <= max_retries)%nat.
Proof.
  unfold three_attempts, max_retries.
  destruct (retriable (net k)), (retriable (net (S k))); cbn [snd]; lia.
Qed.

Lemma exhausted_retries_fail (net : Network) (k : nat) :
  retriable (net k) = true -> retriable (net (S k)) = true ->
  retriable (net (S (S k))) = true ->
  three_attempts net k = (None, 3%nat).
Proof.
  intros H0 H1 H2. unfold three_attempts. rewrite H0, H1. f_equal.
  destruct (net (S (S k))) as [ | | |body]; try reflexivity.
  cbn in H2. cbn. now rewrite H2.
Qed.

(** **** The counters *)

Lemma tally_spec (outcomes : list (option (list ArcFeature))) (acc : Acc) :
  all_features (tally outcomes acc) = all_features acc ++ union_of outcomes
  /\ successful (tally outcomes acc) = (successful acc + count_succeeded outcomes)%nat
  /\ failed (tally outcomes acc) = (failed acc + count_failed outcomes)%nat.
Proof.
  revert acc. induction outcomes as [|o outcomes IH]; intros acc.
  - cbn. rewrite app_nil_r. repeat split; lia.
  - unfold tally in *. cbn [fold_left].
    destruct (IH (apply_outcome o acc)) as (Hf & Hs & Hx). rewrite Hf, Hs, Hx.
    unfold union_of, count_succeeded, count_failed.
    destruct o as [l|]; cbn; rewrite <- ?app_assoc; repeat split; lia.
Qed.

Lemma count_total (outcomes : list (option (list ArcFeature))) :
  (count_succeeded outcomes + count_failed outcomes)%nat = length outcomes.
Proof.
  unfold count_succeeded, count_failed.
  induction outcomes as [|[l|] outcomes IH]; cbn; [reflexivity | | ]; cbn in IH; lia.
Qed.

Lemma records_of_nonempty (r : Response) : records_of r <> Some [].
Proof.
  destruct r as [ | | |[e c [[|f fs]|]]]; cbn; try discriminate;
    destruct e; discriminate.
Qed.

(** When no outcome is an empty success, some partition succeeded exactly
    when the union holds a record. *)
Lemma union_empty_iff (outcomes : list (option (list ArcFeature))) :
  Forall (fun o => o <> Some []) outcomes ->
  union_of outcomes = [] <-> count_succeeded outcomes = 0%nat.
Proof.
  unfold union_of, count_succeeded.
  induction 1 as [|o outcomes Ho _ IH]; [cbn; tauto|].
  destruct o as [[|f fs]|]; cbn; [congruence | | exact IH].
  split; [discriminate | lia].
Qed.

Lemma batch_outcomes_length (net : Network) (n k : nat) :
  length (batch_outcomes net n k) = n.
Proof. revert k. induction n as [|n IH]; intros k; cbn; [reflexivity | now rewrite IH]. Qed.

Lemma batch_outcomes_nonempty (net : Network) (n k : nat) :
  Forall (fun o => o <> Some []) (batch_outcomes net n k).
Proof.
  revert k. induction n as [|n IH]; intros k; cbn [batch_outcomes]; constructor; [|apply IH].
  unfold three_attempts.
  destruct (retriable (net k)), (retriable (net (S k))); apply records_of_nonempty.
Qed.

Lemma single_outcomes_step (net : Network) (n k : nat) :
  single_outcomes net (S n) k = records_of (net k) :: single_outcomes net n (S k).
Proof.
  unfold single_outcomes. cbn [seq map]. rewrite Nat.add_0_r. f_equal.
  rewrite <- seq_shift, map_map. apply map_ext. intros i. do 2 f_equal. lia.
Qed.

Lemma single_outcomes_length (net : Network) (n k : nat) :
  length (single_outcomes net n k) = n.
Proof. unfold single_outcomes. now rewrite length_map, length_seq. Qed.

Lemma single_outcomes_nonempty (net : Network) (n k : nat) :
  Forall (fun o => o <> Some []) (single_outcomes net n k).
Proof.
  unfold single_outcomes. apply List.Forall_forall. intros o Ho.
  apply in_map_iff in Ho as (i & <- & _). apply records_of_nonempty.
Qed.

(** **** The two batch loops *)

Lemma batches_fold (net : Network) (batches : list (Z * Z)) (acc : Acc) (tr : Trace) :
  fst (fold_left (batch_step net) batches (acc, tr)) =
  tally (batch_outcomes net (length batches) (requests_sent tr)) acc.
Proof.
  revert acc tr. induction batches as [|b batches IH]; intros acc tr; [reflexivity|].
  cbn [fold_left length batch_outcomes]. unfold batch_step at 2. cbn [fst snd].
  rewrite (retry_loop_policy net 0), IH.
  now rewrite requests_sent_app, batch_events_requests.
Qed.

Lemma state_step_outcome (net : Network) (acc : Acc) (tr : Trace) (fips_code : Value) :
  state_step net (acc, tr) fips_code =
  (apply_outcome (records_of (net (requests_sent tr))) acc,
   Request counties_url (state_where fips_code) :: tr).
Proof.
  unfold state_step. cbn [requests_get fst snd].
  destruct (net (requests_sent tr)) as [ | | |[[] c [[|f fs]|]]]; reflexivity.
Qed.

Lemma states_fold (net : Network) (codes : list Value) (acc : Acc) (tr : Trace) :
  fst (fold_left (state_step net) codes (acc, tr)) =
    tally (single_outcomes net (length codes) (requests_sent tr)) acc
  /\ requests_sent (snd (fold_left (state_step net) codes (acc, tr))) =
     (requests_sent tr + length codes)%nat
  /\ sleeps (snd (fold_left (state_step net) codes (acc, tr))) = sleeps tr.
Proof.
  revert acc tr. induction codes as [|c codes IH]; intros acc tr.
  - cbn [fold_left length fst snd]. rewrite Nat.add_0_r. repeat split.
  - cbn [fold_left length]. rewrite state_step_outcome, single_outcomes_step.
    destruct (IH (apply_outcome (records_of (net (requests_sent tr))) acc)
                 (Request counties_url (state_where c) :: tr)) as (Hf & Hr & Hs).
    split; [|split].
    + etransitivity; [exact Hf | reflexivity].
    + etransitivity; [exact Hr|]. unfold requests_sent. cbn [List.filter is_request length]. lia.
    + etransitivity; [exact Hs | reflexivity].
Qed.

(** **** The two loaders *)

Lemma store_snoc_lookup (c : FeatureCollection) (m : Manager) :
  (store m ++ [c]) !! length (store m) = Some c.
Proof. rewrite lookup_app_r by lia. now rewrite Nat.sub_diag. Qed.

(** A numeric-ID load either obtains no record, fails and leaves the
    manager alone, or converts the union of the batches' records into a
    new collection and prints the counters. *)
Lemma load_counties_data_cases (net : Network) (m : Manager) (tr : Trace) :
  let r := load_counties_data net m tr in
  let batches :=
    batch_outcomes net (length (numeric_partitions net tr)) (S (requests_sent tr)) in
  (union_of batches = [] /\ succeeded r = false /\ manager_after r = m)
  \/ (union_of batches <> [] /\ succeeded r = true
      /\ manager_after r =
         assign_counties_data (convert_to_geojson (union_of batches) "counties") m
      /\ head (trace_after r) =
         Some (Summary (count_succeeded batches) (count_failed batches))).
Proof.
  cbv zeta. unfold load_counties_data, numeric_partitions. cbn [requests_get].
  destruct (net (requests_sent tr)) as [ | | |body];
    [left; repeat split | left; repeat split | left; repeat split | ].
  destruct (has_error body); [left; repeat split|].
  destruct (default 0%Z (count body) =? 0)%Z eqn:Hzero.
  { apply Z.eqb_eq in Hzero. rewrite Hzero. left. repeat split. }
  set (batches := batch_ranges (default 0%Z (count body))).
  pose proof (batches_fold net batches empty_acc (Request counties_url "1=1" :: tr)) as Hacc.
  change (requests_sent (Request counties_url "1=1" :: tr)) with (S (requests_sent tr)) in Hacc.
  match goal with
  | |- context [fold_left ?f ?l ?a] => destruct (fold_left f l a) as [acc tr']
  end.
  cbn [fst] in Hacc. subst acc.
  destruct (tally_spec (batch_outcomes net (length batches) (S (requests_sent tr))) empty_acc)
    as (Hf & Hs & Hx).
  cbn [empty_acc all_features successful failed app Nat.add] in Hf, Hs, Hx.
  rewrite Hf, Hs, Hx.
  destruct (union_of (batch_outcomes net (length batches) (S (requests_sent tr))));
    [left | right]; repeat split; discriminate.
Qed.

Lemma fips_step_raised (names : gset string) (states : list Feature) :
  fold_left (fips_step names) states None = None.
Proof. induction states as [|s states IH]; [reflexivity | exact IH]. Qed.

Lemma fips_step_no_names (states : list Feature) (codes : list Value) :
  default [] (fold_left (fips_step ∅) states (Some codes)) = codes
  \/ fold_left (fips_step ∅) states (Some codes) = None.
Proof.
  induction states as [|s states IH]; [left; reflexivity|].
  cbn [fold_left fips_step].
  destruct (properties s !! "NAME") as [[name| |]|];
    cbn [name_in]; rewrite ?fips_step_raised; auto.
Qed.

Lemma empty_region_partitions (region : string) (m : Manager) :
  get_states_in_region region = ∅ -> region_partitions region m = [].
Proof.
  intros Hempty. unfold region_partitions, region_fips_codes. rewrite Hempty.
  destruct (states_data m) as [states|]; [|reflexivity]. cbn.
  destruct (fips_step_no_names states []) as [H|H]; [exact H | now rewrite H].
Qed.

(** On a cache miss a regional load either obtains no record, fails and
    leaves the manager alone, or converts the union of the states' records
    and stores the new collection under the region. *)
Lemma load_counties_for_region_cases (net : Network) (region : string) (m : Manager)
    (tr : Trace) :
  counties_by_region m !! region = None ->
  let r := load_counties_for_region net region m tr in
  let states :=
    single_outcomes net (length (region_partitions region m)) (requests_sent tr) in
  (union_of states = [] /\ succeeded r = false /\ manager_after r = m)
  \/ (union_of states <> [] /\ succeeded r = true
      /\ manager_after r =
         store_region region (convert_to_geojson (union_of states) "counties") m
      /\ trace_after r =
         Summary (count_succeeded states) (count_failed states)
         :: snd (fold_left (state_step net) (region_partitions region m) (empty_acc, tr))).
Proof.
  intros Hmiss. cbv zeta. unfold load_counties_for_region. rewrite Hmiss.
  destruct (bool_decide (get_states_in_region region = ∅)) eqn:Hnone.
  { apply bool_decide_eq_true in Hnone.
    rewrite (empty_region_partitions region m Hnone). left. repeat split. }
  unfold region_partitions.
  destruct (region_fips_codes region m) as [[|c codes]|];
    [left; repeat split | | left; repeat split].
  cbn [from_option]. unfold Datatypes.id.
  destruct (states_fold net (c :: codes) empty_acc tr) as (Hacc & _).
  destruct (fold_left (state_step net) (c :: codes) (empty_acc, tr)) as [acc tr'].
  cbn [fst snd] in *. subst acc.
  destruct (tally_spec (single_outcomes net (length (c :: codes)) (requests_sent tr)) empty_acc)
    as (Hf & Hs & Hx).
  cbn [empty_acc all_features successful failed app Nat.add] in Hf, Hs, Hx.
  rewrite Hf, Hs, Hx.
  destruct (union_of (single_outcomes net (length (c :: codes)) (requests_sent tr)));
    [left | right]; repeat split; discriminate.
Qed.

Lemma positive_iff_union (outcomes : list (option (list ArcFeature))) :
  Forall (fun o => o <> Some []) outcomes ->
  (0 < count_succeeded outcomes)%nat <-> union_of outcomes <> [].
Proof. intros H. rewrite (union_empty_iff outcomes H). lia. Qed.

Lemma counties_of_assigned (c : FeatureCollection) (m : Manager) :
  counties_of (assign_counties_data c m) = Some c.
Proof. unfold counties_of. cbn. apply store_snoc_lookup. Qed.

Lemma counties_of_stored (region : string) (c : FeatureCollection) (m : Manager) :
  counties_of (store_region region c m) = Some c.
Proof. unfold counties_of. cbn. apply store_snoc_lookup. Qed.

Lemma cached_stored (region : string) (c : FeatureCollection) (m : Manager) :
  cached (store_region region c m) region = Some c.
Proof.
  unfold cached. cbn [counties_by_region store store_region].
  rewrite lookup_insert_eq. cbn. apply store_snoc_lookup.
Qed.

(** C1.  In both strategies the load fails exactly when no partition
    yielded a record.  As soon as one did, it succeeds, the manager's
    counties are the conversion of the union of the records of the
    successful partitions, in order, and the summary reports how many
    partitions succeeded and how many failed, every partition being
    counted once.  With four states of which the second times out, the
    regional load succeeds with the records of the three others and
    reports 3 successful, 1 failed. *)
Theorem partial_failure_tolerated (net : Network) (m : Manager) (tr : Trace)
    (region : string) (Hmiss : counties_by_region m !! region = None) :
  let numeric := load_counties_data net m tr in
  let batches :=
    batch_outcomes net (length (numeric_partitions net tr)) (S (requests_sent tr)) in
  let regional := load_counties_for_region net region m tr in
  let states :=
    single_outcomes net (length (region_partitions region m)) (requests_sent tr) in
  let sample := load_counties_for_region second_times_out "West" four_states [] in
  (succeeded numeric = false <-> union_of batches = [])
  /\ ((0 < count_succeeded batches)%nat ->
      succeeded numeric = true
      /\ counties_of (manager_after numeric) =
         Some (convert_to_geojson (union_of batches) "counties")
      /\ head (trace_after numeric) =
         Some (Summary (count_succeeded batches) (count_failed batches))
      /\ (count_succeeded batches + count_failed batches)%nat =
         length (numeric_partitions net tr))
  /\ (succeeded regional = false <-> union_of states = [])
  /\ ((0 < count_succeeded states)%nat ->
      succeeded regional = true
      /\ counties_of (manager_after regional) =
         Some (convert_to_geojson (union_of states) "counties")
      /\ head (trace_after regional) =
         Some (Summary (count_succeeded states) (count_failed states))
      /\ (count_succeeded states + count_failed states)%nat =
         length (region_partitions region m))
  /\ (succeeded sample = true
      /\ counties_of (manager_after sample) =
         Some (convert_to_geojson [salt_lake; ada; lane] "counties")
      /\ head (trace_after sample) = Some (Summary 3 1)).
Proof.
  intros numeric batches regional states sample.
  pose proof (load_counties_data_cases net m tr) as Hnum.
  pose proof (load_counties_for_region_cases net region m tr Hmiss) as Hreg.
  cbv zeta in Hnum, Hreg. fold numeric batches in Hnum. fold regional states in Hreg.
  pose proof (positive_iff_union batches (batch_outcomes_nonempty _ _ _)) as Hpb.
  pose proof (positive_iff_union states (single_outcomes_nonempty _ _ _)) as Hps.
  split; [|split; [|split; [|split]]].
  - destruct Hnum as [(Hu & Hf & _)|(Hu & Hs & _)]; [tauto|].
    rewrite Hs. split; [discriminate | tauto].
  - intros Hpos. apply Hpb in Hpos.
    destruct Hnum as [(Hu & _)|(_ & Hs & Hm & Ht)]; [tauto|].
    rewrite Hm, counties_of_assigned.
    repeat split; try assumption.
    unfold batches. now rewrite count_total, batch_outcomes_length.
  - destruct Hreg as [(Hu & Hf & _)|(Hu & Hs & _)]; [tauto|].
    rewrite Hs. split; [discriminate | tauto].
  - intros Hpos. apply Hps in Hpos.
    destruct Hreg as [(Hu & _)|(_ & Hs & Hm & Ht)]; [tauto|].
    rewrite Hm, Ht, counties_of_stored.
    repeat split; try assumption.
    unfold states. now rewrite count_total, single_outcomes_length.
  - repeat split; vm_compute; reflexivity.
Qed.

Lemma partial_failure_tolerated_witness :
  succeeded (load_counties_for_region second_times_out "West" four_states []) = false
  <-> union_of (single_outcomes second_times_out
                  (length (region_partitions "West" four_states)) (requests_sent [])) = [].
Proof.
  assert (Hmiss : counties_by_region four_states !! "West" = None) by reflexivity.
  exact (proj1 (proj2 (proj2
           (partial_failure_tolerated second_times_out four_states [] "West" Hmiss)))).
Defined.

(** C5 (amended).  A numeric-ID batch is requested up to three times: an
    error body, a timeout or another exception is retried after a back-off
    of one or two seconds, the first other answer decides (records are
    added, an answer without records counts as failed at once), and after
    three failed attempts the batch is counted as failed and nothing is
    added.  A state partition of the regional load is requested once, and
    any failure counts it as failed at once.  In both loops every batch is
    counted, whatever happened to the earlier ones. *)
Theorem numeric_batches_retried_states_not (net : Network) (extra : nat) (w : string)
    (acc : Acc) (tr : Trace) (fips_code : Value) (batches : list (Z * Z))
    (codes : list Value) :
  let k := requests_sent tr in
  let after_batches := fst (fold_left (batch_step net) batches (acc, tr)) in
  let after_states := fst (fold_left (state_step net) codes (acc, tr)) in
  retry_loop net (S max_retries + extra) w 0 acc tr =
    (apply_outcome (fst (three_attempts net k)) acc, batch_events net k w ++ tr)
  /\ requests_sent (batch_events net k w) = snd (three_attempts net k)
  /\ (1 <= snd (three_attempts net k) <= max_retries)%nat
  /\ S (sleeps (batch_events net k w)) = snd (three_attempts net k)
  /\ (forall n, In (Sleep n) (batch_events net k w) -> n = 1%nat \/ n = 2%nat)
  /\ (retriable (net k) = true -> retriable (net (S k)) = true ->
      retriable (net (S (S k))) = true -> three_attempts net k = (None, 3%nat))
  /\ state_step net (acc, tr) fips_code =
       (apply_outcome (records_of (net k)) acc,
        Request counties_url (state_where fips_code) :: tr)
  /\ (successful after_batches + failed after_batches)%nat =
       (successful acc + failed acc + length batches)%nat
  /\ (successful after_states + failed after_states)%nat =
       (successful acc + failed acc + length codes)%nat.
Proof.
  intros k after_batches after_states.
  split; [apply retry_loop_policy|].
  split; [apply batch_events_requests|].
  split; [apply attempts_bounded|].
  split; [apply batch_events_sleeps|].
  split; [apply batch_events_backoff|].
  split; [apply exhausted_retries_fail|].
  split; [apply state_step_outcome|].
  split.
  - unfold after_batches. rewrite batches_fold.
    destruct (tally_spec (batch_outcomes net (length batches) (requests_sent tr)) acc)
      as (_ & -> & ->).
    pose proof (count_total (batch_outcomes net (length batches) (requests_sent tr))) as Ht.
    rewrite batch_outcomes_length in Ht. lia.
  - unfold after_states. destruct (states_fold net codes acc tr) as (-> & _).
    destruct (tally_spec (single_outcomes net (length codes) (requests_sent tr)) acc)
      as (_ & -> & ->).
    pose proof (count_total (single_outcomes net (length codes) (requests_sent tr))) as Ht.
    rewrite single_outcomes_length in Ht. lia.
Qed.

Lemma numeric_batches_retried_states_not_witness :
  three_attempts always_times_out 0 = (None, 3%nat).
Proof.
  pose proof (numeric_batches_retried_states_not always_times_out 0 "" empty_acc []
                (VStr "49") [] []) as H.
  cbv zeta in H. destruct H as (_ & _ & _ & _ & _ & H & _).
  apply H; reflexivity.
Defined.

(** C5 as stated fails for the partition-key strategy: when the request
    for a state times out it is not sent again, although under the
    three-attempt policy the second attempt would have delivered the
    records; the only partition is counted failed after one request and
    no back-off, and the load fails. *)
Lemma state_timeout_not_retried :
  succeeded (load_counties_for_region first_times_out "West" utah_only []) = false
  /\ requests_sent (trace_after (load_counties_for_region first_times_out "West" utah_only []))
     = 1%nat
  /\ sleeps (trace_after (load_counties_for_region first_times_out "West" utah_only []))
     = 0%nat
  /\ head (trace_after (load_counties_for_region first_times_out "West" utah_only []))
     = Some (Summary 0 1)
  /\ three_attempts first_times_out 0 = (Some [salt_lake], 2%nat).
Proof. repeat split; vm_compute; reflexivity. Qed.

(** C6 (amended).  On a cache miss a load that obtains no record returns
    failure and leaves the manager, its cache included, as it was.  A load
    succeeds as soon as one partition yields records, whether or not
    others failed, and then stores the conversion of the records obtained
    under the region key, the stored collection being the one
    [counties_data] refers to.  No other key is touched. *)
Theorem cache_stores_every_successful_load (net : Network) (region : string)
    (m : Manager) (tr : Trace) (Hmiss : counties_by_region m !! region = None) :
  let r := load_counties_for_region net region m tr in
  let states :=
    single_outcomes net (length (region_partitions region m)) (requests_sent tr) in
  (succeeded r = false -> manager_after r = m)
  /\ (succeeded r = true <-> (0 < count_succeeded states)%nat)
  /\ (succeeded r = true ->
      cached (manager_after r) region =
        Some (convert_to_geojson (union_of states) "counties")
      /\ counties_data (manager_after r) = counties_by_region (manager_after r) !! region)
  /\ (forall other : string, other <> region ->
      counties_by_region (manager_after r) !! other = counties_by_region m !! other).
Proof.
  intros r states.
  pose proof (load_counties_for_region_cases net region m tr Hmiss) as Hreg.
  cbv zeta in Hreg. fold r states in Hreg.
  pose proof (positive_iff_union states (single_outcomes_nonempty _ _ _)) as Hps.
  destruct Hreg as [(Hu & Hf & Hm)|(Hu & Hs & Hm & Ht)].
  - rewrite Hf, Hm. split; [reflexivity|]. split; [split; [discriminate | tauto]|].
    split; [discriminate | reflexivity].
  - rewrite Hs, Hm. split; [discriminate|]. split; [tauto|].
    split.
    + intros _. split; [apply cached_stored|].
      cbn [counties_data counties_by_region store_region]. now rewrite lookup_insert_eq.
    + intros other Hother. cbn [counties_by_region store_region].
      now rewrite lookup_insert_ne.
Qed.

Lemma cache_stores_every_successful_load_witness :
  cached (manager_after (load_counties_for_region only_first_answered "West" utah_nevada []))
         "West"
  = Some (convert_to_geojson
            (union_of (single_outcomes only_first_answered
                         (length (region_partitions "West" utah_nevada)) (requests_sent [])))
            "counties").
Proof.
  assert (Hmiss : counties_by_region utah_nevada !! "West" = None) by reflexivity.
  assert (Hok : succeeded (load_counties_for_region only_first_answered "West" utah_nevada [])
                = true) by reflexivity.
  exact (proj1 (proj1 (proj2 (proj2
           (cache_stores_every_successful_load only_first_answered "West" utah_nevada []
              Hmiss))) Hok)).
Defined.

(** C6 as stated fails: of two states one answers and the other times
    out; the load reports one failed partition, succeeds, and the partial
    collection is in the cache under the region key. *)
Lemma partial_result_is_cached :
  succeeded (load_counties_for_region only_first_answered "West" utah_nevada []) = true
  /\ head (trace_after (load_counties_for_region only_first_answered "West" utah_nevada []))
     = Some (Summary 1 1)
  /\ cached (manager_after (load_counties_for_region only_first_answered "West" utah_nevada []))
            "West"
     = Some (convert_to_geojson [salt_lake] "counties").
Proof. repeat split; vm_compute; reflexivity. Qed.

(** C7.  Of two sequential loads of the same region, the first of which
    succeeds (it is the one that stores a collection under the key), the
    second succeeds without sending any request and leaves the manager and
    the trace as the first load left them: [counties_data] is the very
    collection stored under the key.  If the region was not cached before,
    the first load stored the converted collection and sent one request
    per state of the region, and these are all the requests of the two
    calls: the acquisition ran exactly once. *)
Theorem second_load_served_from_cache (net : Network) (region : string) (m : Manager)
    (tr : Trace) (Hok : succeeded (load_counties_for_region net region m tr) = true) :
  let first := load_counties_for_region net region m tr in
  let second :=
    load_counties_for_region net region (manager_after first) (trace_after first) in
  let states :=
    single_outcomes net (length (region_partitions region m)) (requests_sent tr) in
  succeeded second = true
  /\ manager_after second = manager_after first
  /\ trace_after second = trace_after first
  /\ is_Some (counties_by_region (manager_after first) !! region)
  /\ counties_data (manager_after second) = counties_by_region (manager_after first) !! region
  /\ (counties_by_region m !! region = None ->
      cached (manager_after first) region =
        Some (convert_to_geojson (union_of states) "counties")
      /\ requests_sent (trace_after second) =
         (requests_sent tr + length (region_partitions region m))%nat
      /\ (0 < length (region_partitions region m))%nat).
Proof.
  intros first second states.
  destruct (counties_by_region m !! region) as [l|] eqn:Hc.
  - assert (Hfirst : first = (true, use_cached region l m, tr)).
    { unfold first, load_counties_for_region. now rewrite Hc. }
    assert (Hsecond : second = (true, use_cached region l m, tr)).
    { unfold second. rewrite Hfirst. unfold load_counties_for_region.
      cbn [manager_after trace_after fst snd counties_by_region use_cached].
      now rewrite Hc. }
    rewrite Hsecond, Hfirst.
    cbn [succeeded manager_after trace_after fst snd counties_by_region counties_data
         use_cached].
    rewrite Hc. repeat split; try discriminate. eexists; reflexivity.
  - destruct (load_counties_for_region_cases net region m tr Hc)
      as [(_ & Hf & _)|(Hu & _ & Hm & Ht)]; [congruence|].
    fold first states in Hm, Ht, Hu.
    assert (Hsecond : second = (true, manager_after first, trace_after first)).
    { unfold second. rewrite Hm. unfold load_counties_for_region.
      cbn [counties_by_region store_region]. now rewrite lookup_insert_eq. }
    rewrite Hsecond.
    change (succeeded (true, manager_after first, trace_after first)) with true.
    change (manager_after (true, manager_after first, trace_after first))
      with (manager_after first).
    change (trace_after (true, manager_after first, trace_after first))
      with (trace_after first).
    rewrite Hm, Ht. cbn [counties_by_region counties_data store_region].
    rewrite lookup_insert_eq. repeat split; try reflexivity.
    + eexists; reflexivity.
    + apply cached_stored.
    + destruct (states_fold net (region_partitions region m) empty_acc tr) as (_ & Hr & _).
      exact Hr.
    + destruct (region_partitions region m); [|cbn; lia].
      exfalso. apply Hu. reflexivity.
Qed.

Lemma second_load_served_from_cache_witness :
  trace_after
    (load_counties_for_region second_times_out "West"
       (manager_after (load_counties_for_region second_times_out "West" four_states []))
       (trace_after (load_counties_for_region second_times_out "West" four_states [])))
  = trace_after (load_counties_for_region second_times_out "West" four_states []).
Proof.
  assert (Hok : succeeded (load_counties_for_region second_times_out "West" four_states [])
                = true) by reflexivity.
  exact (proj1 (proj2 (proj2
           (second_load_served_from_cache second_times_out "West" four_states [] Hok)))).
Defined.

(** A load that fails is not the subject of the cache property: when
    every request times out the load stores nothing under the key, and a
    second load of the same key sends a request again. *)
Lemma failed_load_is_repeated :
  succeeded (load_counties_for_region always_times_out "West" utah_only []) = false
  /\ counties_by_region
       (manager_after (load_counties_for_region always_times_out "West" utah_only []))
       !! "West" = None
  /\ requests_sent
       (trace_after (load_counties_for_region always_times_out "West" utah_only [])) = 1%nat
  /\ requests_sent
       (trace_after
          (load_counties_for_region always_times_out "West"
             (manager_after (load_counties_for_region always_times_out "West" utah_only []))
             (trace_after (load_counties_for_region always_times_out "West" utah_only []))))
     = 2%nat.
Proof. repeat split; vm_compute; reflexivity. Qed.

End AcquisitionProps.

(** *** The rest of [APIDataManager] *)

Module LoadingProps.
Import Py Converter Acquisition Loading ConverterProps AcquisitionProps.

(** **** The reverse table of [__init__] *)

Lemma state_to_region_sound (s r : string) :
  state_to_region !! s = Some r -> exists S, REGIONS !! r = Some S /\ s ∈ S.
Proof.
  unfold state_to_region. revert s r.
  apply (map_fold_weak_ind
           (fun (acc : gmap string string) (m : gmap string (gset string)) =>
              forall s r, acc !! s = Some r -> exists S, m !! r = Some S /\ s ∈ S)).
  - intros s r H. rewrite lookup_empty in H. discriminate.
  - intros region states m acc Hfresh IH.
    assert (Hinner : forall s r,
               set_fold (fun (state : string) (a : gmap string string) => <[state := region]> a)
                        acc states !! s = Some r ->
               (r = region /\ s ∈ states) \/ exists S, m !! r = Some S /\ s ∈ S).
    { apply (set_fold_ind_L
               (fun (a : gmap string string) (X : gset string) =>
                  forall s r, a !! s = Some r ->
                    (r = region /\ s ∈ X) \/ exists S, m !! r = Some S /\ s ∈ S)).
      - intros s r H. right. now apply IH.
      - intros x X a Hx IHa s r H.
        destruct (decide (x = s)) as [->|Hne].
        + rewrite lookup_insert_eq in H. injection H as <-. left. split; [reflexivity | set_solver].
        + rewrite lookup_insert_ne in H by assumption.
          destruct (IHa s r H) as [[-> Hs]|Hold]; [left; split; [reflexivity | set_solver] | now right]. }
    intros s r H. destruct (Hinner s r H) as [[-> Hs]|(S & HS & Hs)].
    + exists states. now rewrite lookup_insert_eq.
    + exists S. split; [|assumption].
      rewrite lookup_insert_ne; [assumption | congruence].
Qed.

Ltac enumerate H :=
  repeat (apply elem_of_cons in H; destruct H as [H|H]);
  [..| apply elem_of_nil in H; destruct H].

Lemma state_to_region_complete (s r : string) (S : gset string) :
  REGIONS !! r = Some S -> s ∈ S -> state_to_region !! s = Some r.
Proof.
  intros Hr Hs. unfold REGIONS in Hr. apply elem_of_list_to_map_2 in Hr.
  enumerate Hr; injection Hr as -> ->;
    repeat (apply elem_of_union in Hs as [Hs|Hs];
            [apply elem_of_singleton in Hs; subst s; vm_compute; reflexivity|]);
    now apply not_elem_of_empty in Hs.
Qed.

(** The reverse table is the inverse of [REGIONS]. *)
Lemma region_of_state (s r : string) :
  get_state_region (VStr s) = Some r <-> s ∈ get_states_in_region r.
Proof.
  cbn [get_state_region]. unfold get_states_in_region. split.
  - intros H. destruct (state_to_region_sound s r H) as (S & -> & Hs). exact Hs.
  - intros H. destruct (REGIONS !! r) as [S|] eqn:Hr; [|cbn in H; set_solver].
    exact (state_to_region_complete s r S Hr H).
Qed.

Lemma regions_disjoint (s r1 r2 : string) :
  s ∈ get_states_in_region r1 -> s ∈ get_states_in_region r2 -> r1 = r2.
Proof.
  intros H1 H2. apply (proj2 (region_of_state _ _)) in H1, H2. congruence.
Qed.

(** X1.  The reverse table built by the constructor is the inverse of
    [REGIONS]: a state name is mapped to a region exactly when it is one of
    the states [get_states_in_region] returns for that region, so no state
    belongs to two regions; a name that is not a string has no region. *)
Theorem state_region_agrees (s r r' : string) :
  (get_state_region (VStr s) = Some r <-> s ∈ get_states_in_region r)
  /\ (s ∈ get_states_in_region r -> s ∈ get_states_in_region r' -> r = r')
  /\ (forall n : Z, get_state_region (VNum n) = None)
  /\ get_state_region VNull = None.
Proof.
  split; [apply region_of_state|].
  split; [apply regions_disjoint|].
  split; reflexivity.
Qed.

(** **** Conversion of a response *)

Lemma convert_to_geojson_map (data_type : string) (records : list ArcFeature)
    (acc : list Feature) :
  fold_left (append_feature data_type) records acc =
  acc ++ map (fun record => mkFeature
                (if String.eqb data_type "states" then state_properties (attributes record)
                 else if String.eqb data_type "counties"
                      then county_properties (attributes record) else ∅)
                (convert_arcgis_geometry_to_geojson (arc_rings record))) records.
Proof.
  revert acc. induction records as [|record records IH]; intros acc; cbn [fold_left map].
  - now rewrite app_nil_r.
  - rewrite IH. unfold append_feature. now rewrite <- app_assoc.
Qed.

Lemma convert_states (records : list ArcFeature) :
  convert_to_geojson records "states" =
  map (fun record => mkFeature (state_properties (attributes record))
                       (convert_arcgis_geometry_to_geojson (arc_rings record))) records.
Proof. unfold convert_to_geojson. rewrite convert_to_geojson_map. reflexivity. Qed.

Lemma convert_counties (records : list ArcFeature) :
  convert_to_geojson records "counties" =
  map (fun record => mkFeature (county_properties (attributes record))
                       (convert_arcgis_geometry_to_geojson (arc_rings record))) records.
Proof. unfold convert_to_geojson. rewrite convert_to_geojson_map. reflexivity. Qed.

Lemma state_properties_name (attrs : gmap string Value) :
  state_properties attrs !! "NAME" = Some (attr_get attrs "NAME" (VStr "")).
Proof. unfold state_properties. now rewrite lookup_insert_eq. Qed.

Lemma state_properties_fips (attrs : gmap string Value) :
  state_properties attrs !! "STATE" = Some (attr_get attrs "STATE" (VStr "")).
Proof.
  unfold state_properties.
  rewrite !lookup_insert_ne by discriminate. now rewrite lookup_insert_eq.
Qed.

(** Over features converted from a states response the FIPS loop never
    raises and keeps exactly the eligible codes, in order. *)
Lemma fips_of_converted_states (region : string) (records : list ArcFeature)
    (codes : list Value) :
  fold_left (fips_step (get_states_in_region region))
            (convert_to_geojson records "states") (Some codes) =
  Some (codes ++ flat_map (eligible_fips region) records).
Proof.
  rewrite convert_states.
  revert codes. induction records as [|record records IH]; intros codes.
  - cbn. now rewrite app_nil_r.
  - cbn [map fold_left flat_map]. unfold fips_step at 2. cbn [properties].
    rewrite state_properties_name, state_properties_fips. cbn [default from_option]. unfold Datatypes.id.
    unfold eligible_fips.
    destruct (name_in (attr_get (attributes record) "NAME" (VStr ""))
                      (get_states_in_region region)); cbn [andb]; [|apply IH].
    destruct (truthy (attr_get (attributes record) "STATE" (VStr "")));
      cbn [andb]; [|apply IH].
    destruct (excluded_fips (attr_get (attributes record) "STATE" (VStr "")));
      cbn [negb]; [apply IH|].
    rewrite IH. now rewrite <- app_assoc.
Qed.

(** **** [load_states_data] and [load_data_async] *)

(** X2.  [load_states_data] sends exactly one request and never sleeps; it
    succeeds exactly when the answer is a body without error, and leaves
    the manager alone otherwise.  After a success the states are the
    conversion of the answer's features, and for every region the FIPS
    loop of the regional loader does not raise: it yields, in order, the
    STATE codes of the records whose NAME is a state of the region, that
    are non-empty and are not 72 or 78. *)
Theorem states_load_then_partitions (net : Network) (m : Manager) (tr : Trace)
    (region : string) :
  let r := load_states_data net m tr in
  requests_sent (trace_after r) = S (requests_sent tr)
  /\ sleeps (trace_after r) = sleeps tr
  /\ succeeded r = negb (retriable (net (requests_sent tr)))
  /\ (succeeded r = false -> manager_after r = m)
  /\ (succeeded r = true ->
      states_data (manager_after r) =
        Some (convert_to_geojson (states_records net tr) "states")
      /\ region_fips_codes region (manager_after r) =
         Some (flat_map (eligible_fips region) (states_records net tr))).
Proof.
  cbv zeta. unfold load_states_data, states_records. cbn [requests_get].
  destruct (net (requests_sent tr)) as [ | | |body];
    [repeat split; easy | repeat split; easy | repeat split; easy | ].
  cbn [retriable]. destruct (has_error body); [repeat split; easy|].
  do 4 (split; [easy|]). intros _. split; [reflexivity|].
  unfold region_fips_codes.
  cbn [manager_after fst snd states_data assign_states_data mbind option_bind].
  apply fips_of_converted_states.
Qed.

Lemma states_load_then_partitions_witness :
  region_fips_codes "West"
    (manager_after (load_states_data
                      (fun _ => answer [arc_state "Utah" "49"; arc_state "Puerto Rico" "72";
                                        arc_state "Texas" "48"; arc_state "Idaho" "16"])
                      (manager_with_states []) []))
  = Some [VStr "49"; VStr "16"].
Proof.
  exact (proj2 (proj2 (proj2 (proj2 (proj2
    (states_load_then_partitions
       (fun _ => answer [arc_state "Utah" "49"; arc_state "Puerto Rico" "72";
                         arc_state "Texas" "48"; arc_state "Idaho" "16"])
       (manager_with_states []) [] "West")))) eq_refl)).
Defined.

Lemma load_states_data_result (net : Network) (m : Manager) (tr : Trace) :
  load_states_data net m tr =
  (negb (retriable (net (requests_sent tr))),
   (if retriable (net (requests_sent tr)) then m
    else assign_states_data (convert_to_geojson (states_records net tr) "states") m),
   Request states_url "1=1" :: tr).
Proof.
  unfold load_states_data, states_records. cbn [requests_get].
  destruct (net (requests_sent tr)) as [ | | |body]; try reflexivity.
  cbn [retriable]. destruct (has_error body); reflexivity.
Qed.

(** X3.  [load_data_async] succeeds exactly when the states load succeeds
    and, if counties were asked for, the county load that follows succeeds
    too.  A success leaves the states loaded, and the counties when asked
    for.  Without counties it sends one request; when the states request
    fails nothing further is sent and the manager is left alone. *)
Theorem load_data_async_outcome (net : Network) (load_counties : bool) (m : Manager)
    (tr : Trace) :
  let r := load_data_async net load_counties m tr in
  let states := load_states_data net m tr in
  let counties := load_counties_data net (manager_after states) (trace_after states) in
  succeeded r = succeeded states && (negb load_counties || succeeded counties)
  /\ (succeeded r = true ->
      is_data_loaded (manager_after r) = true
      /\ (load_counties = true -> are_counties_loaded (manager_after r) = true))
  /\ (load_counties = false -> requests_sent (trace_after r) = S (requests_sent tr))
  /\ (succeeded states = false ->
      succeeded r = false /\ manager_after r = m
      /\ requests_sent (trace_after r) = S (requests_sent tr)).
Proof.
  intros r states counties.
  assert (Hstates : states = (succeeded states, manager_after states, trace_after states))
    by (destruct states as [[? ?] ?]; reflexivity).
  assert (Hcounties :
            counties = (succeeded counties, manager_after counties, trace_after counties))
    by (destruct counties as [[? ?] ?]; reflexivity).
  assert (Hr : r =
    if negb (succeeded states) then (false, manager_after states, trace_after states)
    else if load_counties then
           if negb (succeeded counties)
           then (false, manager_after counties, trace_after counties)
           else (true, manager_after counties, trace_after counties)
         else (true, manager_after states, trace_after states)).
  { unfold r, load_data_async. fold states. rewrite Hstates.
    cbn [succeeded manager_after trace_after fst snd].
    destruct (negb (succeeded states)); [reflexivity|].
    destruct load_counties; [|reflexivity].
    fold counties. rewrite Hcounties.
    cbn [succeeded manager_after trace_after fst snd]. reflexivity. }
  pose proof (states_load_then_partitions net m tr "West") as Hs.
  cbv zeta in Hs. fold states in Hs.
  destruct Hs as (Hreq & _ & Hok & Hfail & Hgood).
  pose proof (load_counties_data_cases net (manager_after states) (trace_after states)) as Hc.
  cbv zeta in Hc. fold counties in Hc.
  rewrite Hr. clear Hr.
  destruct (succeeded states) eqn:Es; cbn [negb andb].
  - destruct (Hgood eq_refl) as (Hsd & _).
    destruct load_counties; cbn [negb orb].
    + destruct (succeeded counties) eqn:Ec; cbn [negb succeeded manager_after trace_after fst snd].
      * destruct Hc as [(_ & Hf & _)|(_ & _ & Hm & _)]; [congruence|].
        rewrite Hm. unfold is_data_loaded, are_counties_loaded.
        cbn [states_data counties_data assign_counties_data]. rewrite Hsd.
        repeat split; easy.
      * repeat split; easy.
    + cbn [succeeded manager_after trace_after fst snd].
      unfold is_data_loaded. rewrite Hsd.
      repeat split; first [easy | intros; exact Hreq].
  - cbn [succeeded manager_after trace_after fst snd].
    rewrite (Hfail eq_refl). repeat split; first [easy | intros; exact Hreq].
Qed.

Lemma load_data_async_outcome_witness :
  is_data_loaded
    (manager_after (load_data_async second_batch_fails false (manager_with_states []) []))
  = true.
Proof.
  exact (proj1 (proj1 (proj2
    (load_data_async_outcome second_batch_fails false (manager_with_states []) [])) eq_refl)).
Defined.

(** **** How many requests a numeric-ID load sends *)

Lemma sleeps_app (a b : Trace) : sleeps (a ++ b) = (sleeps a + sleeps b)%nat.
Proof. unfold sleeps. now rewrite List.filter_app, length_app. Qed.

Lemma batches_trace (net : Network) (batches : list (Z * Z)) (acc : Acc) (tr : Trace) :
  (requests_sent tr + length batches
   <= requests_sent (snd (fold_left (batch_step net) batches (acc, tr)))
   <= requests_sent tr + 3 * length batches)%nat
  /\ (sleeps (snd (fold_left (batch_step net) batches (acc, tr)))
      <= sleeps tr + 2 * length batches)%nat.
Proof.
  revert acc tr. induction batches as [|b batches IH]; intros acc tr.
  - cbn [fold_left length snd]. lia.
  - cbn [fold_left length]. unfold batch_step at 2 4 6. cbn [fst snd].
    rewrite (retry_loop_policy net 0).
    specialize (IH (apply_outcome (fst (three_attempts net (requests_sent tr))) acc)
                   (batch_events net (requests_sent tr) (objectid_where b.1 b.2) ++ tr)).
    rewrite requests_sent_app, sleeps_app, batch_events_requests in IH.
    pose proof (attempts_bounded net (requests_sent tr)) as Hb.
    pose proof (batch_events_sleeps net (requests_sent tr) (objectid_where b.1 b.2)) as Hs.
    unfold max_retries in Hb. destruct IH as [[I1 I2] I3].
    split; [split|].
    + etransitivity; [|exact I1]. lia.
    + etransitivity; [exact I2|]. lia.
    + etransitivity; [exact I3|]. lia.
Qed.

Lemma batches_sleeps_grow (net : Network) (batches : list (Z * Z)) (acc : Acc) (tr : Trace) :
  (sleeps tr <= sleeps (snd (fold_left (batch_step net) batches (acc, tr))))%nat.
Proof.
  revert acc tr. induction batches as [|b batches IH]; intros acc tr.
  - cbn [fold_left snd]. lia.
  - cbn [fold_left]. unfold batch_step at 2. cbn [fst snd].
    rewrite (retry_loop_policy net 0).
    specialize (IH (apply_outcome (fst (three_attempts net (requests_sent tr))) acc)
                   (batch_events net (requests_sent tr) (objectid_where b.1 b.2) ++ tr)).
    rewrite sleeps_app in IH. etransitivity; [|exact IH]. lia.
Qed.

(** X4.  A numeric-ID load sends the count request and then between one
    and three requests per batch, and sleeps at most twice per batch: with
    n batches it sends between n + 1 and 3n + 1 requests. *)
Theorem numeric_load_request_bounds (net : Network) (m : Manager) (tr : Trace) :
  let r := load_counties_data net m tr in
  let n := length (numeric_partitions net tr) in
  (requests_sent tr + 1 + n <= requests_sent (trace_after r)
   <= requests_sent tr + 1 + 3 * n)%nat
  /\ (sleeps tr <= sleeps (trace_after r) <= sleeps tr + 2 * n)%nat.
Proof.
  cbv zeta. unfold load_counties_data, numeric_partitions. cbn [requests_get].
  assert (Hnone : (requests_sent tr + 1 + 0
                   <= requests_sent (Request counties_url "1=1" :: tr)
                   <= requests_sent tr + 1 + 3 * 0)%nat
                  /\ (sleeps tr <= sleeps (Request counties_url "1=1" :: tr)
                      <= sleeps tr + 2 * 0)%nat).
  { change (requests_sent (Request counties_url "1=1" :: tr)) with (S (requests_sent tr)).
    change (sleeps (Request counties_url "1=1" :: tr)) with (sleeps tr). lia. }
  destruct (net (requests_sent tr)) as [ | | |body]; [exact Hnone ..|].
  destruct (has_error body); [exact Hnone|].
  destruct (default 0%Z (count body) =? 0)%Z eqn:Hzero.
  { apply Z.eqb_eq in Hzero. rewrite Hzero. exact Hnone. }
  clear Hnone.
  set (batches := batch_ranges (default 0%Z (count body))).
  pose proof (batches_trace net batches empty_acc (Request counties_url "1=1" :: tr)) as Hb.
  pose proof (batches_sleeps_grow net batches empty_acc (Request counties_url "1=1" :: tr))
    as Hmono.
  change (requests_sent (Request counties_url "1=1" :: tr)) with (S (requests_sent tr)) in Hb.
  change (sleeps (Request counties_url "1=1" :: tr)) with (sleeps tr) in Hb, Hmono.
  match goal with
  | |- context [fold_left ?f ?l ?a] => destruct (fold_left f l a) as [acc tr']
  end.
  cbn [snd] in Hb, Hmono.
  destruct (all_features acc); cbn [trace_after snd];
    change (requests_sent (Summary ?a ?b :: tr')) with (requests_sent tr');
    change (sleeps (Summary ?a ?b :: tr')) with (sleeps tr'); lia.
Qed.

(** **** What the loaders never change *)

Lemma store_extends_refl (s : list FeatureCollection) : store_extends s s.
Proof. intros l c H. exact H. Qed.

Lemma store_extends_snoc (s : list FeatureCollection) (c : FeatureCollection) :
  store_extends s (s ++ [c]).
Proof. intros l c' H. now apply lookup_app_l_Some. Qed.

Lemma preserved_refl (m : Manager) : preserved m m.
Proof. split; [apply store_extends_refl | auto]. Qed.

Lemma preserved_trans (a b c : Manager) : preserved a b -> preserved b c -> preserved a c.
Proof.
  intros [Hs1 Hc1] [Hs2 Hc2]. split.
  - intros l x H. apply Hs2, Hs1, H.
  - intros region x H. apply Hc2, Hc1, H.
Qed.

Lemma cached_same_table (m m' : Manager) :
  counties_by_region m' = counties_by_region m ->
  store_extends (store m) (store m') -> preserved m m'.
Proof.
  intros Ht Hs. split; [exact Hs|].
  intros region c. unfold cached. rewrite Ht.
  match goal with |- context [?o ≫= _] => destruct o as [l|] end;
    cbn; [exact (Hs l c) | discriminate].
Qed.

Lemma preserved_assign_counties (c : FeatureCollection) (m : Manager) :
  preserved m (assign_counties_data c m).
Proof. apply cached_same_table; [reflexivity | apply store_extends_snoc]. Qed.

Lemma preserved_assign_states (c : FeatureCollection) (m : Manager) :
  preserved m (assign_states_data c m).
Proof. apply cached_same_table; [reflexivity | apply store_extends_refl]. Qed.

Lemma preserved_use_cached (region : string) (l : loc) (m : Manager) :
  preserved m (use_cached region l m).
Proof. apply cached_same_table; [reflexivity | apply store_extends_refl]. Qed.

Lemma preserved_store_region (region : string) (c : FeatureCollection) (m : Manager) :
  counties_by_region m !! region = None -> preserved m (store_region region c m).
Proof.
  intros Hmiss. split; [apply store_extends_snoc|].
  intros key x. unfold cached. cbn [counties_by_region store store_region].
  unfold loc in *.
  destruct (decide (region = key)) as [<-|Hne].
  - rewrite Hmiss. discriminate.
  - rewrite lookup_insert_ne by assumption.
    match goal with |- context [?o ≫= _] => destruct o as [l|] end;
      cbn; [|discriminate].
    exact (store_extends_snoc (store m) c l x).
Qed.

Lemma preserved_load_states (net : Network) (m : Manager) (tr : Trace) :
  preserved m (manager_after (load_states_data net m tr)).
Proof.
  rewrite load_states_data_result. cbn [manager_after fst snd].
  destruct (retriable _); [apply preserved_refl | apply preserved_assign_states].
Qed.

Lemma preserved_load_counties (net : Network) (m : Manager) (tr : Trace) :
  preserved m (manager_after (load_counties_data net m tr)).
Proof.
  destruct (load_counties_data_cases net m tr) as [(_ & _ & ->)|(_ & _ & -> & _)];
    [apply preserved_refl | apply preserved_assign_counties].
Qed.

Lemma preserved_load_region (net : Network) (region : string) (m : Manager) (tr : Trace) :
  preserved m (manager_after (load_counties_for_region net region m tr)).
Proof.
  destruct (counties_by_region m !! region) as [l|] eqn:Hc.
  - unfold load_counties_for_region. rewrite Hc. apply preserved_use_cached.
  - destruct (load_counties_for_region_cases net region m tr Hc)
      as [(_ & _ & ->)|(_ & _ & -> & _)];
      [apply preserved_refl | now apply preserved_store_region].
Qed.

(** X5.  No loader changes a collection once it is stored, and none
    removes or replaces a cache entry: after [load_states_data],
    [load_counties_data], [load_counties_for_region] or [load_data_async],
    every location of the store holds the collection it held before and
    every region that was cached is cached with the same collection. *)
Theorem loaders_preserve_collections (net : Network) (region : string)
    (load_counties : bool) (m : Manager) (tr : Trace) :
  preserved m (manager_after (load_states_data net m tr))
  /\ preserved m (manager_after (load_counties_data net m tr))
  /\ preserved m (manager_after (load_counties_for_region net region m tr))
  /\ preserved m (manager_after (load_data_async net load_counties m tr)).
Proof.
  split; [apply preserved_load_states|].
  split; [apply preserved_load_counties|].
  split; [apply preserved_load_region|].
  unfold load_data_async.
  pose proof (preserved_load_states net m tr) as Hs.
  destruct (load_states_data net m tr) as [[ok m1] tr1]. cbn [manager_after fst snd] in Hs.
  destruct ok; cbn [negb]; [|exact Hs].
  destruct load_counties; [|exact Hs].
  pose proof (preserved_load_counties net m1 tr1) as Hc.
  destruct (load_counties_data net m1 tr1) as [[ok2 m2] tr2].
  cbn [manager_after fst snd] in Hc.
  destruct ok2; cbn [negb manager_after fst snd]; exact (preserved_trans _ _ _ Hs Hc).
Qed.

(** **** Regions without partitions *)

Lemma unknown_region_no_states (region : string) :
  REGIONS !! region = None -> get_states_in_region region = ∅.
Proof. intros H. unfold get_states_in_region. now rewrite H. Qed.

(** X6.  A regional load that finds no FIPS code fails at once: it sends
    no request and leaves the manager and the trace as they were.  This is
    the case for a region that is not in [REGIONS] and when the states
    have not been loaded. *)
Theorem region_without_partitions_fails (net : Network) (region : string) (m : Manager)
    (tr : Trace)
    (Hmiss : counties_by_region m !! region = None)
    (Hnone : region_partitions region m = []) :
  load_counties_for_region net region m tr = (false, m, tr)
  /\ (forall other : string, REGIONS !! other = None -> region_partitions other m = [])
  /\ (forall other : string, states_data m = None -> region_partitions other m = []).
Proof.
  split; [|split].
  - unfold load_counties_for_region. rewrite Hmiss.
    destruct (bool_decide (get_states_in_region region = ∅)); [reflexivity|].
    unfold region_partitions in Hnone.
    destruct (region_fips_codes region m) as [[|c codes]|]; [reflexivity | | reflexivity].
    discriminate Hnone.
  - intros other H. apply empty_region_partitions. now apply unknown_region_no_states.
  - intros other H. unfold region_partitions, region_fips_codes. now rewrite H.
Qed.

Lemma region_without_partitions_fails_witness :
  load_counties_for_region always_times_out "Atlantis" four_states [] = (false, four_states, []).
Proof.
  assert (Hmiss : counties_by_region four_states !! "Atlantis" = None) by reflexivity.
  assert (Hnone : region_partitions "Atlantis" four_states = []) by reflexivity.
  exact (proj1 (region_without_partitions_fails always_times_out "Atlantis" four_states []
                  Hmiss Hnone)).
Defined.

(** **** The FIPS codes the regional loader asks for *)

Lemma fips_step_invariant (names : gset string) (states : list Feature)
    (P : Value -> Prop) (codes : list Value) :
  (forall feature name,
      In feature states -> properties feature !! "NAME" = Some name ->
      name_in name names = true ->
      truthy (default (VStr "") (properties feature !! "STATE")) = true ->
      excluded_fips (default (VStr "") (properties feature !! "STATE")) = false ->
      P (default (VStr "") (properties feature !! "STATE"))) ->
  Forall P codes ->
  forall result, fold_left (fips_step names) states (Some codes) = Some result ->
  Forall P result.
Proof.
  revert codes. induction states as [|s states IH]; intros codes Hstep Hcodes result Hres.
  - cbn in Hres. now injection Hres as <-.
  - cbn [fold_left] in Hres. unfold fips_step at 2 in Hres.
    destruct (properties s !! "NAME") as [name|] eqn:Hname;
      [|rewrite fips_step_raised in Hres; discriminate].
    assert (Hrest : forall feature name0,
               In feature states -> properties feature !! "NAME" = Some name0 ->
               name_in name0 names = true ->
               truthy (default (VStr "") (properties feature !! "STATE")) = true ->
               excluded_fips (default (VStr "") (properties feature !! "STATE")) = false ->
               P (default (VStr "") (properties feature !! "STATE")))
      by (intros f n Hin; apply Hstep; now right).
    destruct (name_in name names) eqn:Hin; [|exact (IH codes Hrest Hcodes result Hres)].
    destruct (truthy (default (VStr "") (properties s !! "STATE"))) eqn:Ht;
      cbn [andb] in Hres; [|exact (IH codes Hrest Hcodes result Hres)].
    destruct (excluded_fips (default (VStr "") (properties s !! "STATE"))) eqn:Hx;
      cbn [negb] in Hres; [exact (IH codes Hrest Hcodes result Hres)|].
    refine (IH _ Hrest _ result Hres).
    apply Forall_app. split; [exact Hcodes|].
    constructor; [|constructor].
    apply (Hstep s name); [now left | assumption ..].
Qed.

(** X7.  Every FIPS code the regional loader asks for is the STATE
    property of a loaded state whose NAME is one of the region's states;
    it is non-empty and it is neither 72 (Puerto Rico) nor 78 (U.S. Virgin
    Islands). *)
Theorem region_partitions_are_states (region : string) (m : Manager) :
  Forall (fun code =>
            truthy code = true /\ code <> VStr "72" /\ code <> VStr "78"
            /\ exists states feature name,
                 states_data m = Some states /\ In feature states
                 /\ properties feature !! "NAME" = Some (VStr name)
                 /\ name ∈ get_states_in_region region
                 /\ properties feature !! "STATE" = Some code)
         (region_partitions region m).
Proof.
  unfold region_partitions, region_fips_codes.
  destruct (states_data m) as [states|]; [|constructor]. cbn [mbind option_bind].
  destruct (fold_left (fips_step (get_states_in_region region)) states (Some []))
    as [result|] eqn:Hres; [|constructor].
  cbn [default from_option]. unfold Datatypes.id.
  refine (fips_step_invariant _ states _ [] _ ltac:(constructor) result Hres).
  intros feature name Hin Hname Hreg Ht Hx.
  split; [exact Ht|].
  split; [intros E; rewrite E in Hx; discriminate|].
  split; [intros E; rewrite E in Hx; discriminate|].
  destruct name as [name| |]; cbn [name_in] in Hreg; try discriminate.
  apply bool_decide_eq_true in Hreg.
  exists states, feature, name. repeat split; try assumption.
  destruct (properties feature !! "STATE") as [code|] eqn:Hs; [reflexivity|].
  cbn in Ht. discriminate.
Qed.

(** **** What the converter emits *)

(** X8.  The converter keeps every record, in order.  A county feature
    carries exactly the properties NAME, STATE and POP100, read from the
    record's attributes with the defaults "", "" and 0 for an absent
    attribute (an attribute that is present is kept as it is, null
    included); a state feature carries the same code under STATE_ABBR and
    STUSPS.  Each geometry is the converted geometry of its record. *)
Theorem converted_features_follow_records (records : list ArcFeature) :
  length (convert_to_geojson records "counties") = length records
  /\ length (convert_to_geojson records "states") = length records
  /\ Forall2 (fun record feature =>
                geometry feature = convert_arcgis_geometry_to_geojson (arc_rings record)
                /\ properties feature !! "NAME"
                   = Some (default (VStr "") (attributes record !! "NAME"))
                /\ properties feature !! "STATE"
                   = Some (default (VStr "") (attributes record !! "STATE"))
                /\ properties feature !! "POP100"
                   = Some (default (VNum 0) (attributes record !! "POP100"))
                /\ dom (properties feature) = {["NAME"; "STATE"; "POP100"]})
             records (convert_to_geojson records "counties")
  /\ Forall2 (fun record feature =>
                geometry feature = convert_arcgis_geometry_to_geojson (arc_rings record)
                /\ properties feature !! "NAME"
                   = Some (default (VStr "") (attributes record !! "NAME"))
                /\ properties feature !! "STATE"
                   = Some (default (VStr "") (attributes record !! "STATE"))
                /\ properties feature !! "STATE_ABBR" = properties feature !! "STUSPS"
                /\ is_Some (properties feature !! "STATE_ABBR"))
             records (convert_to_geojson records "states").
Proof.
  rewrite convert_counties, convert_states, !length_map.
  split; [reflexivity|]. split; [reflexivity|]. split.
  - induction records as [|record records IH]; cbn [map]; constructor; [|exact IH].
    cbn [geometry properties]. unfold county_properties, attr_get.
    split; [reflexivity|].
    split; [now rewrite lookup_insert_eq|].
    split; [rewrite lookup_insert_ne by discriminate; now rewrite lookup_insert_eq|].
    split; [rewrite !lookup_insert_ne by discriminate; now rewrite lookup_insert_eq|].
    rewrite !dom_insert_L, dom_empty_L. set_solver.
  - induction records as [|record records IH]; cbn [map]; constructor; [|exact IH].
    cbn [geometry properties].
    split; [reflexivity|].
    split; [apply state_properties_name|].
    split; [apply state_properties_fips|].
    unfold state_properties.
    rewrite !(lookup_insert_ne _ "NAME") by discriminate.
    rewrite lookup_insert_eq.
    rewrite (lookup_insert_ne _ "STATE_ABBR") by discriminate.
    rewrite lookup_insert_eq. split; [reflexivity | eexists; reflexivity].
Qed.

Lemma convert_ring_length (ring : Ring) : length (convert_ring ring) = length ring.
Proof. unfold convert_ring. apply length_map. Qed.

(** X9.  For a record that has rings, the geometry the converter emits
    is well formed for its consumers: a Polygon has exactly one ring, the
    projection of a ring of the record; a MultiPolygon never has exactly
    one polygon, and each of its polygons is a single ring, the projection
    of a ring of the record with at least four points.  Projection keeps
    the number of points of a ring. *)
Theorem converted_geometry_shape (rings : list Ring) :
  match convert_arcgis_geometry_to_geojson (Some rings) with
  | Polygon coordinates =>
      exists ring, In ring rings /\ coordinates = [convert_ring ring]
  | MultiPolygon polygons =>
      length polygons <> 1%nat
      /\ Forall (fun polygon =>
                   exists ring, In ring rings /\ polygon = [convert_ring ring]
                                /\ (4 <= length ring)%nat
                                /\ length (convert_ring ring) = length ring)
                polygons
  end.
Proof.
  unfold convert_arcgis_geometry_to_geojson.
  rewrite converted_rings_map. cbn [app]. rewrite length_map.
  destruct (length rings =? 1)%nat eqn:Hone.
  { apply Nat.eqb_eq in Hone. destruct rings as [|ring [|? ?]]; try discriminate.
    exists ring. split; [now left | reflexivity]. }
  rewrite (valid_polygons_filter _ []). cbn [app].
  match goal with
  | |- context [List.filter ?f ?l] => set (kept := List.filter f l)
  end.
  assert (Hkept : Forall (fun converted =>
                            exists ring, In ring rings /\ converted = convert_ring ring
                                         /\ (4 <= length ring)%nat) kept).
  { apply List.Forall_forall. intros converted Hin. unfold kept in Hin.
    apply filter_In in Hin as [Hin Hlen]. apply in_map_iff in Hin as (ring & <- & Hin).
    exists ring. rewrite convert_ring_length in Hlen. apply Nat.leb_le in Hlen. auto. }
  clearbody kept. destruct kept as [|r1 [|r2 kept]]; cbn [map].
  - split; [discriminate | constructor].
  - pose proof (List.Forall_inv Hkept) as (ring & Hin & -> & _). exists ring. auto.
  - split; [discriminate|].
    change (Forall (fun polygon : list Ring =>
                      exists ring, In ring rings /\ polygon = [convert_ring ring]
                                   /\ (4 <= length ring)%nat
                                   /\ length (convert_ring ring) = length ring)
                   (map (fun ring : Ring => [ring]) (r1 :: r2 :: kept))).
    apply List.Forall_map. revert Hkept. apply List.Forall_impl.
    intros converted (ring & Hin & -> & Hlen).
    exists ring. repeat split; try assumption. apply convert_ring_length.
Qed.

(** **** [get_counties_in_region] *)

Lemma append_regional_all (features acc : list Feature) :
  fold_left append_regional features acc = acc ++ features.
Proof.
  revert acc. induction features as [|f features IH]; intros acc; cbn [fold_left].
  - now rewrite app_nil_r.
  - rewrite IH. unfold append_regional. now rewrite <- app_assoc.
Qed.

(** X10.  [APIDataManager.get_counties_in_region] does not filter: for
    every region and every manager it returns all the counties currently
    loaded, the same for every region asked for, and none when nothing is
    loaded, as on the manager [__init__] leaves.  After a regional load
    that succeeded it returns the collection cached for the loaded region
    whatever region is asked for: when the region was not cached before,
    the converted records of all the states of the loaded region that
    answered.  After a regional load that failed it returns what it
    returned before. *)
Theorem get_counties_ignores_region (net : Network) (loaded asked other : string)
    (m : Manager) (tr : Trace) :
  let after := manager_after (load_counties_for_region net loaded m tr) in
  let states :=
    single_outcomes net (length (region_partitions loaded m)) (requests_sent tr) in
  get_counties_in_region asked m = default [] (counties_of m)
  /\ get_counties_in_region asked m = get_counties_in_region other m
  /\ (counties_data m = None -> get_counties_in_region asked m = [])
  /\ get_counties_in_region asked new_manager = []
  /\ (succeeded (load_counties_for_region net loaded m tr) = true ->
      get_counties_in_region asked after = default [] (cached after loaded))
  /\ (succeeded (load_counties_for_region net loaded m tr) = true ->
      counties_by_region m !! loaded = None ->
      get_counties_in_region asked after
      = convert_to_geojson (union_of states) "counties")
  /\ (succeeded (load_counties_for_region net loaded m tr) = false ->
      get_counties_in_region asked after = get_counties_in_region asked m).
Proof.
  intros after states.
  assert (Hall : forall region m', get_counties_in_region region m' = default [] (counties_of m')).
  { intros region m'. unfold get_counties_in_region.
    destruct (counties_of m') as [features|]; [|reflexivity].
    now rewrite append_regional_all. }
  split; [apply Hall|]. split; [now rewrite !Hall|].
  split; [intros Hnone; rewrite Hall; unfold counties_of; now rewrite Hnone|].
  split; [reflexivity|].
  split; [|split].
  - intros Hok. rewrite Hall. f_equal. unfold after.
    destruct (counties_by_region m !! loaded) as [l|] eqn:Hc.
    + unfold load_counties_for_region. rewrite Hc.
      unfold counties_of, cached.
      cbn [manager_after fst snd counties_data counties_by_region store use_cached].
      unfold loc in *. now rewrite Hc.
    + destruct (load_counties_for_region_cases net loaded m tr Hc)
        as [(_ & Hf & _)|(_ & _ & -> & _)]; [congruence|].
      now rewrite counties_of_stored, cached_stored.
  - intros Hok Hc. rewrite Hall. unfold after.
    destruct (load_counties_for_region_cases net loaded m tr Hc)
      as [(_ & Hf & _)|(_ & _ & -> & _)]; [congruence|].
    now rewrite counties_of_stored.
  - intros Hfail. unfold after.
    destruct (counties_by_region m !! loaded) as [l|] eqn:Hc.
    + unfold load_counties_for_region in Hfail. rewrite Hc in Hfail. discriminate Hfail.
    + destruct (load_counties_for_region_cases net loaded m tr Hc)
        as [(_ & _ & ->)|(_ & Hs & _)]; [reflexivity | congruence].
Qed.

Lemma get_counties_ignores_region_witness :
  get_counties_in_region "Midwest"
    (manager_after (load_counties_for_region second_times_out "West" four_states []))
  = default []
      (cached (manager_after (load_counties_for_region second_times_out "West" four_states []))
              "West").
Proof.
  assert (Hok : succeeded (load_counties_for_region second_times_out "West" four_states [])
                = true) by reflexivity.
  exact (proj1 (proj2 (proj2 (proj2 (proj2
           (get_counties_ignores_region second_times_out "West" "Midwest"
              "West" four_states []))))) Hok).
Defined.

End LoadingProps.

(** *** Class lookup, class breaks and legend *)

Module ChoroplethProps.
Import Py Classifier Choropleth ClassifierProps.
Local Open Scope Q_scope.

(** **** [_get_class_index] *)

Lemma first_class_range (breaks : list Q) (i k : Z) (v : Q) :
  first_class i v breaks = Some k -> (i <= k < i + Z.of_nat (length breaks))%Z.
Proof.
  revert i. induction breaks as [|b rest IH]; intros i H; cbn [first_class] in H.
  - discriminate.
  - destruct (Qle_bool v b).
    + injection H as <-. cbn [length]. lia.
    + apply IH in H. cbn [length]. lia.
Qed.

(** The loop returns the first index whose break covers the value. *)
Lemma first_class_first_fit (breaks : list Q) (i k : Z) (v : Q) :
  first_class i v breaks = Some k ->
  (exists b, breaks !! Z.to_nat (k - i) = Some b /\ v <= b)
  /\ forall (j : nat) (b' : Q),
       (Z.of_nat j < k - i)%Z -> breaks !! j = Some b' -> b' < v.
Proof.
  revert i. induction breaks as [|b rest IH]; intros i H; cbn [first_class] in H.
  - discriminate.
  - destruct (Qle_bool v b) eqn:Hle.
    + injection H as <-. rewrite Z.sub_diag. split.
      * exists b. split; [reflexivity | now apply Qle_bool_iff].
      * intros j b' Hj. lia.
    + pose proof (first_class_range _ _ _ _ H) as Hr.
      destruct (IH _ H) as ((b0 & Hb0 & Hv) & Hbefore). split.
      * exists b0. split; [|exact Hv].
        replace (Z.to_nat (k - i)) with (S (Z.to_nat (k - (i + 1)))) by lia. exact Hb0.
      * intros [|j] b' Hj Hl.
        -- cbn in Hl. injection Hl as <-. apply Qnot_le_lt. intros Hc.
           apply Qle_bool_iff in Hc. congruence.
        -- apply (Hbefore j b'); [lia | exact Hl].
Qed.

Lemma first_class_none (breaks : list Q) (i : Z) (v : Q) :
  first_class i v breaks = None <-> forall b, In b breaks -> b < v.
Proof.
  revert i. induction breaks as [|b rest IH]; intros i; cbn [first_class].
  - split; [intros _ b [] | reflexivity].
  - destruct (Qle_bool v b) eqn:Hle.
    + split; [discriminate|]. intros H. exfalso.
      apply Qle_bool_iff in Hle. specialize (H b (or_introl eq_refl)).
      exact (Qlt_not_le _ _ H Hle).
    + rewrite IH. split.
      * intros H b' [<-|Hin]; [|now apply H].
        apply Qnot_le_lt. intros Hc. apply Qle_bool_iff in Hc. congruence.
      * intros H b' Hin. apply H. now right.
Qed.

Lemma first_class_monotone (breaks : list Q) (i : Z) (v v' : Q) :
  v <= v' ->
  match first_class i v breaks, first_class i v' breaks with
  | Some k, Some k' => (k <= k')%Z
  | Some k, None => True
  | None, Some _ => False
  | None, None => True
  end.
Proof.
  intros Hv. revert i. induction breaks as [|b rest IH]; intros i; cbn [first_class].
  - exact I.
  - destruct (Qle_bool v' b) eqn:H'.
    + apply Qle_bool_iff in H'.
      assert (H : Qle_bool v b = true) by (apply Qle_bool_iff; eapply Qle_trans; eassumption).
      rewrite H. lia.
    + destruct (Qle_bool v b) eqn:H.
      * destruct (first_class (i + 1) v' rest) as [k'|] eqn:Hk'; [|exact I].
        apply first_class_range in Hk'. lia.
      * apply IH.
Qed.

(** X11.  For a non-empty break sequence the class index is a valid
    position; it does not decrease when the value grows, whatever the
    breaks; when some break covers the value it is the first such break (a
    value equal to a break falls in that break's class, every earlier break
    is below the value); when the value exceeds every break it is the last
    position.  For an empty sequence it is -1. *)
Theorem class_index_first_fit (v v' : Q) (breaks : list Q)
    (Hbreaks : breaks <> []) (Hv : v <= v') :
  (0 <= get_class_index v breaks < Z.of_nat (length breaks))%Z
  /\ (get_class_index v breaks <= get_class_index v' breaks)%Z
  /\ ((exists b, In b breaks /\ v <= b) ->
      (exists b, breaks !! Z.to_nat (get_class_index v breaks) = Some b /\ v <= b)
      /\ forall (j : nat) (b' : Q),
           (Z.of_nat j < get_class_index v breaks)%Z -> breaks !! j = Some b' -> b' < v)
  /\ ((forall b, In b breaks -> b < v) ->
      get_class_index v breaks = (Z.of_nat (length breaks) - 1)%Z)
  /\ get_class_index v [] = (-1)%Z.
Proof.
  assert (Hlen : (0 < Z.of_nat (length breaks))%Z) by (destruct breaks; [congruence | cbn; lia]).
  unfold get_class_index.
  split; [|split; [|split; [|split]]].
  - destruct (first_class 0 v breaks) as [k|] eqn:Hk; cbn.
    + apply first_class_range in Hk. lia.
    + lia.
  - pose proof (first_class_monotone breaks 0 v v' Hv) as Hm.
    destruct (first_class 0 v breaks) as [k|] eqn:Hk;
      destruct (first_class 0 v' breaks) as [k'|] eqn:Hk'; cbn; try lia; try tauto.
    apply first_class_range in Hk. lia.
  - intros (b & Hin & Hle).
    destruct (first_class 0 v breaks) as [k|] eqn:Hk; cbn.
    + destruct (first_class_first_fit _ _ _ _ Hk) as (Hfit & Hbefore).
      rewrite Z.sub_0_r in Hfit. split; [exact Hfit|].
      intros j b' Hj. apply Hbefore. lia.
    + exfalso. pose proof (proj1 (first_class_none _ _ _) Hk b Hin) as Hlt.
      exact (Qlt_not_le _ _ Hlt Hle).
  - intros Hall. apply first_class_none with (i := 0%Z) in Hall. now rewrite Hall.
  - reflexivity.
Qed.

Lemma class_index_first_fit_witness :
  Z.le (get_class_index 26 [18; 26; 34; 42; 50]) (get_class_index 30 [18; 26; 34; 42; 50]).
Proof.
  assert (Hbreaks : [18; 26; 34; 42; 50] <> ([] : list Q)) by discriminate.
  assert (Hv : 26 <= 30) by (apply Qle_bool_iff; reflexivity).
  exact (proj1 (proj2 (class_index_first_fit 26 30 [18; 26; 34; 42; 50] Hbreaks Hv))).
Defined.

(** **** [sorted] sorts *)

Lemma insert_sorted_sorted (x : Q) (l : list Q) :
  StronglySorted Qle l -> StronglySorted Qle (insert_sorted x l).
Proof.
  induction 1 as [|h t Hs IH Hh]; cbn [insert_sorted].
  - constructor; [constructor | constructor].
  - destruct (Qle_bool x h) eqn:Hle.
    + apply Qle_bool_iff in Hle. constructor; [constructor; assumption|].
      constructor; [exact Hle|].
      revert Hh. apply List.Forall_impl. intros a Ha. eapply Qle_trans; eassumption.
    + assert (Hhx : h <= x).
      { apply Qlt_le_weak, Qnot_le_lt. intros Hc. apply Qle_bool_iff in Hc. congruence. }
      constructor; [exact IH|].
      apply List.Forall_forall. intros a Ha. apply insert_sorted_In in Ha as [->|Ha].
      * exact Hhx.
      * exact (proj1 (List.Forall_forall _ _) Hh a Ha).
Qed.

Lemma sorted_sorted (data : list Q) : StronglySorted Qle (sorted data).
Proof.
  induction data as [|x data IH]; [constructor|].
  cbn [sorted fold_right]. fold (sorted data). now apply insert_sorted_sorted.
Qed.

Lemma strongly_sorted_nth (l : list Q) :
  StronglySorted Qle l ->
  forall i j : nat, (i <= j < length l)%nat -> nth i l 0 <= nth j l 0.
Proof.
  induction 1 as [|h t Hs IH Hh]; intros i j Hij; cbn [length] in Hij; [lia|].
  destruct i as [|i], j as [|j]; cbn [nth]; try lia.
  - apply Qle_refl.
  - apply (proj1 (List.Forall_forall _ _) Hh). apply nth_In. lia.
  - apply IH. lia.
Qed.

Lemma sorted_nth (data : list Q) (i j : nat) :
  (i <= j < length data)%nat -> nth i (sorted data) 0 <= nth j (sorted data) 0.
Proof.
  intros H. apply strongly_sorted_nth; [apply sorted_sorted|].
  now rewrite sorted_length.
Qed.

(** **** Linear interpolation over a sorted array *)

Lemma floor_in_range (arr : list Q) (h : Q) :
  0 <= h <= inject_Z (Z.of_nat (length arr) - 1) ->
  (0 <= Qfloor h <= Z.of_nat (length arr) - 1)%Z.
Proof.
  intros [Hlo Hhi]. split.
  - change 0%Z with (Qfloor 0). now apply Qfloor_resp_le.
  - rewrite <- (Qfloor_Z (Z.of_nat (length arr) - 1)). now apply Qfloor_resp_le.
Qed.

Lemma fraction_in_range (h : Q) :
  0 <= h - inject_Z (Qfloor h) /\ h - inject_Z (Qfloor h) <= 1.
Proof.
  pose proof (Qfloor_le h) as Hlo. pose proof (Qlt_floor h) as Hhi.
  rewrite inject_Z_plus in Hhi. change (inject_Z 1) with 1 in Hhi.
  split; Lqa.lra.
Qed.

Lemma neighbours_ordered (arr : list Q) (h : Q) :
  StronglySorted Qle arr ->
  0 <= h <= inject_Z (Z.of_nat (length arr) - 1) ->
  nth (Z.to_nat (Qfloor h)) arr 0
  <= nth (Z.to_nat (Z.min (Qfloor h + 1) (Z.of_nat (length arr) - 1))) arr 0.
Proof.
  intros Hsorted Hh. pose proof (floor_in_range arr h Hh) as Hf.
  apply strongly_sorted_nth; [exact Hsorted | lia].
Qed.

(** The interpolated value lies between its two neighbours. *)
Lemma interpolate_between (arr : list Q) (h : Q) :
  StronglySorted Qle arr ->
  0 <= h <= inject_Z (Z.of_nat (length arr) - 1) ->
  nth (Z.to_nat (Qfloor h)) arr 0 <= interpolate arr h
  /\ interpolate arr h
     <= nth (Z.to_nat (Z.min (Qfloor h + 1) (Z.of_nat (length arr) - 1))) arr 0.
Proof.
  intros Hsorted Hh. pose proof (neighbours_ordered arr h Hsorted Hh) as Hord.
  destruct (fraction_in_range h) as [Hg0 Hg1].
  unfold interpolate.
  set (lo := nth (Z.to_nat (Qfloor h)) arr 0) in *.
  set (hi := nth (Z.to_nat (Z.min (Qfloor h + 1) (Z.of_nat (length arr) - 1))) arr 0) in *.
  set (g := h - inject_Z (Qfloor h)) in *.
  assert (H0 : 0 <= (hi - lo) * g) by (apply Qmult_le_0_compat; Lqa.lra).
  assert (H1 : 0 <= (hi - lo) * (1 - g)) by (apply Qmult_le_0_compat; Lqa.lra).
  split; Lqa.lra.
Qed.

(** The interpolated value does not decrease with the virtual index. *)
Lemma interpolate_monotone (arr : list Q) (h h' : Q) :
  StronglySorted Qle arr ->
  0 <= h -> h <= h' -> h' <= inject_Z (Z.of_nat (length arr) - 1) ->
  interpolate arr h <= interpolate arr h'.
Proof.
  intros Hsorted H0 Hhh Hlast.
  assert (Hh : 0 <= h <= inject_Z (Z.of_nat (length arr) - 1))
    by (split; [assumption | eapply Qle_trans; eassumption]).
  assert (Hh' : 0 <= h' <= inject_Z (Z.of_nat (length arr) - 1))
    by (split; [eapply Qle_trans; eassumption | assumption]).
  pose proof (floor_in_range arr h Hh) as Hf. pose proof (floor_in_range arr h' Hh') as Hf'.
  pose proof (Qfloor_resp_le h h' Hhh) as Hff.
  destruct (Z.eq_dec (Qfloor h) (Qfloor h')) as [Heq|Hne].
  - pose proof (neighbours_ordered arr h Hsorted Hh) as Hord.
    unfold interpolate. rewrite <- Heq.
    set (lo := nth (Z.to_nat (Qfloor h)) arr 0) in *.
    set (hi := nth (Z.to_nat (Z.min (Qfloor h + 1) (Z.of_nat (length arr) - 1))) arr 0) in *.
    assert (Hd : 0 <= (hi - lo) * (h' - h)) by (apply Qmult_le_0_compat; Lqa.lra).
    Lqa.lra.
  - destruct (interpolate_between arr h Hsorted Hh) as [_ Hup].
    destruct (interpolate_between arr h' Hsorted Hh') as [Hlow _].
    eapply Qle_trans; [exact Hup|]. eapply Qle_trans; [|exact Hlow].
    apply strongly_sorted_nth; [exact Hsorted | lia].
Qed.

(** The interpolated value never exceeds the last element. *)
Lemma interpolate_below_last (arr : list Q) (h : Q) :
  StronglySorted Qle arr ->
  0 <= h <= inject_Z (Z.of_nat (length arr) - 1) ->
  interpolate arr h <= nth (Z.to_nat (Z.of_nat (length arr) - 1)) arr 0.
Proof.
  intros Hsorted Hh. destruct (interpolate_between arr h Hsorted Hh) as [_ Hup].
  pose proof (floor_in_range arr h Hh) as Hf.
  eapply Qle_trans; [exact Hup|].
  apply strongly_sorted_nth; [exact Hsorted | lia].
Qed.

(** **** The breaks of the three methods *)

Lemma Qmax_cases (x y : Q) : Qmax x y = x \/ Qmax x y = y.
Proof.
  unfold Qmax, GenericMinMax.gmax. destruct (x ?= y); auto.
Qed.

Lemma fold_max_In (t : list Q) (h : Q) : In (fold_left Qmax t h) (h :: t).
Proof.
  revert h. induction t as [|a t IH]; intros h; cbn [fold_left].
  - now left.
  - destruct (IH (Qmax h a)) as [H|H].
    + destruct (Qmax_cases h a) as [E|E].
      * left. etransitivity; [symmetry; exact E | exact H].
      * right. left. etransitivity; [symmetry; exact E | exact H].
    + right. right. exact H.
Qed.

Lemma py_max_is_maximum (data : list Q) (hi : Q) :
  py_max (sorted data) = Return hi -> is_maximum hi data.
Proof.
  intros H. split; [exact (py_max_bound data hi H)|].
  exists hi. split; [|apply Qeq_refl].
  apply sorted_In. destruct (sorted data) as [|h t]; [discriminate|].
  injection H as <-. apply fold_max_In.
Qed.

Lemma py_min_In (data : list Q) (lo : Q) :
  py_min (sorted data) = Return lo -> exists v, In v data /\ lo <= v.
Proof.
  intros H. destruct (sorted data) as [|h t] eqn:Hs; [discriminate|].
  injection H as <-. exists h. split.
  - apply sorted_In. rewrite Hs. now left.
  - exact (proj1 (fold_min_bound t h)).
Qed.

Lemma snoc_non_decreasing (body : list Q) (hi : Q) :
  non_decreasing body -> (forall b, In b body -> b <= hi) ->
  non_decreasing (body ++ [hi]).
Proof.
  intros Hbody Hhi i j a b Hij Ha Hb.
  destruct (Nat.lt_ge_cases j (length body)) as [Hj|Hj].
  - rewrite lookup_app_l in Ha, Hb by lia. exact (Hbody i j a b Hij Ha Hb).
  - assert (Hbhi : b = hi).
    { rewrite lookup_app_r in Hb by lia.
      destruct (j - length body)%nat; cbn in Hb; [congruence | discriminate]. }
    subst b. destruct (Nat.lt_ge_cases i (length body)) as [Hi|Hi].
    + rewrite lookup_app_l in Ha by lia.
      apply Hhi, list_elem_of_In. eapply list_elem_of_lookup_2; exact Ha.
    + rewrite lookup_app_r in Ha by lia.
      destruct (i - length body)%nat; cbn in Ha; [|discriminate].
      injection Ha as <-. apply Qle_refl.
Qed.

Lemma map_range_non_decreasing (f : Z -> Q) (first n : Z) :
  (forall i j, (first <= i <= j)%Z -> (j < n)%Z -> f i <= f j) ->
  non_decreasing (map f (py_range first n 1)).
Proof.
  intros Hf i j a b Hij Ha Hb.
  change (map f (py_range first n 1)) with (f <$> py_range first n 1) in Ha, Hb.
  rewrite list_lookup_fmap in Ha, Hb.
  destruct (py_range first n 1 !! i) as [x|] eqn:Hx; [|discriminate].
  destruct (py_range first n 1 !! j) as [y|] eqn:Hy; [|discriminate].
  cbn in Ha, Hb. injection Ha as <-. injection Hb as <-.
  apply BatchProps.py_range_lookup in Hx as [-> Hx], Hy as [-> Hy].
  rewrite Z.div_1_r in Hx, Hy. apply Hf; lia.
Qed.

Lemma ratio_bounds (i n : Z) :
  (0 <= i <= n)%Z -> (0 < n)%Z -> 0 <= inject_Z i / inject_Z n <= 1.
Proof.
  intros Hi Hn.
  assert (Hnpos : 0 < inject_Z n).
  { change 0 with (inject_Z 0). rewrite <- Zlt_Qlt. lia. }
  split.
  - apply Qle_shift_div_l; [exact Hnpos|]. rewrite Qmult_0_l.
    change 0 with (inject_Z 0). rewrite <- Zle_Qle. lia.
  - apply Qle_shift_div_r; [exact Hnpos|]. rewrite Qmult_1_l.
    rewrite <- Zle_Qle. lia.
Qed.

Lemma ratio_monotone (i j n : Z) :
  (i <= j)%Z -> (0 < n)%Z -> inject_Z i / inject_Z n <= inject_Z j / inject_Z n.
Proof.
  intros Hij Hn. unfold Qdiv. apply Qmult_le_compat_r.
  - rewrite <- Zle_Qle. exact Hij.
  - apply Qinv_le_0_compat. change 0 with (inject_Z 0). rewrite <- Zle_Qle. lia.
Qed.

(** The virtual index of the percentile [i / n * 100]. *)
Lemma virtual_index_bounds (len i n : Z) :
  (0 <= len)%Z -> (0 <= i <= n)%Z -> (0 < n)%Z ->
  0 <= inject_Z len * (inject_Z i / inject_Z n * 100 / 100) <= inject_Z len.
Proof.
  intros Hlen Hi Hn. destruct (ratio_bounds i n Hi Hn) as [H0 H1].
  assert (HT : 0 <= inject_Z len).
  { change 0 with (inject_Z 0). rewrite <- Zle_Qle. exact Hlen. }
  set (p := inject_Z i / inject_Z n) in *. set (T := inject_Z len) in *.
  assert (E : T * (p * 100 / 100) == T * p) by field.
  rewrite E.
  assert (A : 0 <= T * p) by (apply Qmult_le_0_compat; assumption).
  assert (B : 0 <= T * (1 - p)) by (apply Qmult_le_0_compat; [assumption | Lqa.lra]).
  split; Lqa.lra.
Qed.

Lemma virtual_index_monotone (len i j n : Z) :
  (0 <= len)%Z -> (i <= j)%Z -> (0 < n)%Z ->
  inject_Z len * (inject_Z i / inject_Z n * 100 / 100)
  <= inject_Z len * (inject_Z j / inject_Z n * 100 / 100).
Proof.
  intros Hlen Hij Hn. pose proof (ratio_monotone i j n Hij Hn) as Hp.
  assert (HT : 0 <= inject_Z len).
  { change 0 with (inject_Z 0). rewrite <- Zle_Qle. exact Hlen. }
  set (p := inject_Z i / inject_Z n) in *. set (p' := inject_Z j / inject_Z n) in *.
  set (T := inject_Z len) in *.
  assert (E : T * (p * 100 / 100) == T * p) by field.
  assert (E' : T * (p' * 100 / 100) == T * p') by field.
  rewrite E, E'.
  assert (A : 0 <= T * (p' - p)) by (apply Qmult_le_0_compat; [assumption | Lqa.lra]).
  Lqa.lra.
Qed.

(** [numpy.percentile] is the interpolation at the virtual index. *)
Lemma np_percentile_interpolates (a : list Q) (q v : Q) :
  np_percentile a q = Return v ->
  a <> []
  /\ v = interpolate (sorted a) (inject_Z (Z.of_nat (length (sorted a)) - 1) * (q / 100)).
Proof.
  unfold np_percentile. destruct (negb _); [discriminate|].
  destruct (sorted a) as [|h t] eqn:Hs; [discriminate|].
  intros [= <-]. split; [intros ->; discriminate | reflexivity].
Qed.

Lemma sorted_nth_In (data : list Q) (k : nat) :
  (k < length data)%nat -> In (nth k (sorted data) 0) data.
Proof.
  intros Hk. apply sorted_In, nth_In. now rewrite sorted_length.
Qed.

(** The breaks of the Quantile branch. *)
Lemma quantile_breaks_ordered (data : list Q) (n : Z) :
  data <> [] -> (1 <= n)%Z ->
  exists breaks hi,
    quantile_breaks (sorted data) n = Return breaks
    /\ length breaks = Z.to_nat n
    /\ non_decreasing breaks
    /\ last breaks = Some hi /\ is_maximum hi data.
Proof.
  intros Hd Hn.
  assert (Hs : sorted data <> []) by now rewrite sorted_nil_iff.
  assert (Hss : sorted (sorted data) <> []) by now rewrite sorted_nil_iff.
  destruct (quantile_breaks_returns (sorted data) n Hs) as (ps & hi & -> & Hhi & Hall).
  pose proof (Forall2_length _ _ _ Hall) as Hlen. rewrite class_range_length in Hlen.
  pose proof (py_max_is_maximum data hi Hhi) as Hmax.
  pose proof (sorted_sorted (sorted data)) as Hsorted.
  assert (Htop : (0 <= Z.of_nat (length (sorted (sorted data))) - 1)%Z).
  { rewrite !sorted_length. destruct data; [congruence | cbn [length]; lia]. }
  assert (Hps : forall (k : nat) (v : Q), ps !! k = Some v ->
            (Z.of_nat k + 1 < n)%Z
            /\ v = interpolate (sorted (sorted data))
                     (inject_Z (Z.of_nat (length (sorted (sorted data))) - 1)
                      * (inject_Z (Z.of_nat k + 1) / inject_Z n * 100 / 100))).
  { intros k v Hk.
    destruct (Forall2_lookup_r _ _ _ _ _ Hall Hk) as (i & Hi & Hp).
    apply class_range_lookup in Hi as [-> Hi]. split; [exact Hi|].
    now apply np_percentile_interpolates in Hp as [_ ->]. }
  exists (ps ++ [hi]), hi. split; [reflexivity|].
  split; [rewrite length_app; cbn [length]; lia|].
  split; [|split; [apply last_snoc | exact Hmax]].
  apply snoc_non_decreasing.
  - intros i j a b Hij Ha Hb.
    apply Hps in Ha as [Hi ->], Hb as [Hj ->].
    apply interpolate_monotone; [exact Hsorted | | |].
    + apply virtual_index_bounds; lia.
    + apply virtual_index_monotone; lia.
    + apply virtual_index_bounds; lia.
  - intros b Hb. apply list_elem_of_In, list_elem_of_lookup in Hb as [k Hk].
    apply Hps in Hk as [Hk ->].
    eapply Qle_trans.
    + apply interpolate_below_last; [exact Hsorted|].
      apply virtual_index_bounds; lia.
    + apply (proj1 Hmax). apply sorted_In, sorted_nth_In.
      rewrite !sorted_length in *. destruct data; [congruence | cbn [length]; lia].
Qed.

(** The breaks of the Equal Interval branch. *)
Lemma equal_interval_breaks_ordered (data : list Q) (n : Z) :
  data <> [] -> (1 <= n)%Z ->
  exists breaks hi,
    equal_interval_breaks (sorted data) n = Return breaks
    /\ length breaks = Z.to_nat n
    /\ non_decreasing breaks
    /\ last breaks = Some hi /\ is_maximum hi data.
Proof.
  intros Hd Hn.
  assert (Hs : sorted data <> []) by now rewrite sorted_nil_iff.
  destruct (equal_interval_breaks_returns (sorted data) n Hs ltac:(lia))
    as (lo & hi & Hlo & Hhi & ->).
  destruct (py_max_is_maximum data hi Hhi) as [Hub (m & Hm & Hmhi)].
  destruct (py_min_In data lo Hlo) as (w & Hw & Hlow).
  assert (Hlohi : lo <= hi) by (eapply Qle_trans; [exact Hlow | now apply Hub]).
  assert (Hnpos : 0 < inject_Z n).
  { change 0 with (inject_Z 0). rewrite <- Zlt_Qlt. lia. }
  assert (Hstep : 0 <= (hi - lo) / inject_Z n).
  { apply Qle_shift_div_l; [exact Hnpos | Lqa.lra]. }
  set (f := fun i : Z => lo + (hi - lo) / inject_Z n * inject_Z (i + 1)).
  assert (Hlen : length (map f (py_range 0 n 1)) = Z.to_nat n).
  { rewrite length_map, class_range_length. f_equal. lia. }
  assert (Hlast : last (map f (py_range 0 n 1)) = Some (f (n - 1)%Z)).
  { rewrite last_lookup, Hlen.
    change (map f (py_range 0 n 1)) with (f <$> py_range 0 n 1).
    rewrite list_lookup_fmap.
    assert (Hi : py_range 0 n 1 !! Nat.pred (Z.to_nat n) = Some (n - 1)%Z).
    { apply BatchProps.py_range_lookup. rewrite Z.div_1_r. split; lia. }
    now rewrite Hi. }
  assert (Htop : f (n - 1)%Z == hi).
  { unfold f. replace (n - 1 + 1)%Z with n by lia. field.
    intros Hc. rewrite Hc in Hnpos. exact (Qlt_irrefl _ Hnpos). }
  exists (map f (py_range 0 n 1)), (f (n - 1)%Z).
  split; [reflexivity|]. split; [exact Hlen|].
  split; [|split; [exact Hlast|]].
  - apply map_range_non_decreasing. intros i j Hij Hj. unfold f.
    assert (Hinj : inject_Z (i + 1) <= inject_Z (j + 1)) by (rewrite <- Zle_Qle; lia).
    assert (A : 0 <= (hi - lo) / inject_Z n * (inject_Z (j + 1) - inject_Z (i + 1)))
      by (apply Qmult_le_0_compat; [assumption | Lqa.lra]).
    Lqa.lra.
  - split.
    + intros v Hv. rewrite Htop. now apply Hub.
    + exists m. split; [exact Hm|]. rewrite Htop. exact Hmhi.
Qed.

(** The loop of [_jenks_breaks] appends one element of the sorted data
    per round, at a position that is always inside the data. *)
Lemma jenks_index_bounds (len i n : Z) :
  (0 <= len)%Z -> (0 <= i < n)%Z ->
  (0 <= py_int (inject_Z i / inject_Z n * inject_Z len))%Z
  /\ (0 < len -> py_int (inject_Z i / inject_Z n * inject_Z len) < len)%Z
  /\ py_int (inject_Z i / inject_Z n * inject_Z len)
     = Qfloor (inject_Z i / inject_Z n * inject_Z len).
Proof.
  intros Hlen Hi.
  destruct (ratio_bounds i n ltac:(lia) ltac:(lia)) as [H0 H1].
  assert (HT : 0 <= inject_Z len).
  { change 0 with (inject_Z 0). rewrite <- Zle_Qle. exact Hlen. }
  assert (Hx : 0 <= inject_Z i / inject_Z n * inject_Z len)
    by (apply Qmult_le_0_compat; assumption).
  assert (Hint : py_int (inject_Z i / inject_Z n * inject_Z len)
                 = Qfloor (inject_Z i / inject_Z n * inject_Z len)).
  { unfold py_int. apply Qle_bool_iff in Hx. now rewrite Hx. }
  rewrite Hint. split; [|split; [|reflexivity]].
  - change 0%Z with (Qfloor 0). now apply Qfloor_resp_le.
  - intros Hpos.
    assert (Hnpos : 0 < inject_Z n).
    { change 0 with (inject_Z 0). rewrite <- Zlt_Qlt. lia. }
    assert (Hlt : inject_Z i / inject_Z n < 1).
    { apply Qlt_shift_div_r; [exact Hnpos|]. rewrite Qmult_1_l. rewrite <- Zlt_Qlt. lia. }
    assert (HTpos : 0 < inject_Z len).
    { change 0 with (inject_Z 0). rewrite <- Zlt_Qlt. exact Hpos. }
    assert (Hxlt : inject_Z i / inject_Z n * inject_Z len < inject_Z len).
    { assert (A : 0 < (1 - inject_Z i / inject_Z n) * inject_Z len)
        by (apply Qmult_lt_0_compat; [Lqa.lra | assumption]).
      Lqa.lra. }
    pose proof (Qfloor_le (inject_Z i / inject_Z n * inject_Z len)) as Hfl.
    rewrite Zlt_Qlt. eapply Qle_lt_trans; eassumption.
Qed.

Lemma jenks_fold (s : list Q) (n : Z) (l : list Z) (acc : list Q) :
  (forall i, In i l ->
     (py_int (inject_Z i / inject_Z n * inject_Z (Z.of_nat (length s))) < Z.of_nat (length s))%Z) ->
  fold_left (jenks_step s n) l acc
  = acc ++ map (fun i => nth (Z.to_nat (py_int (inject_Z i / inject_Z n
                                                 * inject_Z (Z.of_nat (length s))))) s 0) l.
Proof.
  revert acc. induction l as [|i l IH]; intros acc Hl; cbn [fold_left map].
  - now rewrite app_nil_r.
  - rewrite IH by (intros; apply Hl; now right).
    unfold jenks_step.
    assert (E : (py_int (inject_Z i / inject_Z n * inject_Z (Z.of_nat (length s)))
                 <? Z.of_nat (length s))%Z = true)
      by (apply Z.ltb_lt, Hl; now left).
    rewrite E. now rewrite <- app_assoc.
Qed.

(** The breaks of the Natural Breaks branch. *)
Lemma jenks_breaks_ordered (data : list Q) (n : Z) :
  data <> [] -> (1 <= n)%Z ->
  exists breaks hi,
    jenks_breaks (sorted data) n = Return breaks
    /\ length breaks = Z.to_nat n
    /\ non_decreasing breaks
    /\ last breaks = Some hi /\ is_maximum hi data.
Proof.
  intros Hd Hn.
  assert (Hlenpos : (0 < Z.of_nat (length (sorted (sorted data))))%Z).
  { rewrite !sorted_length. destruct data; [congruence | cbn [length]; lia]. }
  assert (Hss : sorted (sorted data) <> []) by (rewrite !sorted_nil_iff; exact Hd).
  destruct (py_max_returns (sorted (sorted data)) Hss) as [hi Hhi].
  assert (Hmax : is_maximum hi data).
  { destruct (py_max_is_maximum (sorted data) hi Hhi) as [Hub (m & Hm & Hmhi)]. split.
    - intros v Hv. apply Hub. now apply sorted_In.
    - exists m. split; [now apply sorted_In | exact Hmhi]. }
  assert (Hrange : forall i, In i (py_range 1 n 1) -> (1 <= i < n)%Z).
  { intros i Hi. apply list_elem_of_In, list_elem_of_lookup in Hi as [k Hk].
    apply class_range_lookup in Hk. lia. }
  unfold jenks_breaks. rewrite Hhi. cbn [bind].
  rewrite jenks_fold.
  2:{ intros i Hi. apply Hrange in Hi.
      apply (jenks_index_bounds (Z.of_nat (length (sorted (sorted data)))) i n); lia. }
  cbn [app].
  eexists _, hi. split; [reflexivity|].
  split; [rewrite length_app, length_map, class_range_length; cbn [length]; lia|].
  split; [|split; [apply last_snoc | exact Hmax]].
  apply snoc_non_decreasing.
  - apply map_range_non_decreasing. intros i j Hij Hj.
    destruct (jenks_index_bounds (Z.of_nat (length (sorted (sorted data)))) i n
                ltac:(lia) ltac:(lia)) as (Hi0 & Hi1 & ->).
    destruct (jenks_index_bounds (Z.of_nat (length (sorted (sorted data)))) j n
                ltac:(lia) ltac:(lia)) as (Hj0 & Hj1 & Ej).
    rewrite Ej in *.
    apply strongly_sorted_nth; [apply sorted_sorted|].
    assert (Hff : (Qfloor (inject_Z i / inject_Z n
                           * inject_Z (Z.of_nat (length (sorted (sorted data)))))
                   <= Qfloor (inject_Z j / inject_Z n
                              * inject_Z (Z.of_nat (length (sorted (sorted data))))))%Z).
    { apply Qfloor_resp_le. apply Qmult_le_compat_r.
      - apply ratio_monotone; lia.
      - change 0 with (inject_Z 0). rewrite <- Zle_Qle. lia. }
    specialize (Hj1 Hlenpos). lia.
  - intros b Hb. apply in_map_iff in Hb as (i & <- & Hi). apply Hrange in Hi.
    destruct (jenks_index_bounds (Z.of_nat (length (sorted (sorted data)))) i n
                ltac:(lia) ltac:(lia)) as (Hi0 & Hi1 & _).
    specialize (Hi1 Hlenpos).
    apply (proj1 Hmax). apply sorted_In, sorted_nth_In.
    rewrite sorted_length in *. lia.
Qed.

(** Every method name leads to one of the three branches. *)
Lemma classify_data_branch (data : list Q) (method : string) (n : Z) :
  classify_data data method n = quantile_breaks (sorted data) n
  \/ classify_data data method n = equal_interval_breaks (sorted data) n
  \/ classify_data data method n = jenks_breaks (sorted data) n.
Proof.
  destruct (method_cases method) as [->|[->|[->|(H1 & H2 & H3)]]].
  - left. apply classify_quantile.
  - right. left. apply classify_equal_interval.
  - right. right. apply classify_jenks.
  - left. now apply classify_fallback.
Qed.

Lemma classified_populations (populations : list Q) (method : string) (breaks : list Q) :
  apply_chloropleth_breaks populations method = Some (Return breaks) ->
  valid_populations populations <> []
  /\ exists hi,
       length breaks = 5%nat /\ non_decreasing breaks
       /\ last breaks = Some hi /\ is_maximum hi (valid_populations populations).
Proof.
  unfold apply_chloropleth_breaks.
  destruct (valid_populations populations) as [|p ps] eqn:Hv; [discriminate|].
  intros [= Hb]. split; [discriminate|].
  assert (Hne : p :: ps <> []) by discriminate.
  destruct (classify_data_branch (p :: ps) method 5) as [E|[E|E]]; rewrite E in Hb.
  - destruct (quantile_breaks_ordered (p :: ps) 5 Hne ltac:(lia)) as (bs & hi & Hr & H).
    rewrite Hr in Hb. injection Hb as <-. exists hi. exact H.
  - destruct (equal_interval_breaks_ordered (p :: ps) 5 Hne ltac:(lia)) as (bs & hi & Hr & H).
    rewrite Hr in Hb. injection Hb as <-. exists hi. exact H.
  - destruct (jenks_breaks_ordered (p :: ps) 5 Hne ltac:(lia)) as (bs & hi & Hr & H).
    rewrite Hr in Hb. injection Hb as <-. exists hi. exact H.
Qed.

(** X12.  For a non-empty input and at least one class, under every method
    name, the classification returns exactly as many breaks as classes, in
    non-decreasing order, and the last break is the greatest input value. *)
Theorem breaks_ordered_up_to_maximum (data : list Q) (method : string) (n : Z)
    (Hdata : data <> []) (Hn : (1 <= n)%Z) :
  exists breaks hi,
    classify_data data method n = Return breaks
    /\ length breaks = Z.to_nat n
    /\ non_decreasing breaks
    /\ last breaks = Some hi
    /\ is_maximum hi data.
Proof.
  destruct (classify_data_branch data method n) as [ -> | [ -> | -> ] ].
  - now apply quantile_breaks_ordered.
  - now apply equal_interval_breaks_ordered.
  - now apply jenks_breaks_ordered.
Qed.

Lemma breaks_ordered_up_to_maximum_witness :
  exists breaks hi,
    classify_data [30; 10; 20] "Natural Breaks (Jenks)" 2 = Return breaks
    /\ length breaks = 2%nat
    /\ non_decreasing breaks
    /\ last breaks = Some hi
    /\ is_maximum hi [30; 10; 20].
Proof.
  assert (Hdata : [30; 10; 20] <> ([] : list Q)) by discriminate.
  assert (Hn : (1 <= 2)%Z) by lia.
  exact (breaks_ordered_up_to_maximum [30; 10; 20] "Natural Breaks (Jenks)" 2 Hdata Hn).
Defined.

(** **** Colouring and legend of [_apply_chloropleth] *)

Lemma valid_populations_In (populations : list Q) (p : Q) :
  In p (valid_populations populations) <-> In p populations /\ 0 < p.
Proof.
  unfold valid_populations. rewrite filter_In.
  unfold Classifier.Qlt_bool. rewrite negb_true_iff. split; intros [Hin Hp]; split; try exact Hin.
  - apply Qnot_le_lt. intros Hc. apply Qle_bool_iff in Hc. congruence.
  - destruct (Qle_bool p 0) eqn:E; [|reflexivity].
    apply Qle_bool_iff in E. exfalso. exact (Qlt_not_le _ _ Hp E).
Qed.

(** X13.  When [_apply_chloropleth] has classified the populations, a
    population that is not positive gets no class (the grey of "No Data"),
    and every positive population of the list gets a class from 0 to 4: the
    first class whose break is at or above it, every earlier break being
    below it.  The fallback to the last class is never needed. *)
Theorem every_population_classified (populations : list Q) (method : string)
    (breaks : list Q) (p : Q)
    (Hbreaks : apply_chloropleth_breaks populations method = Some (Return breaks))
    (Hp : In p populations) :
  (p <= 0 -> patch_class p breaks = None)
  /\ (0 < p ->
      exists (c : Z) (b : Q),
        patch_class p breaks = Some c
        /\ (0 <= c < 5)%Z
        /\ first_class 0 p breaks = Some c
        /\ breaks !! Z.to_nat c = Some b /\ p <= b
        /\ forall (j : nat) (b' : Q),
             (Z.of_nat j < c)%Z -> breaks !! j = Some b' -> b' < p).
Proof.
  destruct (classified_populations _ _ _ Hbreaks)
    as (Hne & hi & Hlen & Hord & Hlast & Hub & _).
  split.
  - intros Hle. unfold patch_class. apply Qle_bool_iff in Hle. now rewrite Hle.
  - intros Hpos.
    assert (Hphi : p <= hi) by (apply Hub, valid_populations_In; auto).
    assert (Hin : In hi breaks).
    { rewrite last_lookup in Hlast. apply list_elem_of_In.
      eapply list_elem_of_lookup_2; exact Hlast. }
    destruct (first_class 0 p breaks) as [c|] eqn:Hc.
    + pose proof (first_class_range _ _ _ _ Hc) as Hr.
      destruct (first_class_first_fit _ _ _ _ Hc) as ((b & Hb & Hpb) & Hbefore).
      rewrite Z.sub_0_r in Hb.
      exists c, b. unfold patch_class, get_class_index.
      assert (E : Qle_bool p 0 = false).
      { destruct (Qle_bool p 0) eqn:E; [|reflexivity].
        apply Qle_bool_iff in E. exfalso. exact (Qlt_not_le _ _ Hpos E). }
      rewrite E, Hc. cbn.
      split; [reflexivity|]. split; [lia|]. split; [reflexivity|].
      split; [exact Hb|]. split; [exact Hpb|].
      intros j b' Hj. apply Hbefore. lia.
    + exfalso. pose proof (proj1 (first_class_none _ _ _) Hc hi Hin) as Hlt.
      exact (Qlt_not_le _ _ Hlt Hphi).
Qed.

Lemma every_population_classified_witness :
  (7 <= 0 -> patch_class 7 [4; 7; 7; 9; 9] = None)
  /\ (0 < 7 ->
      exists (c : Z) (b : Q),
        patch_class 7 [4; 7; 7; 9; 9] = Some c
        /\ (0 <= c < 5)%Z
        /\ first_class 0 7 [4; 7; 7; 9; 9] = Some c
        /\ [4; 7; 7; 9; 9] !! Z.to_nat c = Some b /\ 7 <= b
        /\ forall (j : nat) (b' : Q),
             (Z.of_nat j < c)%Z -> [4; 7; 7; 9; 9] !! j = Some b' -> b' < 7).
Proof.
  assert (Hbreaks : apply_chloropleth_breaks [9; 0; 4; 7] "Natural Breaks (Jenks)"
                    = Some (Return [4; 7; 7; 9; 9])) by (vm_compute; reflexivity).
  assert (Hp : In 7 [9; 0; 4; 7]) by (cbn; tauto).
  exact (every_population_classified [9; 0; 4; 7] "Natural Breaks (Jenks)"
           [4; 7; 7; 9; 9] 7 Hbreaks Hp).
Defined.

(** **** [_add_legend] *)

Lemma class_range_from_zero (n : Z) : py_range 0 n 1 = map Z.of_nat (seq 0 (Z.to_nat n)).
Proof.
  unfold py_range.
  replace ((n - 0 + 1 - 1) / 1)%Z with n by (rewrite Z.div_1_r; lia).
  apply map_ext. intros k. lia.
Qed.

Lemma py_index_inside (l : list Q) (i : nat) :
  (i < length l)%nat -> py_index l (Z.of_nat i) = Return (nth i l 0).
Proof.
  intros Hi. unfold py_index.
  assert (E : ((0 <=? Z.of_nat i) && (Z.of_nat i <? Z.of_nat (length l)))%Z = true).
  { apply andb_true_iff. split; [apply Z.leb_le | apply Z.ltb_lt]; lia. }
  rewrite E. now rewrite Nat2Z.id.
Qed.

Lemma py_index_past_end (l : list Q) : py_index l (Z.of_nat (length l)) = Raise IndexError.
Proof.
  unfold py_index.
  assert (E1 : ((0 <=? Z.of_nat (length l))
                && (Z.of_nat (length l) <? Z.of_nat (length l)))%Z = false).
  { apply andb_false_iff. right. apply Z.ltb_ge. lia. }
  assert (E2 : ((- Z.of_nat (length l) <=? Z.of_nat (length l))
                && (Z.of_nat (length l) <? 0))%Z = false).
  { apply andb_false_iff. right. apply Z.ltb_ge. lia. }
  now rewrite E1, E2.
Qed.

Lemma legend_step_inside (breaks : list Q) (i : nat) (prev : Q) (labels : list (Z * Z)) :
  (i < length breaks)%nat -> (i = 0%nat -> prev = 0) ->
  legend_step breaks (Return (prev, labels)) (Z.of_nat i)
  = Return (nth i breaks 0, labels ++ [class_label breaks i]).
Proof.
  intros Hi Hprev. unfold legend_step, class_label. cbn [bind fst snd].
  rewrite (py_index_inside breaks i Hi).
  destruct i as [|i'].
  - cbn [Z.of_nat Z.eqb bind]. now rewrite Hprev.
  - assert (E : (Z.of_nat (S i') =? 0)%Z = false) by (apply Z.eqb_neq; lia).
    rewrite E. replace (Z.of_nat (S i') - 1)%Z with (Z.of_nat i') by lia.
    rewrite (py_index_inside breaks i') by lia. reflexivity.
Qed.

Lemma legend_fold_inside (breaks : list Q) (m a : nat) (prev : Q) (labels : list (Z * Z)) :
  (a + m <= length breaks)%nat -> (a = 0%nat -> prev = 0) ->
  exists prev',
    fold_left (legend_step breaks) (map Z.of_nat (seq a m)) (Return (prev, labels))
    = Return (prev', labels ++ map (class_label breaks) (seq a m)).
Proof.
  revert a prev labels. induction m as [|m IH]; intros a prev labels Ham Hprev.
  - exists prev. cbn. now rewrite app_nil_r.
  - cbn [seq map fold_left].
    rewrite (legend_step_inside breaks a prev labels) by (lia || assumption).
    destruct (IH (S a) (nth a breaks 0) (labels ++ [class_label breaks a]))
      as (prev' & ->); [lia | discriminate |].
    exists prev'. now rewrite <- app_assoc.
Qed.

Lemma legend_fold_raised (breaks : list Q) (l : list Z) (e : PyError) :
  fold_left (legend_step breaks) l (Raise e) = Raise e.
Proof. induction l as [|i l IH]; [reflexivity | exact IH]. Qed.

Lemma legend_step_past_end (breaks : list Q) (st : Q * list (Z * Z)) :
  legend_step breaks (Return st) (Z.of_nat (length breaks)) = Raise IndexError.
Proof.
  unfold legend_step. cbn [bind].
  rewrite py_index_past_end.
  destruct (Z.of_nat (length breaks) =? 0)%Z eqn:E; cbn [bind]; [reflexivity|].
  apply Z.eqb_neq in E.
  replace (Z.of_nat (length breaks) - 1)%Z with (Z.of_nat (Nat.pred (length breaks))) by lia.
  rewrite py_index_inside by lia. reflexivity.
Qed.

Lemma legend_labels_inside (breaks : list Q) (n : nat) :
  (n <= length breaks)%nat ->
  legend_labels breaks (Z.of_nat n) = Return (map (class_label breaks) (seq 0 n)).
Proof.
  intros Hn. unfold legend_labels. rewrite class_range_from_zero, Nat2Z.id.
  destruct (legend_fold_inside breaks n 0 0 []) as (prev' & ->);
    [lia | reflexivity |].
  reflexivity.
Qed.

(** X14.  The legend loop over [num_classes] classes returns one label per
    class when the breaks are at least as many: the label of class 0 runs
    from 0 to the truncated first break, the label of every later class
    from the truncated previous break to the truncated break of the class.
    With more classes than breaks it raises IndexError.  After a
    classification by [_apply_chloropleth] the five labels are always
    produced. *)
Theorem legend_labels_follow_breaks (breaks : list Q) (num_classes : Z) :
  ((num_classes <= Z.of_nat (length breaks))%Z ->
   exists labels,
     legend_labels breaks num_classes = Return labels
     /\ length labels = Z.to_nat num_classes
     /\ forall i : nat, (i < Z.to_nat num_classes)%nat ->
          labels !! i = Some (py_int (match i with
                                      | O => 0
                                      | S i' => nth i' breaks 0
                                      end),
                              py_int (nth i breaks 0)))
  /\ ((Z.of_nat (length breaks) < num_classes)%Z ->
      legend_labels breaks num_classes = Raise IndexError)
  /\ (forall populations method,
        apply_chloropleth_breaks populations method = Some (Return breaks) ->
        exists labels, legend_labels breaks 5 = Return labels /\ length labels = 5%nat).
Proof.
  split; [|split].
  - intros Hn.
    assert (E : legend_labels breaks num_classes
                = legend_labels breaks (Z.of_nat (Z.to_nat num_classes))).
    { unfold legend_labels. rewrite !class_range_from_zero, Nat2Z.id. reflexivity. }
    rewrite E, legend_labels_inside by lia.
    eexists. split; [reflexivity|].
    split; [now rewrite length_map, length_seq|].
    intros i Hi. change (map ?f ?l) with (f <$> l).
    rewrite list_lookup_fmap, lookup_seq_lt by exact Hi. reflexivity.
  - intros Hn. unfold legend_labels. rewrite class_range_from_zero.
    replace (Z.to_nat num_classes)
      with (length breaks + S (Z.to_nat num_classes - S (length breaks)))%nat by lia.
    rewrite seq_app, map_app, fold_left_app.
    destruct (legend_fold_inside breaks (length breaks) 0 0 []) as (prev' & ->);
      [lia | reflexivity |].
    cbn [seq map fold_left Nat.add].
    rewrite legend_step_past_end.
    now rewrite legend_fold_raised.
  - intros populations method Hb.
    destruct (classified_populations _ _ _ Hb) as (_ & hi & Hlen & _).
    change 5%Z with (Z.of_nat 5). rewrite legend_labels_inside by lia.
    eexists. split; [reflexivity|]. now rewrite length_map, length_seq.
Qed.

End ChoroplethProps.

(** *** Hit test of the region selector *)

Module HitTestProps.
Import Py Converter Acquisition Loading SpatialIndex HitTest.
Import SpatialIndexProps LoadingProps.
Local Open Scope Q_scope.

(** The ring test is the parity rule and never raises. *)
Lemma point_in_polygon_ray_cast (x y : Q) (ring : list Point) :
  point_in_polygon x y ring = Return (ray_cast toggles x y ring).
Proof.
  unfold point_in_polygon, ray_cast.
  destruct ring as [|first rest]; [reflexivity|].
  destruct (length (first :: rest) <? 3)%nat eqn:Hlen.
  - apply Nat.ltb_lt in Hlen.
    destruct (3 <=? length (first :: rest))%nat eqn:Hge; [|reflexivity].
    apply Nat.leb_le in Hge. lia.
  - apply Nat.ltb_ge in Hlen.
    assert (Hge : (3 <=? length (first :: rest))%nat = true) by (apply Nat.leb_le; exact Hlen).
    rewrite Hge. cbn [andb].
    destruct (outside_box x y first rest); [reflexivity|]. cbn [negb andb].
    rewrite (indexed_walk x y _ _ _ _ _ (wrapped_indices first rest)).
    destruct (edge_walk x y (rest ++ [first]) (mkRay first false None)) as (st' & -> & Hin).
    cbn [bind]. rewrite Hin. cbn [inside p1 xorb edges].
    now rewrite edges_walk.
Qed.

(** **** [_point_in_state] *)

Lemma major_polygon_returns (x y : Q) (polygons : list (list (list Point))) (b : bool) :
  point_in_major_polygon x y polygons = Return b -> b = existsb (major_hit x y) polygons.
Proof.
  induction polygons as [|polygon_coords rest IH]; cbn [point_in_major_polygon existsb].
  - now intros [= <-].
  - destruct polygon_coords as [|coords holes]; [discriminate|].
    cbn [major_hit]. rewrite point_in_polygon_ray_cast.
    destruct (100 <=? length coords)%nat; cbn [andb orb bind]; [|exact IH].
    destruct (ray_cast toggles x y coords); cbn [orb]; [now intros [= <-] | exact IH].
Qed.

Lemma major_polygon_raises (x y : Q) (polygons : list (list (list Point))) (e : PyError) :
  point_in_major_polygon x y polygons = Raise e -> e = IndexError /\ In [] polygons.
Proof.
  induction polygons as [|polygon_coords rest IH]; cbn [point_in_major_polygon].
  - discriminate.
  - destruct polygon_coords as [|coords holes].
    + intros [= <-]. split; [reflexivity | now left].
    + rewrite point_in_polygon_ray_cast.
      destruct (100 <=? length coords)%nat; cbn [bind].
      * destruct (ray_cast toggles x y coords); [discriminate|].
        intros H. destruct (IH H) as [-> Hin]. split; [reflexivity | now right].
      * intros H. destruct (IH H) as [-> Hin]. split; [reflexivity | now right].
Qed.


(** X15.  The hit test of a state looks at exterior rings only.  For a
    Polygon it is the parity rule on the first ring, whatever the holes,
    and a Polygon without rings raises IndexError.  For a MultiPolygon,
    when it returns, the answer is whether some polygon with an exterior
    ring of at least 100 points contains the point: a smaller polygon
    never counts.  It raises only IndexError, only when some polygon has
    no ring, and it returns whenever every polygon has one. *)
Theorem state_hit_test (x y : Q) (exterior : list Point) (holes : list (list Point))
    (polygons : list (list (list Point))) :
  point_in_state x y (PolygonShape (exterior :: holes)) = Return (ray_cast toggles x y exterior)
  /\ point_in_state x y (PolygonShape []) = Raise IndexError
  /\ (forall b, point_in_state x y (MultiPolygonShape polygons) = Return b ->
        b = existsb (major_hit x y) polygons)
  /\ (forall e, point_in_state x y (MultiPolygonShape polygons) = Raise e ->
        e = IndexError /\ In [] polygons)
  /\ (~ In [] polygons ->
      point_in_state x y (MultiPolygonShape polygons)
      = Return (existsb (major_hit x y) polygons)).
Proof.
  split; [apply point_in_polygon_ray_cast|].
  split; [reflexivity|].
  split; [intros b; apply major_polygon_returns|].
  split; [intros e; apply major_polygon_raises|].
  intros Hne. cbn [point_in_state].
  destruct (point_in_major_polygon x y polygons) as [b|e] eqn:H.
  - now rewrite (major_polygon_returns _ _ _ _ H).
  - destruct (major_polygon_raises _ _ _ _ H) as [_ Hin]. contradiction.
Qed.

(** **** [_find_clicked_region] *)



Lemma non_contiguous_string (v : Value) :
  non_contiguous v = true -> exists s, v = VStr s.
Proof.
  destruct v as [s|n|]; [eauto | discriminate | discriminate].
Qed.





(** **** Rings that repeat their first vertex *)

Lemma Qmin_left (a b : Q) : a <= b -> Qmin a b = a.
Proof.
  intros H. unfold Qmin, GenericMinMax.gmin.
  destruct (a ?= b) eqn:E; try reflexivity.
  exfalso. apply Qgt_alt in E. exact (Qlt_not_le _ _ E H).
Qed.

Lemma Qmax_left (a b : Q) : b <= a -> Qmax a b = a.
Proof.
  intros H. unfold Qmax, GenericMinMax.gmax.
  destruct (a ?= b) eqn:E; try reflexivity.
  exfalso. apply Qlt_alt in E. exact (Qlt_not_le _ _ E H).
Qed.

Lemma column_min_below (f : Point -> Q) (rest : list Point) (a : Q) :
  fold_left (fun m p => Qmin m (f p)) rest a <= a.
Proof.
  revert a. induction rest as [|p rest IH]; intros a; cbn [fold_left].
  - apply Qle_refl.
  - eapply Qle_trans; [apply IH | apply Q.le_min_l].
Qed.

Lemma column_max_above (f : Point -> Q) (rest : list Point) (a : Q) :
  a <= fold_left (fun m p => Qmax m (f p)) rest a.
Proof.
  revert a. induction rest as [|p rest IH]; intros a; cbn [fold_left].
  - apply Qle_refl.
  - eapply Qle_trans; [apply Q.le_max_l | apply IH].
Qed.

Lemma column_min_closed (f : Point -> Q) (first : Point) (rest : list Point) :
  column_min f first (rest ++ [first]) = column_min f first rest.
Proof.
  unfold column_min. rewrite fold_left_app. cbn [fold_left].
  apply Qmin_left, column_min_below.
Qed.

Lemma column_max_closed (f : Point -> Q) (first : Point) (rest : list Point) :
  column_max f first (rest ++ [first]) = column_max f first rest.
Proof.
  unfold column_max. rewrite fold_left_app. cbn [fold_left].
  apply Qmax_left, column_max_above.
Qed.

Lemma combine_snoc {A B : Type} (l1 : list A) (l2 : list B) (a : A) (b : B) :
  length l1 = length l2 -> combine (l1 ++ [a]) (l2 ++ [b]) = combine l1 l2 ++ [(a, b)].
Proof.
  revert l2. induction l1 as [|h1 t1 IH]; intros [|h2 t2] Hlen; cbn in *; try discriminate.
  - reflexivity.
  - f_equal. apply IH. lia.
Qed.

Lemma degenerate_edge_never_toggles (x y : Q) (p : Point) : toggles x y (p, p) = false.
Proof.
  unfold toggles.
  destruct (Qlt_bool (Qmin (snd p) (snd p)) y) eqn:Hlo; [|reflexivity].
  destruct (Qle_bool y (Qmax (snd p) (snd p))) eqn:Hhi; [|reflexivity].
  exfalso. apply (horizontal_edge_skipped (snd p) (snd p) y); [|assumption..].
  apply Qeq_bool_iff, Qeq_refl.
Qed.

(** X17.  A ring of at least three points gets the same answer when its
    first vertex is repeated at its end, as GeoJSON rings are written: the
    closing edge the loop adds by itself has then no length and never
    toggles, and the bounding box is the same. *)
Theorem repeated_first_vertex_is_harmless (x y : Q) (first : Point) (rest : list Point)
    (Hlen : (2 <= length rest)%nat) :
  point_in_polygon x y (first :: rest ++ [first]) = point_in_polygon x y (first :: rest).
Proof.
  rewrite !point_in_polygon_ray_cast. f_equal.
  unfold ray_cast, outside_box.
  rewrite !column_min_closed, !column_max_closed.
  assert (E1 : (3 <=? length (first :: rest ++ [first]))%nat = true).
  { apply Nat.leb_le. cbn [length]. rewrite length_app. cbn [length]. lia. }
  assert (E2 : (3 <=? length (first :: rest))%nat = true).
  { apply Nat.leb_le. cbn [length]. lia. }
  rewrite E1, E2. f_equal. f_equal.
  unfold edges.
  change (first :: rest ++ [first]) with ((first :: rest) ++ [first]).
  rewrite combine_snoc by (rewrite length_app; cbn [length]; lia).
  rewrite List.filter_app, length_app. cbn [List.filter].
  rewrite degenerate_edge_never_toggles. cbn [length]. now rewrite Nat.add_0_r.
Qed.

Lemma repeated_first_vertex_is_harmless_witness :
  point_in_polygon 5 5 [(0, 0); (0, 10); (10, 10); (10, 0); (0, 0)]
  = point_in_polygon 5 5 square.
Proof.
  assert (Hlen : Nat.le 2 (length ([(0, 10); (10, 10); (10, 0)] : list Point))) by (cbn; lia).
  exact (repeated_first_vertex_is_harmless 5 5 (0, 0) [(0, 10); (10, 10); (10, 0)] Hlen).
Defined.

(** **** Orientation of a ring *)

Lemma last_default {A : Type} (a : A) (l : list A) (d d' : A) :
  List.last (a :: l) d = List.last (a :: l) d'.
Proof.
  revert a. induction l as [|b l IH]; intros a; [reflexivity|].
  change (List.last (b :: l) d = List.last (b :: l) d'). apply IH.
Qed.

Lemma last_step {A : Type} (p q : A) (l : list A) :
  List.last (q :: l) p = List.last l q.
Proof.
  destruct l as [|b l]; [reflexivity|].
  change (List.last (b :: l) p = List.last (b :: l) q). apply last_default.
Qed.

Lemma edges_from_snoc (a z : Point) (l : list Point) :
  edges_from a (l ++ [z]) = edges_from a l ++ [(List.last l a, z)].
Proof.
  revert a. induction l as [|b l IH]; intros a; [reflexivity|].
  cbn [app edges_from]. rewrite IH, last_step. reflexivity.
Qed.

Lemma segments_snoc (a z : Point) (l : list Point) :
  segments ((a :: l) ++ [z]) = segments (a :: l) ++ [(List.last l a, z)].
Proof. cbn [app segments]. apply edges_from_snoc. Qed.

(** Walking a sequence backwards meets the same edges, each backwards. *)
Lemma segments_rev (w : list Point) :
  segments (rev w) = map prod_swap (rev (segments w)).
Proof.
  destruct w as [|a l]; [reflexivity|].
  revert a. induction l as [|b l IH]; intros a; [reflexivity|].
  change (rev (a :: b :: l)) with (rev (b :: l) ++ [a]).
  destruct (rev (b :: l)) as [|h t] eqn:Hrev.
  { apply (f_equal (@length Point)) in Hrev. rewrite length_rev in Hrev. discriminate. }
  rewrite segments_snoc, <- Hrev, IH.
  change (segments (a :: b :: l)) with ((a, b) :: segments (b :: l)).
  cbn [rev]. rewrite map_app. cbn [map prod_swap fst snd]. f_equal. f_equal. f_equal.
  rewrite <- (last_step h), <- Hrev.
  change (rev (b :: l)) with (rev l ++ [b]). apply last_last.
Qed.

Lemma edges_are_segments (first : Point) (rest : list Point) :
  edges (first :: rest) = segments (first :: rest ++ [first]).
Proof. cbn [edges segments]. apply edges_walk. Qed.

Lemma Qlt_bool_compat (a a' b b' : Q) :
  a == a' -> b == b' -> Qlt_bool a b = Qlt_bool a' b'.
Proof. intros Ha Hb. unfold Qlt_bool. now rewrite Ha, Hb. Qed.

Lemma Qle_bool_compat (a a' b b' : Q) :
  a == a' -> b == b' -> Qle_bool a b = Qle_bool a' b'.
Proof. intros Ha Hb. now rewrite Ha, Hb. Qed.

Lemma Qeq_bool_sym (a b : Q) : Qeq_bool a b = Qeq_bool b a.
Proof.
  destruct (Qeq_bool b a) eqn:E.
  - apply Qeq_bool_iff. apply Qeq_bool_iff in E. now symmetry.
  - destruct (Qeq_bool a b) eqn:E'; [|reflexivity].
    apply Qeq_bool_iff in E'. symmetry in E'. apply Qeq_bool_iff in E'. congruence.
Qed.

(** The edge rule does not depend on the direction of the edge. *)
Lemma toggles_backwards (x y : Q) (e : Point * Point) :
  toggles x y (prod_swap e) = toggles x y e.
Proof.
  destruct e as [[ax ay] [bx by_]]. unfold toggles, prod_swap. cbn [fst snd].
  rewrite (Qlt_bool_compat (Qmin by_ ay) (Qmin ay by_) y y (Q.min_comm _ _) (Qeq_refl _)).
  rewrite (Qle_bool_compat y y (Qmax by_ ay) (Qmax ay by_) (Qeq_refl _) (Q.max_comm _ _)).
  rewrite (Qle_bool_compat x x (Qmax bx ax) (Qmax ax bx) (Qeq_refl _) (Q.max_comm _ _)).
  rewrite (Qeq_bool_sym bx ax).
  destruct (Qlt_bool (Qmin ay by_) y) eqn:Hlo; [|reflexivity].
  destruct (Qle_bool y (Qmax ay by_)) eqn:Hhi; [|reflexivity].
  destruct (Qle_bool x (Qmax ax bx)); [|reflexivity].
  destruct (Qeq_bool ax bx); [reflexivity|]. cbn [andb orb].
  assert (Hslope : ~ ay == by_).
  { intros Heq. apply (horizontal_edge_skipped ay by_ y); [|assumption..].
    now apply Qeq_bool_iff. }
  apply Qle_bool_compat; [reflexivity|].
  unfold x_intersection. cbn [fst snd]. field.
  split; intros Hc; apply Hslope; Lqa.lra.
Qed.

Lemma count_backwards (x y : Q) (l : list (Point * Point)) :
  length (List.filter (toggles x y) (map prod_swap (rev l)))
  = length (List.filter (toggles x y) l).
Proof.
  induction l as [|e l IH]; [reflexivity|].
  cbn [rev]. rewrite map_app, List.filter_app, length_app, IH.
  cbn [map List.filter]. rewrite toggles_backwards.
  destruct (toggles x y e); cbn [length]; lia.
Qed.

(** The reversed ring has the edges of the ring, backwards, in another order. *)
Lemma count_reversed_ring (x y : Q) (ring : list Point) :
  length (List.filter (toggles x y) (edges (rev ring)))
  = length (List.filter (toggles x y) (edges ring)).
Proof.
  destruct ring as [|first rest]; [reflexivity|].
  rewrite <- (count_backwards x y (edges (first :: rest))).
  rewrite (edges_are_segments first rest), <- segments_rev.
  change (first :: rest ++ [first]) with ((first :: rest) ++ [first]).
  rewrite rev_app_distr. cbn [rev app].
  destruct (rev rest ++ [first]) as [|h t] eqn:Hrev.
  { apply (f_equal (@length Point)) in Hrev. rewrite length_app in Hrev. cbn in Hrev. lia. }
  rewrite edges_are_segments.
  change (h :: t ++ [h]) with ((h :: t) ++ [h]). rewrite segments_snoc.
  assert (Hlast : List.last t h = first).
  { rewrite <- (last_step first), <- Hrev. apply last_last. }
  rewrite Hlast. change (segments (first :: h :: t)) with ((first, h) :: segments (h :: t)).
  rewrite List.filter_app, length_app. cbn [List.filter].
  destruct (toggles x y (first, h)); cbn [length]; lia.
Qed.

Lemma column_min_fold (f : Point -> Q) (rest : list Point) (a : Q) :
  fold_left (fun m p => Qmin m (f p)) rest a <= a
  /\ (forall p, In p rest -> fold_left (fun m p => Qmin m (f p)) rest a <= f p)
  /\ (fold_left (fun m p => Qmin m (f p)) rest a == a
      \/ exists p, In p rest /\ fold_left (fun m p => Qmin m (f p)) rest a == f p).
Proof.
  revert a. induction rest as [|q rest IH]; intros a; cbn [fold_left].
  - split; [apply Qle_refl|]. split; [intros p []|]. left. reflexivity.
  - destruct (IH (Qmin a (f q))) as (Hle & Hall & Hwho).
    split; [eapply Qle_trans; [exact Hle | apply Q.le_min_l]|].
    split.
    + intros p [<-|Hp]; [eapply Qle_trans; [exact Hle | apply Q.le_min_r] | now apply Hall].
    + destruct Hwho as [Hm|(p & Hp & Hm)].
      * destruct (Q.min_dec a (f q)) as [E|E].
        -- left. now rewrite Hm.
        -- right. exists q. split; [now left | now rewrite Hm].
      * right. exists p. split; [now right | exact Hm].
Qed.

Lemma column_max_fold (f : Point -> Q) (rest : list Point) (a : Q) :
  a <= fold_left (fun m p => Qmax m (f p)) rest a
  /\ (forall p, In p rest -> f p <= fold_left (fun m p => Qmax m (f p)) rest a)
  /\ (fold_left (fun m p => Qmax m (f p)) rest a == a
      \/ exists p, In p rest /\ fold_left (fun m p => Qmax m (f p)) rest a == f p).
Proof.
  revert a. induction rest as [|q rest IH]; intros a; cbn [fold_left].
  - split; [apply Qle_refl|]. split; [intros p []|]. left. reflexivity.
  - destruct (IH (Qmax a (f q))) as (Hle & Hall & Hwho).
    split; [eapply Qle_trans; [apply Q.le_max_l | exact Hle]|].
    split.
    + intros p [<-|Hp]; [eapply Qle_trans; [apply Q.le_max_r | exact Hle] | now apply Hall].
    + destruct Hwho as [Hm|(p & Hp & Hm)].
      * destruct (Q.max_dec a (f q)) as [E|E].
        -- left. now rewrite Hm.
        -- right. exists q. split; [now left | now rewrite Hm].
      * right. exists p. split; [now right | exact Hm].
Qed.

(** The least and the greatest coordinate depend on the points only. *)
Lemma column_min_below_all (f : Point -> Q) (first : Point) (rest : list Point) (p : Point) :
  In p (first :: rest) -> column_min f first rest <= f p.
Proof.
  destruct (column_min_fold f rest (f first)) as (Hle & Hall & _).
  intros [<-|Hp]; [exact Hle | now apply Hall].
Qed.

Lemma column_min_attained (f : Point -> Q) (first : Point) (rest : list Point) :
  exists p, In p (first :: rest) /\ column_min f first rest == f p.
Proof.
  destruct (column_min_fold f rest (f first)) as (_ & _ & [Hm|(p & Hp & Hm)]).
  - exists first. split; [now left | exact Hm].
  - exists p. split; [now right | exact Hm].
Qed.

Lemma column_max_above_all (f : Point -> Q) (first : Point) (rest : list Point) (p : Point) :
  In p (first :: rest) -> f p <= column_max f first rest.
Proof.
  destruct (column_max_fold f rest (f first)) as (Hle & Hall & _).
  intros [<-|Hp]; [exact Hle | now apply Hall].
Qed.

Lemma column_max_attained (f : Point -> Q) (first : Point) (rest : list Point) :
  exists p, In p (first :: rest) /\ column_max f first rest == f p.
Proof.
  destruct (column_max_fold f rest (f first)) as (_ & _ & [Hm|(p & Hp & Hm)]).
  - exists first. split; [now left | exact Hm].
  - exists p. split; [now right | exact Hm].
Qed.

Lemma column_min_same (f : Point -> Q) (first first' : Point) (rest rest' : list Point) :
  (forall p, In p (first :: rest) <-> In p (first' :: rest')) ->
  column_min f first rest == column_min f first' rest'.
Proof.
  intros Hsame. apply Qle_antisym.
  - destruct (column_min_attained f first' rest') as (p & Hp & ->).
    apply column_min_below_all. now apply Hsame.
  - destruct (column_min_attained f first rest) as (p & Hp & ->).
    apply column_min_below_all. now apply Hsame.
Qed.

Lemma column_max_same (f : Point -> Q) (first first' : Point) (rest rest' : list Point) :
  (forall p, In p (first :: rest) <-> In p (first' :: rest')) ->
  column_max f first rest == column_max f first' rest'.
Proof.
  intros Hsame. apply Qle_antisym.
  - destruct (column_max_attained f first rest) as (p & Hp & ->).
    apply column_max_above_all. now apply Hsame.
  - destruct (column_max_attained f first' rest') as (p & Hp & ->).
    apply column_max_above_all. now apply Hsame.
Qed.

Lemma outside_box_same (x y : Q) (first first' : Point) (rest rest' : list Point) :
  (forall p, In p (first :: rest) <-> In p (first' :: rest')) ->
  outside_box x y first rest = outside_box x y first' rest'.
Proof.
  intros Hsame. unfold outside_box.
  rewrite (Qlt_bool_compat x x _ _ (Qeq_refl x) (column_min_same fst _ _ _ _ Hsame)).
  rewrite (Qlt_bool_compat _ _ x x (column_max_same fst _ _ _ _ Hsame) (Qeq_refl x)).
  rewrite (Qlt_bool_compat y y _ _ (Qeq_refl y) (column_min_same snd _ _ _ _ Hsame)).
  rewrite (Qlt_bool_compat _ _ y y (column_max_same snd _ _ _ _ Hsame) (Qeq_refl y)).
  reflexivity.
Qed.

(** X24.  In exact arithmetic the hit test does not depend on the
    orientation of the ring: a ring and the same ring walked backwards
    give the same answer for every point.  On binary64 floats the two
    directions can round the intersection differently: for the triangle
    (0,0), (5,3), (-5,3) and the point (1.6666666666666667, 1.0) the
    function answers True on the ring and False on the ring walked
    backwards. *)
Theorem orientation_is_irrelevant (x y : Q) (ring : list Point) :
  point_in_polygon x y (rev ring) = point_in_polygon x y ring
  /\ SpatialDoubles.point_in_polygon SpatialDoubles.five_thirds SpatialDoubles.one
       SpatialDoubles.wide_triangle = Return true
  /\ SpatialDoubles.point_in_polygon SpatialDoubles.five_thirds SpatialDoubles.one
       (rev SpatialDoubles.wide_triangle) = Return false.
Proof.
  split; [|split; reflexivity].
  rewrite !point_in_polygon_ray_cast. f_equal.
  unfold ray_cast.
  destruct ring as [|first rest]; [reflexivity|].
  destruct (rev (first :: rest)) as [|first' rest'] eqn:Hrev.
  { apply (f_equal (@length Point)) in Hrev. rewrite length_rev in Hrev. discriminate. }
  rewrite <- Hrev, count_reversed_ring, length_rev.
  rewrite (outside_box_same x y first' first rest' rest); [reflexivity|].
  intros p. rewrite <- Hrev. symmetry. apply in_rev.
Qed.

End HitTestProps.

(** *** County drawing *)

Module DrawingProps.
Import Converter Acquisition Loading Drawing ConverterProps AcquisitionProps LoadingProps.

Lemma append_patch_all (name population : Value) (polygons : list (list Ring))
    (patches : list Patch) :
  fold_left (append_patch name population) polygons patches
  = patches ++ flat_map (fun polygon_coords =>
                           match polygon_coords with
                           | [] => []
                           | coords :: _ => [mkPatch coords name population]
                           end) polygons.
Proof.
  revert patches. induction polygons as [|p polygons IH]; intros patches;
    cbn [fold_left flat_map].
  - now rewrite app_nil_r.
  - rewrite IH. destruct p as [|coords holes]; cbn [append_patch app]; [reflexivity|].
    now rewrite <- app_assoc.
Qed.

Lemma single_ring_polygons (name population : Value) (kept : list Ring) :
  flat_map (fun polygon_coords : list Ring =>
              match polygon_coords with
              | [] => []
              | coords :: _ => [mkPatch coords name population]
              end) (map (fun ring => [ring]) kept)
  = map (fun ring => mkPatch ring name population) kept.
Proof. induction kept as [|r kept IH]; cbn; [reflexivity | now rewrite IH]. Qed.

(** The patches of one converted county. *)
Lemma draw_converted_county (record : ArcFeature) (st : list CountyRecord * list Patch) :
  snd (draw_county st (mkFeature (county_properties (attributes record))
                                 (convert_arcgis_geometry_to_geojson (arc_rings record))))
  = snd st ++ patches_of_record record.
Proof.
  unfold draw_county, patches_of_record, drawn_rings. cbn [snd properties geometry].
  assert (Hname : attr_get (county_properties (attributes record)) "NAME" (VStr "Unknown")
                  = attr_get (attributes record) "NAME" (VStr "")).
  { unfold county_properties. unfold attr_get at 1. now rewrite lookup_insert_eq. }
  assert (Hpop : attr_get (county_properties (attributes record)) "POP100" (VNum 0)
                 = attr_get (attributes record) "POP100" (VNum 0)).
  { unfold county_properties. unfold attr_get at 1.
    rewrite !lookup_insert_ne by discriminate. now rewrite lookup_insert_eq. }
  rewrite Hname, Hpop.
  destruct (arc_rings record) as [rings|]; [|cbn; now rewrite app_nil_r].
  unfold convert_arcgis_geometry_to_geojson.
  rewrite converted_rings_map. cbn [app]. rewrite length_map.
  destruct (length rings =? 1)%nat eqn:Hone.
  { apply Nat.eqb_eq in Hone. destruct rings as [|ring [|? ?]]; try discriminate.
    reflexivity. }
  rewrite (valid_polygons_filter _ []). cbn [app].
  match goal with
  | |- context [List.filter ?f ?l] => set (kept := List.filter f l)
  end.
  clearbody kept. destruct kept as [|r1 [|r2 kept]].
  - cbn. now rewrite app_nil_r.
  - reflexivity.
  - cbn [map fold_left append_patch].
    rewrite append_patch_all, single_ring_polygons, <- !app_assoc. reflexivity.
Qed.

Lemma draw_counties_fold (counties : list Feature) (st : list CountyRecord * list Patch) :
  fst (fold_left draw_county counties st)
  = fst st ++ map (fun county =>
                     mkCountyRecord (attr_get (properties county) "NAME" (VStr "Unknown"))
                                    (attr_get (properties county) "POP100" (VNum 0))
                                    (geometry county)
                                    (attr_get (properties county) "STATE" (VStr "")))
                  counties.
Proof.
  revert st. induction counties as [|county counties IH]; intros st; cbn [fold_left map].
  - now rewrite app_nil_r.
  - rewrite IH. cbn [draw_county fst]. now rewrite <- app_assoc.
Qed.

Lemma draw_converted_fold (records : list ArcFeature) (st : list CountyRecord * list Patch) :
  snd (fold_left draw_county
                 (map (fun record => mkFeature (county_properties (attributes record))
                                       (convert_arcgis_geometry_to_geojson (arc_rings record)))
                      records) st)
  = snd st ++ flat_map patches_of_record records.
Proof.
  revert st. induction records as [|record records IH]; intros st; cbn [fold_left map flat_map].
  - now rewrite app_nil_r.
  - rewrite IH, draw_converted_county. now rewrite <- app_assoc.
Qed.

(** Every drawn ring has a point, unless the record is a single ring
    without points. *)
Lemma drawn_rings_have_points (arcgis_rings : option (list Ring)) :
  arcgis_rings <> Some [[]] ->
  forall ring, In ring (drawn_rings arcgis_rings) -> ring <> [].
Proof.
  intros Hne ring Hin. unfold drawn_rings in Hin.
  destruct arcgis_rings as [rings|]; [|destruct Hin].
  destruct (length rings =? 1)%nat eqn:Hone.
  - apply Nat.eqb_eq in Hone. destruct rings as [|r [|? ?]]; try discriminate.
    cbn in Hin. destruct Hin as [<-|[]].
    destruct r as [|p r]; [exfalso; apply Hne; reflexivity | discriminate].
  - apply filter_In in Hin as [_ Hlen]. apply Nat.leb_le in Hlen.
    intros ->. cbn in Hlen. lia.
Qed.

(** X18.  Drawing the counties converted from a response, none of which
    consists of a single ring without points, records one county per
    record, in order, absent attributes read as "", 0 and ""; and it draws
    one patch for every ring that survives the conversion (the only ring
    of a one-ring record, otherwise each ring of at least four points), in
    order, each with the name and population of its record.  A record
    without such a ring is recorded, and so counts in the classification,
    but has no patch. *)
Theorem patches_follow_records (records : list ArcFeature)
    (Hpoints : Forall (fun record => arc_rings record <> Some [[]]) records) :
  map (fun c => (county_name c, population c, state_fips c))
      (fst (draw_initial_counties (convert_to_geojson records "counties")))
  = map (fun record => (attr_get (attributes record) "NAME" (VStr ""),
                        attr_get (attributes record) "POP100" (VNum 0),
                        attr_get (attributes record) "STATE" (VStr "")))
        records
  /\ snd (draw_initial_counties (convert_to_geojson records "counties"))
     = flat_map patches_of_record records
  /\ Forall (fun patch => outline patch <> [])
            (snd (draw_initial_counties (convert_to_geojson records "counties")))
  /\ forall patch,
       In patch (snd (draw_initial_counties (convert_to_geojson records "counties"))) ->
       exists c,
         In c (fst (draw_initial_counties (convert_to_geojson records "counties")))
         /\ patch_name patch = county_name c
         /\ patch_population patch = population c.
Proof.
  unfold draw_initial_counties. rewrite convert_counties.
  rewrite draw_counties_fold, draw_converted_fold. cbn [fst snd app].
  split; [|split; [|split]].
  - rewrite !map_map. apply map_ext. intros record. cbn [properties].
    unfold county_properties, attr_get.
    rewrite lookup_insert_eq.
    rewrite !(lookup_insert_ne _ "NAME") by discriminate.
    rewrite (lookup_insert_ne _ "STATE" "POP100") by discriminate.
    now rewrite !lookup_insert_eq.
  - reflexivity.
  - apply List.Forall_forall. intros patch Hin.
    apply in_flat_map in Hin as (record & Hrec & Hin).
    pose proof (proj1 (List.Forall_forall _ _) Hpoints record Hrec) as Hrecord.
    unfold patches_of_record in Hin. apply in_map_iff in Hin as (ring & <- & Hring).
    cbn [outline]. exact (drawn_rings_have_points _ Hrecord ring Hring).
  - intros patch Hin. apply in_flat_map in Hin as (record & Hrec & Hin).
    unfold patches_of_record in Hin. apply in_map_iff in Hin as (ring & <- & _).
    eexists. split.
    + apply in_map_iff. eexists. split; [reflexivity|].
      apply in_map_iff. exists record. split; [reflexivity | exact Hrec].
    + cbn [patch_name patch_population county_name population properties].
      unfold county_properties, attr_get.
      rewrite lookup_insert_eq.
      rewrite !(lookup_insert_ne _ "NAME") by discriminate.
      rewrite (lookup_insert_ne _ "STATE" "POP100") by discriminate.
      now rewrite !lookup_insert_eq.
Qed.

Lemma patches_follow_records_witness :
  map outline
      (snd (draw_initial_counties
              (convert_to_geojson
                 [salt_lake; mkArcFeature ∅ (Some [sliver])]
                 "counties")))
  = [convert_ring sliver].
Proof.
  assert (Hpoints : Forall (fun record => arc_rings record <> Some [[]])
                           [salt_lake; mkArcFeature ∅ (Some [sliver])])
    by (repeat constructor; discriminate).
  exact (f_equal (map outline) (proj1 (proj2 (patches_follow_records _ Hpoints)))).
Defined.

(** X26.  From the service to the map: after a regional load that missed
    the cache and succeeded, none of the records obtained consisting of a
    single ring without points, the counties handed to the drawing,
    whatever region is asked for, are the conversion of the records the
    load obtained; one county is recorded per record, with its population,
    and one patch is drawn for every ring of those records that survives
    the conversion. *)
Theorem drawn_region_follows_service (net : Network) (region asked : string)
    (m : Manager) (tr : Trace)
    (Hmiss : counties_by_region m !! region = None)
    (Hok : succeeded (load_counties_for_region net region m tr) = true)
    (Hpoints : Forall (fun record => arc_rings record <> Some [[]])
                      (union_of (single_outcomes net (length (region_partitions region m))
                                                 (requests_sent tr)))) :
  let records :=
    union_of (single_outcomes net (length (region_partitions region m)) (requests_sent tr)) in
  let drawn :=
    draw_initial_counties
      (Loading.get_counties_in_region asked
         (manager_after (load_counties_for_region net region m tr))) in
  records <> []
  /\ Loading.get_counties_in_region asked
       (manager_after (load_counties_for_region net region m tr))
     = convert_to_geojson records "counties"
  /\ map population (fst drawn)
     = map (fun record => attr_get (attributes record) "POP100" (VNum 0)) records
  /\ snd drawn = flat_map patches_of_record records
  /\ Forall (fun patch => outline patch <> []) (snd drawn).
Proof.
  cbv zeta.
  destruct (load_counties_for_region_cases net region m tr Hmiss)
    as [(_ & Hf & _)|(Hne & _ & -> & _)]; [congruence|].
  assert (Hget : Loading.get_counties_in_region asked
                   (store_region region
                      (convert_to_geojson
                         (union_of (single_outcomes net (length (region_partitions region m))
                                                    (requests_sent tr))) "counties") m)
                 = convert_to_geojson
                     (union_of (single_outcomes net (length (region_partitions region m))
                                                (requests_sent tr))) "counties").
  { unfold Loading.get_counties_in_region. rewrite counties_of_stored.
    now rewrite append_regional_all. }
  rewrite Hget. split; [exact Hne|]. split; [reflexivity|].
  unfold draw_initial_counties. rewrite convert_counties.
  rewrite draw_counties_fold, draw_converted_fold. cbn [fst snd app].
  split; [|split; [reflexivity|]].
  - rewrite !map_map. apply map_ext. intros record. cbn [population properties].
    unfold county_properties. unfold attr_get at 1.
    rewrite !lookup_insert_ne by discriminate. now rewrite lookup_insert_eq.
  - apply List.Forall_forall. intros patch Hin.
    apply in_flat_map in Hin as (record & Hrec & Hin).
    pose proof (proj1 (List.Forall_forall _ _) Hpoints record Hrec) as Hrecord.
    unfold patches_of_record in Hin. apply in_map_iff in Hin as (ring & <- & Hring).
    cbn [outline]. exact (drawn_rings_have_points _ Hrecord ring Hring).
Qed.

Lemma drawn_region_follows_service_witness :
  Loading.get_counties_in_region "Midwest"
    (manager_after (load_counties_for_region second_times_out "West" four_states []))
  = convert_to_geojson
      (union_of (single_outcomes second_times_out
                   (length (region_partitions "West" four_states)) (requests_sent [])))
      "counties".
Proof.
  assert (Hmiss : counties_by_region four_states !! "West" = None) by reflexivity.
  assert (Hok : succeeded (load_counties_for_region second_times_out "West" four_states [])
                = true) by reflexivity.
  assert (Hpoints : Forall (fun record => arc_rings record <> Some [[]])
                      (union_of (single_outcomes second_times_out
                                   (length (region_partitions "West" four_states))
                                   (requests_sent []))))
    by (vm_compute; repeat constructor; intros H; discriminate H).
  exact (proj1 (proj2 (drawn_region_follows_service second_times_out "West" "Midwest"
                         four_states [] Hmiss Hok Hpoints))).
Defined.

End DrawingProps.

(** *** Counties of a region in a loaded file *)

Module FileDataProps.
Import Converter Acquisition Loading FileData LoadingProps.

Lemma append_if_in_region_filter (names : gset string) (features acc : list FileFeature) :
  fold_left (append_if_in_region names) features acc
  = acc ++ List.filter (fun feature => name_in (default VNull (state_name_read feature)) names)
                       features.
Proof.
  revert acc. induction features as [|f features IH]; intros acc; cbn [fold_left List.filter].
  - now rewrite app_nil_r.
  - rewrite IH. unfold append_if_in_region, state_name_read, attr_get.
    destruct (file_attributes f) as [attrs|].
    + destruct (name_in _ names); [now rewrite <- app_assoc | reflexivity].
    + destruct (file_properties f) as [props|]; cbn [mbind option_bind default].
      * destruct (name_in _ names); [now rewrite <- app_assoc | reflexivity].
      * reflexivity.
Qed.

Lemma filter_is_sublist {A : Type} (keep : A -> bool) (l : list A) :
  sublist (List.filter keep l) l.
Proof.
  induction l as [|a l IH]; cbn [List.filter]; [constructor|].
  destruct (keep a); now constructor.
Qed.

Lemma name_in_region (v : Value) (region : string) :
  name_in v (get_states_in_region region) = true <->
  exists s, v = VStr s /\ s ∈ get_states_in_region region.
Proof.
  destruct v as [s|n|]; cbn [name_in].
  - rewrite bool_decide_eq_true. split; [eauto | now intros (? & [= <-] & ?)].
  - split; [discriminate | now intros (? & ? & _)].
  - split; [discriminate | now intros (? & ? & _)].
Qed.

(** X19.  The file-based [get_counties_in_region] returns, in order,
    exactly the features whose STATE_NAME, read from 'attributes' when the
    feature has them and from 'properties' otherwise, names a state of the
    region.  No feature is returned for two different regions, and none
    for a name that is no region. *)
Theorem file_counties_are_partitioned (region other : string) (features : list FileFeature)
    (feature : FileFeature) :
  (In feature (FileData.get_counties_in_region region (Some features)) <->
     In feature features
     /\ exists s, state_name_read feature = Some (VStr s) /\ s ∈ get_states_in_region region)
  /\ sublist (FileData.get_counties_in_region region (Some features)) features
  /\ (region <> other ->
      In feature (FileData.get_counties_in_region region (Some features)) ->
      ~ In feature (FileData.get_counties_in_region other (Some features)))
  /\ (REGIONS !! region = None ->
      FileData.get_counties_in_region region (Some features) = [])
  /\ FileData.get_counties_in_region region None = [].
Proof.
  assert (Hin : forall r f,
            In f (FileData.get_counties_in_region r (Some features)) <->
            In f features
            /\ exists s, state_name_read f = Some (VStr s) /\ s ∈ get_states_in_region r).
  { intros r f. cbn [get_counties_in_region].
    rewrite append_if_in_region_filter. cbn [app]. rewrite filter_In, name_in_region.
    split; intros [Hf (s & Hs & Hr)]; (split; [exact Hf|]); exists s; (split; [|exact Hr]).
    - destruct (state_name_read f) as [v|]; cbn in Hs; [congruence | discriminate].
    - now rewrite Hs. }
  split; [apply Hin|]. split; [|split; [|split]].
  - cbn [get_counties_in_region]. rewrite append_if_in_region_filter. cbn [app].
    apply filter_is_sublist.
  - intros Hne H1 H2.
    apply Hin in H1 as [_ (s1 & Hs1 & Hr1)]. apply Hin in H2 as [_ (s2 & Hs2 & Hr2)].
    rewrite Hs1 in Hs2. injection Hs2 as <-.
    exact (Hne (regions_disjoint s1 region other Hr1 Hr2)).
  - intros Hnone.
    destruct (FileData.get_counties_in_region region (Some features)) as [|f rest] eqn:E;
      [reflexivity|].
    assert (Hf : In f (FileData.get_counties_in_region region (Some features)))
      by (rewrite E; now left).
    apply Hin in Hf as [_ (s & _ & Hs)].
    unfold get_states_in_region in Hs. rewrite Hnone in Hs. cbn in Hs. set_solver.
  - reflexivity.
Qed.

End FileDataProps.

(** *** Label placement *)

Module CentroidProps.
Import Py SpatialIndex HitTest Centroid SpatialIndexProps HitTestProps.
Local Open Scope Q_scope.

Lemma tiny_or_not (a : Q) :
  Qlt_bool (Qabs a) (1 # 10000000000) = false -> ~ a == 0.
Proof.
  intros H Ha.
  assert (Ht : Qlt_bool (Qabs a) (1 # 10000000000) = true)
    by (apply Qlt_bool_iff; rewrite Ha; reflexivity).
  congruence.
Qed.

(** X20.  The centroid of a triangle given by its three corners is the
    mean of the corners, whether the area formula or the fallback to the
    mean is taken; fewer than three points have no centroid. *)
Theorem triangle_centroid_is_corner_mean (a b c : Point) :
  (exists p,
     calculate_polygon_centroid [a; b; c] = Some p
     /\ fst p == (fst a + fst b + fst c) / 3
     /\ snd p == (snd a + snd b + snd c) / 3)
  /\ calculate_polygon_centroid [a; b] = None
  /\ calculate_polygon_centroid [a] = None
  /\ calculate_polygon_centroid [] = None.
Proof.
  split; [|repeat split].
  destruct a as [ax ay], b as [bx by_], c as [cx_ cy_].
  unfold calculate_polygon_centroid.
  cbn [length Nat.ltb Nat.leb map fst snd nth List.last].
  assert (Hmean : forall p q r : Q, np_mean [p; q; r] == (p + q + r) / 3).
  { intros p q r. unfold np_mean. cbn [fold_left length Z.of_nat Pos.of_succ_nat Pos.succ].
    change (inject_Z 3) with 3. field. }
  destruct (Qeq_bool ax cx_ && Qeq_bool ay cy_) eqn:Hclosed.
  - apply andb_true_iff in Hclosed as [Hx Hy].
    apply Qeq_bool_iff in Hx, Hy.
    cbn [length Nat.sub seq fold_left shoelace_step nth area cx cy].
    match goal with
    | |- context [Qlt_bool (Qabs ?h) ?e] =>
        assert (Hzero : h == 0) by (rewrite Hx, Hy; field)
    end.
    match goal with
    | |- context [Qlt_bool (Qabs ?h) ?e] =>
        assert (Htiny : Qlt_bool (Qabs h) e = true)
          by (apply Qlt_bool_iff; rewrite Hzero; reflexivity)
    end.
    rewrite Htiny. eexists. split; [reflexivity|]. cbn [fst snd]. split; apply Hmean.
  - cbn [app length Nat.sub seq fold_left shoelace_step nth area cx cy].
    match goal with
    | |- context [Qlt_bool (Qabs ?h) ?e] => destruct (Qlt_bool (Qabs h) e) eqn:Htiny
    end.
    + eexists. split; [reflexivity|]. cbn [fst snd]. split; apply Hmean.
    + apply tiny_or_not in Htiny.
      eexists. split; [reflexivity|]. cbn [fst snd].
      split; field; intros Hc; apply Htiny; rewrite <- Hc; field.
Qed.

(** **** The loop as a walk along the edges *)

Lemma nth_middle_map {A : Type} (f : A -> Q) (pre : list A) (a : A) (l : list A) :
  nth (length pre) (map f (pre ++ a :: l)) 0 = f a.
Proof.
  rewrite map_app, app_nth2 by (rewrite length_map; lia).
  rewrite length_map, Nat.sub_diag. reflexivity.
Qed.

Lemma shoelace_walk (pre : list Point) (p : Point) (rest : list Point) (s : Sums) :
  fold_left (shoelace_step (map fst (pre ++ p :: rest)) (map snd (pre ++ p :: rest)))
            (seq (length pre) (length rest)) s
  = fold_left add_edge (edges_from p rest) s.
Proof.
  revert pre p s. induction rest as [|q rest IH]; intros pre p s; [reflexivity|].
  cbn [length seq fold_left edges_from].
  assert (Hstep : shoelace_step (map fst (pre ++ p :: q :: rest))
                                (map snd (pre ++ p :: q :: rest)) s (length pre)
                  = add_edge s (p, q)).
  { unfold shoelace_step, add_edge. cbn [fst snd].
    rewrite !nth_middle_map.
    replace (pre ++ p :: q :: rest) with ((pre ++ [p]) ++ q :: rest)
      by (now rewrite <- app_assoc).
    replace (S (length pre)) with (length (pre ++ [p]))
      by (rewrite length_app; cbn [length]; lia).
    rewrite !nth_middle_map. reflexivity. }
  rewrite Hstep.
  replace (pre ++ p :: q :: rest) with ((pre ++ [p]) ++ q :: rest)
    by (now rewrite <- app_assoc).
  replace (S (length pre)) with (length (pre ++ [p]))
    by (rewrite length_app; cbn [length]; lia).
  apply IH.
Qed.

Lemma last_of_map {A : Type} (f : A -> Q) (a : A) (l : list A) :
  List.last (map f (a :: l)) 0 = f (List.last l a).
Proof.
  revert a. induction l as [|b l IH]; intros a; [reflexivity|].
  cbn [map]. change (List.last (f a :: f b :: map f l) 0) with (List.last (map f (b :: l)) 0).
  now rewrite IH, last_step.
Qed.

(** The function in terms of the walk. *)
Lemma centroid_by_walk (first : Point) (rest : list Point) :
  (2 <= length rest)%nat ->
  calculate_polygon_centroid (first :: rest)
  = let s := fold_left add_edge (edges_from first (closed_ring first rest)) (mkSums 0 0 0) in
    if Qlt_bool (Qabs (area s / 2)) (1 # 10000000000)
    then Some (np_mean (map fst (first :: rest)), np_mean (map snd (first :: rest)))
    else Some (cx s / (6 * (area s / 2)), cy s / (6 * (area s / 2))).
Proof.
  intros Hlen. unfold calculate_polygon_centroid, closed_ring.
  assert (E : (length (first :: rest) <? 3)%nat = false)
    by (apply Nat.ltb_ge; cbn [length]; lia).
  rewrite E. rewrite !last_of_map.
  change (nth 0 (map fst (first :: rest)) 0) with (fst first).
  change (nth 0 (map snd (first :: rest)) 0) with (snd first).
  destruct (Qeq_bool (fst first) (fst (List.last rest first))
            && Qeq_bool (snd first) (snd (List.last rest first))) eqn:Hclosed;
    repeat match goal with
           | |- context [if ?c then map ?f ?l else ?r] =>
               replace (if c then map f l else r)
                 with (if Qeq_bool (fst first) (fst (List.last rest first))
                          && Qeq_bool (snd first) (snd (List.last rest first))
                       then map f l else r) by reflexivity;
               rewrite Hclosed
           end.
  - pose proof (shoelace_walk [] first rest (mkSums 0 0 0)) as Hw.
    cbn [app length] in Hw. cbv zeta.
    match goal with
    | |- context [fold_left (shoelace_step ?x ?y) ?l ?z] =>
        replace (fold_left (shoelace_step x y) l z)
          with (fold_left add_edge (edges_from first rest) (mkSums 0 0 0))
    end; [reflexivity|].
    rewrite <- Hw. rewrite length_map. cbn [length Nat.sub]. now rewrite Nat.sub_0_r.
  - pose proof (shoelace_walk [] first (rest ++ [first]) (mkSums 0 0 0)) as Hw.
    cbn [app length map] in Hw. rewrite !map_app in Hw. cbn [map] in Hw.
    cbv zeta.
    match goal with
    | |- context [fold_left (shoelace_step ?x ?y) ?l ?z] =>
        replace (fold_left (shoelace_step x y) l z)
          with (fold_left add_edge (edges_from first (rest ++ [first])) (mkSums 0 0 0))
    end; [reflexivity|].
    rewrite length_app in Hw. cbn [length] in Hw.
    cbn [map app length Nat.sub]. rewrite Nat.sub_0_r, length_app, length_map. cbn [length].
    symmetry. exact Hw.
Qed.

(** **** Translation *)

Lemma walk_translated (t u : Q) (o p : Point) (rest : list Point) (s s' : Sums) :
  area s' == area s + u * (fst o - fst p) + t * (snd p - snd o) ->
  cx s' == cx s + 3 * t * area s + u * (fst o * fst o - fst p * fst p)
           + t * (fst p * snd p - fst o * snd o)
           + 2 * t * u * (fst o - fst p) + 2 * t * t * (snd p - snd o) ->
  cy s' == cy s + 3 * u * area s + u * (fst o * snd o - fst p * snd p)
           + t * (snd p * snd p - snd o * snd o)
           + 2 * u * u * (fst o - fst p) + 2 * u * t * (snd p - snd o) ->
  let z := List.last rest p in
  let r := fold_left add_edge (edges_from p rest) s in
  let r' := fold_left add_edge (edges_from (translate t u p) (map (translate t u) rest)) s' in
  area r' == area r + u * (fst o - fst z) + t * (snd z - snd o)
  /\ cx r' == cx r + 3 * t * area r + u * (fst o * fst o - fst z * fst z)
              + t * (fst z * snd z - fst o * snd o)
              + 2 * t * u * (fst o - fst z) + 2 * t * t * (snd z - snd o)
  /\ cy r' == cy r + 3 * u * area r + u * (fst o * snd o - fst z * snd z)
              + t * (snd z * snd z - snd o * snd o)
              + 2 * u * u * (fst o - fst z) + 2 * u * t * (snd z - snd o).
Proof.
  revert p s s'. induction rest as [|q rest IH]; intros p s s' Ha Hx Hy.
  - cbn. auto.
  - cbn [map edges_from fold_left]. rewrite last_step.
    apply IH; unfold add_edge, translate; cbn [area cx cy fst snd].
    + setoid_rewrite Ha. ring.
    + setoid_rewrite Hx. ring.
    + setoid_rewrite Hy. ring.
Qed.

Lemma Qeq_bool_shift (a b t : Q) : Qeq_bool (a + t) (b + t) = Qeq_bool a b.
Proof.
  destruct (Qeq_bool a b) eqn:E.
  - apply Qeq_bool_iff. apply Qeq_bool_iff in E. rewrite E. reflexivity.
  - destruct (Qeq_bool (a + t) (b + t)) eqn:E'; [|reflexivity].
    apply Qeq_bool_iff in E'.
    assert (H : Qeq_bool a b = true) by (apply Qeq_bool_iff; Lqa.lra).
    congruence.
Qed.

Lemma last_translated (t u : Q) (rest : list Point) (p : Point) :
  List.last (map (translate t u) rest) (translate t u p) = translate t u (List.last rest p).
Proof.
  revert p. induction rest as [|q rest IH]; intros p; [reflexivity|].
  cbn [map]. rewrite !last_step. apply IH.
Qed.

Lemma closed_ring_translated (t u : Q) (first : Point) (rest : list Point) :
  closed_ring (translate t u first) (map (translate t u) rest)
  = map (translate t u) (closed_ring first rest).
Proof.
  unfold closed_ring. rewrite last_translated.
  unfold translate at 1 2 3 4. cbn [fst snd]. rewrite !Qeq_bool_shift.
  destruct (Qeq_bool _ _ && Qeq_bool _ _); [reflexivity|].
  now rewrite map_app.
Qed.

Lemma closed_ring_ends_at_first (first : Point) (rest : list Point) :
  fst (List.last (closed_ring first rest) first) == fst first
  /\ snd (List.last (closed_ring first rest) first) == snd first.
Proof.
  unfold closed_ring.
  destruct (Qeq_bool (fst first) (fst (List.last rest first))
            && Qeq_bool (snd first) (snd (List.last rest first))) eqn:E.
  - apply andb_true_iff in E as [Hx Hy]. apply Qeq_bool_iff in Hx, Hy.
    split; symmetry; assumption.
  - rewrite last_last. split; reflexivity.
Qed.

Lemma sum_from (l : list Q) (a : Q) : fold_left Qplus l a == a + fold_left Qplus l 0.
Proof.
  revert a. induction l as [|q l IH]; intros a; cbn [fold_left]; [ring|].
  rewrite (IH (a + q)), (IH (0 + q)). ring.
Qed.

Lemma sum_shifted (f : Point -> Q) (t : Q) (l : list Point) (a : Q) :
  fold_left Qplus (map (fun p => f p + t) l) a
  == fold_left Qplus (map f l) a + inject_Z (Z.of_nat (length l)) * t.
Proof.
  revert a. induction l as [|p l IH]; intros a.
  - cbn. ring.
  - cbn [map fold_left length]. rewrite IH, Nat2Z.inj_succ, <- Z.add_1_r, inject_Z_plus.
    rewrite (sum_from _ (a + (f p + t))), (sum_from _ (a + f p)).
    change (inject_Z 1) with 1. ring.
Qed.

Lemma mean_shifted (f : Point -> Q) (t : Q) (l : list Point) :
  l <> [] ->
  np_mean (map (fun p => f p + t) l) == np_mean (map f l) + t.
Proof.
  intros Hl. unfold np_mean. rewrite sum_shifted, !length_map.
  field. intros Hc.
  assert (Hpos : 0 < inject_Z (Z.of_nat (length l))).
  { change 0 with (inject_Z 0). rewrite <- Zlt_Qlt. destruct l; [congruence | cbn [length]; lia]. }
  rewrite Hc in Hpos. exact (Qlt_irrefl _ Hpos).
Qed.

Lemma tiny_same (a b : Q) :
  a == b -> Qlt_bool (Qabs a) (1 # 10000000000) = Qlt_bool (Qabs b) (1 # 10000000000).
Proof.
  intros Hab.
  destruct (Qlt_bool (Qabs b) (1 # 10000000000)) eqn:E.
  - apply Qlt_bool_iff. apply Qlt_bool_iff in E. now rewrite Hab.
  - destruct (Qlt_bool (Qabs a) (1 # 10000000000)) eqn:E'; [|reflexivity].
    apply Qlt_bool_iff in E'. rewrite Hab in E'. apply Qlt_bool_iff in E'. congruence.
Qed.

(** X21.  The centroid moves with the polygon: translating every point
    of a ring by the same vector translates its centroid by that vector,
    in the area branch and in the fallback alike; a ring of fewer than
    three points has no centroid before or after. *)
Theorem centroid_moves_with_polygon (coords : list Point) (t u : Q) :
  match calculate_polygon_centroid coords,
        calculate_polygon_centroid (map (translate t u) coords) with
  | Some c, Some c' => fst c' == fst c + t /\ snd c' == snd c + u
  | None, None => (length coords < 3)%nat
  | _, _ => False
  end.
Proof.
  destruct (Nat.lt_ge_cases (length coords) 3) as [Hshort|Hlong].
  - unfold calculate_polygon_centroid. rewrite length_map.
    apply Nat.ltb_lt in Hshort. rewrite Hshort. now apply Nat.ltb_lt.
  - destruct coords as [|first rest]; [cbn in Hlong; lia|].
    cbn [length] in Hlong. cbn [map].
    rewrite !centroid_by_walk by (rewrite ?length_map; lia).
    rewrite closed_ring_translated.
    destruct (closed_ring_ends_at_first first rest) as [Hzx Hzy].
    destruct (walk_translated t u first first (closed_ring first rest)
                (mkSums 0 0 0) (mkSums 0 0 0)) as (Ha & Hx & Hy);
      try (cbn [area cx cy]; ring).
    cbv zeta in Ha, Hx, Hy.
    set (s := fold_left add_edge (edges_from first (closed_ring first rest)) (mkSums 0 0 0))
      in *.
    set (s' := fold_left add_edge
                 (edges_from (translate t u first)
                             (map (translate t u) (closed_ring first rest)))
                 (mkSums 0 0 0)) in *.
    rewrite Hzx, Hzy in Ha, Hx, Hy.
    assert (Ha' : area s' == area s) by (rewrite Ha; ring).
    assert (Hx' : cx s' == cx s + 3 * t * area s) by (rewrite Hx; ring).
    assert (Hy' : cy s' == cy s + 3 * u * area s) by (rewrite Hy; ring).
    cbv zeta.
    rewrite (tiny_same (area s' / 2) (area s / 2)) by (now rewrite Ha').
    destruct (Qlt_bool (Qabs (area s / 2)) (1 # 10000000000)) eqn:Htiny.
    + cbn [fst snd].
      change (translate t u first :: map (translate t u) rest)
        with (map (translate t u) (first :: rest)).
      rewrite !map_map. unfold translate. cbn [fst snd].
      split; apply mean_shifted; discriminate.
    + apply tiny_or_not in Htiny. cbn [fst snd].
      assert (Hne : ~ area s == 0).
      { intros Hc. apply Htiny. rewrite Hc. reflexivity. }
      split.
      * rewrite Hx', Ha'. field. exact Hne.
      * rewrite Hy', Ha'. field. exact Hne.
Qed.

(** **** Orientation *)

Lemma sums_from (l : list (Point * Point)) (s : Sums) :
  area (fold_left add_edge l s) == area s + area (fold_left add_edge l (mkSums 0 0 0))
  /\ cx (fold_left add_edge l s) == cx s + cx (fold_left add_edge l (mkSums 0 0 0))
  /\ cy (fold_left add_edge l s) == cy s + cy (fold_left add_edge l (mkSums 0 0 0)).
Proof.
  revert s. induction l as [|e l IH]; intros s; cbn [fold_left].
  - cbn [area cx cy]. repeat split; ring.
  - destruct (IH (add_edge s e)) as (Ha & Hx & Hy).
    destruct (IH (add_edge (mkSums 0 0 0) e)) as (Ha0 & Hx0 & Hy0).
    unfold add_edge in *. cbn [area cx cy] in *.
    split; [|split].
    + setoid_rewrite Ha. setoid_rewrite Ha0. ring.
    + setoid_rewrite Hx. setoid_rewrite Hx0. ring.
    + setoid_rewrite Hy. setoid_rewrite Hy0. ring.
Qed.

Lemma add_edge_sums (s : Sums) (e : Point * Point) :
  area (add_edge s e) = area s + (fst (fst e) * snd (snd e) - fst (snd e) * snd (fst e))
  /\ cx (add_edge s e)
     = cx s + (fst (fst e) + fst (snd e))
              * (fst (fst e) * snd (snd e) - fst (snd e) * snd (fst e))
  /\ cy (add_edge s e)
     = cy s + (snd (fst e) + snd (snd e))
              * (fst (fst e) * snd (snd e) - fst (snd e) * snd (fst e)).
Proof. repeat split. Qed.

(** Walking the edges backwards changes the sign of the three sums. *)
Lemma sums_backwards (l : list (Point * Point)) :
  area (fold_left add_edge (map prod_swap (rev l)) (mkSums 0 0 0))
  == - area (fold_left add_edge l (mkSums 0 0 0))
  /\ cx (fold_left add_edge (map prod_swap (rev l)) (mkSums 0 0 0))
     == - cx (fold_left add_edge l (mkSums 0 0 0))
  /\ cy (fold_left add_edge (map prod_swap (rev l)) (mkSums 0 0 0))
     == - cy (fold_left add_edge l (mkSums 0 0 0)).
Proof.
  induction l as [|e l (Ha & Hx & Hy)].
  - cbn. repeat split; ring.
  - cbn [rev]. rewrite map_app, fold_left_app. cbn [map fold_left].
    destruct (sums_from l (add_edge (mkSums 0 0 0) e)) as (Ha0 & Hx0 & Hy0).
    destruct (add_edge_sums (mkSums 0 0 0) e) as (Ea & Ex & Ey).
    rewrite Ea in Ha0. rewrite Ex in Hx0. rewrite Ey in Hy0. cbn [area cx cy] in Ha0, Hx0, Hy0.
    destruct (add_edge_sums (fold_left add_edge (map prod_swap (rev l)) (mkSums 0 0 0))
                            (prod_swap e)) as (-> & -> & ->).
    unfold prod_swap. cbn [fst snd].
    split; [|split].
    + setoid_rewrite Ha. setoid_rewrite Ha0. ring.
    + setoid_rewrite Hx. setoid_rewrite Hx0. ring.
    + setoid_rewrite Hy. setoid_rewrite Hy0. ring.
Qed.

(** The sums do not depend on the edge the walk starts with. *)
Lemma sums_rotated (e : Point * Point) (l : list (Point * Point)) :
  area (fold_left add_edge (l ++ [e]) (mkSums 0 0 0))
  == area (fold_left add_edge (e :: l) (mkSums 0 0 0))
  /\ cx (fold_left add_edge (l ++ [e]) (mkSums 0 0 0))
     == cx (fold_left add_edge (e :: l) (mkSums 0 0 0))
  /\ cy (fold_left add_edge (l ++ [e]) (mkSums 0 0 0))
     == cy (fold_left add_edge (e :: l) (mkSums 0 0 0)).
Proof.
  rewrite fold_left_app. cbn [fold_left].
  destruct (sums_from l (add_edge (mkSums 0 0 0) e)) as (Ha0 & Hx0 & Hy0).
  destruct (add_edge_sums (mkSums 0 0 0) e) as (Ea & Ex & Ey).
  rewrite Ea in Ha0. rewrite Ex in Hx0. rewrite Ey in Hy0. cbn [area cx cy] in Ha0, Hx0, Hy0.
  destruct (add_edge_sums (fold_left add_edge l (mkSums 0 0 0)) e) as (-> & -> & ->).
  split; [|split].
  - setoid_rewrite Ha0. ring.
  - setoid_rewrite Hx0. ring.
  - setoid_rewrite Hy0. ring.
Qed.

(** The walk of the reversed ring meets the edges of the walk of the
    ring, backwards, possibly starting with another edge. *)
Lemma reversed_walk (first h : Point) (rest t : list Point) :
  rev rest = h :: t ->
  edges_from h (closed_ring h (t ++ [first]))
  = map prod_swap (rev (edges_from first (closed_ring first rest)))
  \/ exists e S,
       edges_from h (closed_ring h (t ++ [first])) = S ++ [e]
       /\ map prod_swap (rev (edges_from first (closed_ring first rest))) = e :: S.
Proof.
  intros Hrev.
  assert (Hrest : rest = rev t ++ [h]).
  { rewrite <- (rev_involutive rest), Hrev. reflexivity. }
  assert (Hlast : List.last rest first = h) by (rewrite Hrest; apply last_last).
  unfold closed_ring. rewrite Hlast, last_last.
  rewrite (Qeq_bool_sym (fst h)), (Qeq_bool_sym (snd h)).
  destruct (Qeq_bool (fst first) (fst h) && Qeq_bool (snd first) (snd h)).
  - left.
    change (edges_from h (t ++ [first])) with (segments (h :: t ++ [first])).
    change (edges_from first rest) with (segments (first :: rest)).
    rewrite <- segments_rev. cbn [rev]. now rewrite Hrev.
  - right. exists (first, h), (segments (h :: t ++ [first])). split.
    + change (edges_from h ((t ++ [first]) ++ [h]))
        with (segments ((h :: t ++ [first]) ++ [h])).
      rewrite segments_snoc, last_last. reflexivity.
    + change (edges_from first (rest ++ [first])) with (segments (first :: rest ++ [first])).
      rewrite <- segments_rev.
      change (first :: rest ++ [first]) with ((first :: rest) ++ [first]).
      rewrite rev_app_distr. cbn [rev app]. now rewrite Hrev.
Qed.

Lemma sum_reversed (l : list Q) : fold_left Qplus (rev l) 0 == fold_left Qplus l 0.
Proof.
  induction l as [|q l IH]; [reflexivity|].
  cbn [rev fold_left]. rewrite fold_left_app. cbn [fold_left].
  rewrite IH, (sum_from l (0 + q)). ring.
Qed.

Lemma mean_reversed (l : list Q) : np_mean (rev l) == np_mean l.
Proof. unfold np_mean. now rewrite sum_reversed, length_rev. Qed.

Lemma tiny_opposite (a b : Q) :
  a == - b -> Qlt_bool (Qabs (a / 2)) (1 # 10000000000) = Qlt_bool (Qabs (b / 2)) (1 # 10000000000).
Proof.
  intros Hab.
  assert (E : Qabs (a / 2) == Qabs (b / 2)).
  { rewrite Hab. rewrite <- (Qabs_opp (b / 2)). apply Qabs_wd. field. }
  apply Qlt_bool_compat; [exact E | reflexivity].
Qed.

(** X25.  The centroid does not depend on the orientation of the ring:
    a ring and the same ring walked backwards have the same centroid, in
    the area branch and in the fallback alike. *)
Theorem centroid_ignores_orientation (coords : list Point) :
  match calculate_polygon_centroid coords, calculate_polygon_centroid (rev coords) with
  | Some c, Some c' => fst c' == fst c /\ snd c' == snd c
  | None, None => (length coords < 3)%nat
  | _, _ => False
  end.
Proof.
  destruct (Nat.lt_ge_cases (length coords) 3) as [Hshort|Hlong].
  - unfold calculate_polygon_centroid. rewrite length_rev.
    apply Nat.ltb_lt in Hshort. rewrite Hshort. now apply Nat.ltb_lt.
  - destruct coords as [|first rest]; [cbn in Hlong; lia|].
    cbn [length] in Hlong.
    destruct (rev rest) as [|h t] eqn:Hrev.
    { apply (f_equal (@length Point)) in Hrev. rewrite length_rev in Hrev. cbn in Hrev. lia. }
    assert (Hlen : length (t ++ [first]) = length rest).
    { rewrite length_app. cbn [length].
      apply (f_equal (@length Point)) in Hrev. rewrite length_rev in Hrev. cbn in Hrev. lia. }
    assert (Hring : rev (first :: rest) = h :: t ++ [first]) by (cbn [rev]; now rewrite Hrev).
    rewrite Hring.
    rewrite !centroid_by_walk by lia. cbv zeta.
    assert (Hsums :
      area (fold_left add_edge (edges_from h (closed_ring h (t ++ [first]))) (mkSums 0 0 0))
      == - area (fold_left add_edge (edges_from first (closed_ring first rest)) (mkSums 0 0 0))
      /\ cx (fold_left add_edge (edges_from h (closed_ring h (t ++ [first]))) (mkSums 0 0 0))
         == - cx (fold_left add_edge (edges_from first (closed_ring first rest)) (mkSums 0 0 0))
      /\ cy (fold_left add_edge (edges_from h (closed_ring h (t ++ [first]))) (mkSums 0 0 0))
         == - cy (fold_left add_edge (edges_from first (closed_ring first rest))
                            (mkSums 0 0 0))).
    { destruct (reversed_walk first h rest t Hrev) as [->|(e & S & -> & Hback)].
      - apply sums_backwards.
      - destruct (sums_rotated e S) as (Ra & Rx & Ry).
        destruct (sums_backwards (edges_from first (closed_ring first rest)))
          as (Ba & Bx & By). rewrite Hback in Ba, Bx, By.
        split; [|split]; etransitivity; eassumption. }
    destruct Hsums as (Ha & Hx & Hy).
    set (s := fold_left add_edge (edges_from first (closed_ring first rest)) (mkSums 0 0 0))
      in *.
    set (s' := fold_left add_edge (edges_from h (closed_ring h (t ++ [first])))
                 (mkSums 0 0 0)) in *.
    rewrite (tiny_opposite (area s') (area s) Ha).
    destruct (Qlt_bool (Qabs (area s / 2)) (1 # 10000000000)) eqn:Htiny.
    + cbn [fst snd]. rewrite <- Hring, !map_rev. split; apply mean_reversed.
    + apply tiny_or_not in Htiny. cbn [fst snd].
      assert (Hne : ~ area s == 0).
      { intros Hc. apply Htiny. rewrite Hc. reflexivity. }
      split.
      * rewrite Hx, Ha. field. exact Hne.
      * rewrite Hy, Ha. field. exact Hne.
Qed.

(** **** [_get_state_centroid] *)

Lemma largest_step_returns (st : option (list Point) * Q) (coords : list Point)
    (holes : list (list Point)) :
  exists st', largest_step (Return st) (coords :: holes) = Return st'.
Proof.
  unfold largest_step. cbn [bind].
  destruct (length coords <? 3)%nat; [eauto|].
  destruct (Qlt_bool (snd st) (approximate_area coords)); eauto.
Qed.

Lemma largest_fold_raised (polygons : list (list (list Point))) (e : PyError) :
  fold_left largest_step polygons (Raise e) = Raise e.
Proof. induction polygons as [|p polygons IH]; [reflexivity | exact IH]. Qed.

Lemma largest_fold_raises (polygons : list (list (list Point)))
    (st : option (list Point) * Q) :
  In [] polygons -> fold_left largest_step polygons (Return st) = Raise IndexError.
Proof.
  revert st. induction polygons as [|p polygons IH]; intros st Hin; [destruct Hin|].
  cbn [fold_left]. destruct p as [|coords holes].
  - cbn [largest_step bind]. apply largest_fold_raised.
  - destruct (largest_step_returns st coords holes) as [st' ->].
    apply IH. destruct Hin as [Hin|Hin]; [discriminate | exact Hin].
Qed.

Lemma largest_fold (polygons : list (list (list Point))) (best : option (list Point))
    (m : Q) :
  ~ In [] polygons ->
  exists best' m',
    fold_left largest_step polygons (Return (best, m)) = Return (best', m')
    /\ m <= m'
    /\ (forall polygon coords,
          In polygon polygons -> candidate polygon = Some coords ->
          approximate_area coords <= m')
    /\ ((best' = best /\ m' = m)
        \/ exists polygon coords,
             In polygon polygons /\ candidate polygon = Some coords
             /\ best' = Some coords /\ m' = approximate_area coords /\ m < m').
Proof.
  revert best m. induction polygons as [|p polygons IH]; intros best m Hne.
  - exists best, m. split; [reflexivity|]. split; [apply Qle_refl|].
    split; [intros ? ? []|]. now left.
  - assert (Hrest : ~ In [] polygons) by (intros H; apply Hne; now right).
    destruct p as [|coords holes]; [exfalso; apply Hne; now left|].
    cbn [fold_left]. unfold largest_step at 2. cbn [bind snd].
    destruct (length coords <? 3)%nat eqn:Hshort.
    + destruct (IH best m Hrest) as (best' & m' & -> & Hle & Hall & Hwho).
      exists best', m'. split; [reflexivity|]. split; [exact Hle|]. split.
      * intros polygon c [<-|Hin] Hc.
        -- cbn [candidate] in Hc. rewrite Hshort in Hc. discriminate.
        -- exact (Hall polygon c Hin Hc).
      * destruct Hwho as [Hsame|(polygon & c & Hin & Hrestc)]; [now left|].
        right. exists polygon, c. split; [now right | exact Hrestc].
    + destruct (Qlt_bool m (approximate_area coords)) eqn:Hbigger.
      * apply Qlt_bool_iff in Hbigger.
        destruct (IH (Some coords) (approximate_area coords) Hrest)
          as (best' & m' & -> & Hle & Hall & Hwho).
        exists best', m'. split; [reflexivity|].
        split; [apply Qlt_le_weak; eapply Qlt_le_trans; eassumption|]. split.
        -- intros polygon c [<-|Hin] Hc.
           ++ cbn [candidate] in Hc. rewrite Hshort in Hc. injection Hc as <-. exact Hle.
           ++ exact (Hall polygon c Hin Hc).
        -- right. destruct Hwho as [[-> ->]|(polygon & c & Hin & Hc & -> & -> & Hlt)].
           ++ exists (coords :: holes), coords. split; [now left|].
              split; [cbn [candidate]; now rewrite Hshort|]. auto.
           ++ exists polygon, c. split; [now right|]. split; [exact Hc|].
              split; [reflexivity|]. split; [reflexivity|].
              eapply Qlt_trans; eassumption.
      * assert (Hsmall : approximate_area coords <= m).
        { destruct (Qlt_le_dec m (approximate_area coords)) as [Hlt|Hle]; [|exact Hle].
          apply Qlt_bool_iff in Hlt. congruence. }
        destruct (IH best m Hrest) as (best' & m' & -> & Hle & Hall & Hwho).
        exists best', m'. split; [reflexivity|]. split; [exact Hle|]. split.
        -- intros polygon c [<-|Hin] Hc.
           ++ cbn [candidate] in Hc. rewrite Hshort in Hc. injection Hc as <-.
              eapply Qle_trans; eassumption.
           ++ exact (Hall polygon c Hin Hc).
        -- destruct Hwho as [Hsame|(polygon & c & Hin & Hrestc)]; [now left|].
           right. exists polygon, c. split; [now right | exact Hrestc].
Qed.

(** X22.  The label of a MultiPolygon state is placed at the centroid of
    an exterior ring of at least three points whose approximate area is
    positive and is the greatest among such rings; when no such ring has a
    positive area there is no label.  The search visits every polygon, so
    one polygon without rings makes it raise IndexError.  The label of a
    Polygon is at the centroid of its first ring, holes ignored, and a
    Polygon without rings raises IndexError. *)
Theorem label_at_largest_polygon (polygons : list (list (list Point))) :
  (In [] polygons -> get_state_centroid (MultiPolygonShape polygons) = Raise IndexError)
  /\ (~ In [] polygons ->
      (exists polygon coords,
         get_state_centroid (MultiPolygonShape polygons)
         = Return (calculate_polygon_centroid coords)
         /\ In polygon polygons /\ candidate polygon = Some coords
         /\ 0 < approximate_area coords
         /\ forall other coords',
              In other polygons -> candidate other = Some coords' ->
              approximate_area coords' <= approximate_area coords)
      \/ (get_state_centroid (MultiPolygonShape polygons) = Return None
          /\ forall other coords',
               In other polygons -> candidate other = Some coords' ->
               approximate_area coords' <= 0))
  /\ (forall exterior holes,
        get_state_centroid (PolygonShape (exterior :: holes))
        = Return (calculate_polygon_centroid exterior))
  /\ get_state_centroid (PolygonShape []) = Raise IndexError.
Proof.
  split; [|split; [|split; reflexivity]].
  - intros Hin. cbn [get_state_centroid]. now rewrite largest_fold_raises.
  - intros Hne. cbn [get_state_centroid].
    destruct (largest_fold polygons None 0 Hne) as (best & m & -> & Hle & Hall & Hwho).
    cbn [bind fst].
    destruct Hwho as [[-> ->]|(polygon & coords & Hin & Hc & -> & -> & Hlt)].
    + right. split; [reflexivity | exact Hall].
    + left. exists polygon, coords. auto.
Qed.

End CentroidProps.

(** *** State names and abbreviations *)

Module AbbreviationsProps.
Import Converter Abbreviations.

Lemma reverse_table_sound (a n : string) :
  US_ABBREVIATIONS_STATES !! a = Some n -> US_STATES_ABBREVIATIONS !! n = Some a.
Proof.
  unfold US_ABBREVIATIONS_STATES. revert a n.
  apply (map_fold_weak_ind
           (fun (acc : gmap string string) (m : gmap string string) =>
              forall a n, acc !! a = Some n -> m !! n = Some a)).
  - intros a n H. rewrite lookup_empty in H. discriminate.
  - intros k v m acc Hfresh IH a n H.
    destruct (decide (v = a)) as [->|Hne].
    + rewrite lookup_insert_eq in H. injection H as <-. now rewrite lookup_insert_eq.
    + rewrite lookup_insert_ne in H by assumption.
      specialize (IH a n H).
      rewrite lookup_insert_ne; [exact IH | congruence].
Qed.

Ltac each_entry H :=
  repeat (apply elem_of_cons in H; destruct H as [H|H]);
  [..| apply elem_of_nil in H; destruct H].

(** Every entry of the table: its abbreviation is upper case and not
    empty, and the reverse table leads back to the name. *)
Lemma table_entries (n a : string) :
  US_STATES_ABBREVIATIONS !! n = Some a ->
  US_ABBREVIATIONS_STATES !! a = Some n /\ upper a = a /\ a <> ""%string.
Proof.
  intros H. unfold US_STATES_ABBREVIATIONS in H. apply elem_of_list_to_map_2 in H.
  each_entry H; injection H as -> ->;
    (split; [vm_compute; reflexivity | split; [reflexivity | discriminate]]).
Qed.

(** X23.  Names and abbreviations round-trip through the two tables: a
    valid state name is exactly one with a non-empty abbreviation, its
    abbreviation is valid and leads back to the name; a valid
    abbreviation, in any letter case, leads to a valid name whose
    abbreviation is the upper-cased input. *)
Theorem abbreviation_round_trip (name abbreviation : string) :
  (is_valid_state name = true <-> get_state_abbreviation (VStr name) <> VStr "")
  /\ (is_valid_state name = true ->
      exists a,
        get_state_abbreviation (VStr name) = VStr a
        /\ is_valid_abbreviation a = true
        /\ get_state_name a = name)
  /\ (is_valid_abbreviation abbreviation = true ->
      is_valid_state (get_state_name abbreviation) = true
      /\ get_state_abbreviation (VStr (get_state_name abbreviation))
         = VStr (upper abbreviation)).
Proof.
  unfold is_valid_state, is_valid_abbreviation, get_state_name. cbn [get_state_abbreviation].
  split; [|split].
  - rewrite bool_decide_eq_true. split.
    + intros [a Ha]. rewrite Ha. cbn. intros [= ->].
      now destruct (table_entries name "" Ha) as (_ & _ & Hne).
    + destruct (US_STATES_ABBREVIATIONS !! name) as [a|]; [eauto | cbn; congruence].
  - rewrite bool_decide_eq_true. intros [a Ha].
    destruct (table_entries name a Ha) as (Hrev & Hup & _).
    exists a. rewrite Ha, Hup, Hrev. cbn. repeat split.
  - rewrite bool_decide_eq_true. intros [n Hn]. rewrite Hn.
    pose proof (reverse_table_sound _ _ Hn) as Hfwd.
    change (default ""%string (Some n)) with n. rewrite Hfwd.
    split; [|reflexivity]. apply bool_decide_eq_true. eauto.
Qed.

End AbbreviationsProps.
